(** * fdtdx: fabrication-constrained discretization and array containers

    A shallow embedding of
    - [fdtdx/objects/device/parameters/discretization.py]
      ([ClosestIndex], [BrushConstraint2D], [PillarDiscretization],
      [circular_brush]),
    - [fdtdx/fdtd/container.py] ([ObjectContainer], [reset_array_container]),
    - [fdtdx/objects/device/parameters/latent.py] (the range
      transformations) and
    - [fdtdx/core/jax/utils.py] ([check_shape_dtype]),
    followed by the properties established about them.

    Conventions.  A [jax.Array] is a shape together with its row-major
    buffer.  Where the code only compares and negates array elements (the
    brush solver) they are rationals: every finite float is one, and
    comparison and negation of floats are exact; the value [-jnp.inf] used for
    masking is a separate constructor.  Where the code does arithmetic on
    them ([ClosestIndex], [reset_array_container]) they are IEEE 754 binary32
    numbers with the operations of the standard library's [SpecFloat].
    Python exceptions are values of [result]; the unbounded [while_loop]
    takes a fuel argument. *)

From Stdlib Require Import QArith Qcanon Qcabs Qround.
From Stdlib Require SpecFloat.
From stdpp Require Import base numbers list strings gmap sorting.

Local Open Scope nat_scope.

(* ===================================================================== *)
(** * Part I: definitions                                                 *)
(* ===================================================================== *)

(** ** Exceptions *)

Inductive exn :=
  | Exception (msg : string)
  | IndexError
  | ValueError
  | KeyError (key : string).

Inductive result (A : Type) :=
  | Ok (a : A)
  | Raise (e : exn).
Arguments Ok {A} a.
Arguments Raise {A} e.

(** ** Arrays *)

Record ndarray (A : Type) := NdArray { shape : list nat; data : list A }.
Arguments NdArray {A} shape data.
Arguments shape {A} n.
Arguments data {A} n.

(** [input_params: dict[str, jax.Array] | jax.Array], with elements of
    type [A]. *)
Inductive latent_of (A : Type) :=
  | Single (arr : ndarray A)
  | Named (entries : gmap string (ndarray A)).
Arguments Single {A} arr.
Arguments Named {A} entries.

Abbreviation latent := (latent_of Qc).

(** ** Floating-point numbers *)

(** [jnp.float32], the default dtype of JAX arrays: IEEE 754 binary32, with
    24 bits of precision and the exponent of the infinities at 128.  The
    operations round to nearest, ties to even. *)
Abbreviation float32 := SpecFloat.spec_float.

Definition f32_prec : Z := 24.
Definition f32_emax : Z := 128.

Definition f32_sub : float32 → float32 → float32 := SpecFloat.SFsub f32_prec f32_emax.
Definition f32_mul : float32 → float32 → float32 := SpecFloat.SFmul f32_prec f32_emax.
Definition f32_div : float32 → float32 → float32 := SpecFloat.SFdiv f32_prec f32_emax.
Definition f32_abs : float32 → float32 := SpecFloat.SFabs.
Definition f32_ltb : float32 → float32 → bool := SpecFloat.SFltb.
Definition f32_leb : float32 → float32 → bool := SpecFloat.SFleb.

Definition f32_zero : float32 := SpecFloat.S754_zero false.

Definition f32_is_nan (x : float32) : bool :=
  match x with
  | SpecFloat.S754_nan => true
  | _ => false
  end.

(** Neither an infinity nor NaN. *)
Definition f32_is_finite (x : float32) : bool :=
  match x with
  | SpecFloat.S754_zero _ | SpecFloat.S754_finite _ _ _ => true
  | _ => false
  end.

(** The float of an integer literal. *)
Definition f32_of_Z (z : Z) : float32 :=
  SpecFloat.binary_normalize f32_prec f32_emax z 0 false.

(** [jnp.asarray] on a Python float: the binary32 number nearest to its
    value, the correctly rounded quotient of numerator and denominator. *)
Definition f32_of_Qc (q : Qc) : float32 :=
  let round (s : bool) (n : positive) :=
    let '(m, e, l) :=
      SpecFloat.SFdiv_core_binary f32_prec f32_emax (Zpos n) 0 (Zpos (Qden q)) 0 in
    SpecFloat.binary_round_aux f32_prec f32_emax s m e l in
  match Qnum q with
  | Z0 => f32_zero
  | Zpos n => round false n
  | Zneg n => round true n
  end.

(** The sign bit of a float. *)
Definition f32_sign (x : float32) : bool :=
  match x with
  | SpecFloat.S754_zero s | SpecFloat.S754_infinity s
  | SpecFloat.S754_finite s _ _ => s
  | SpecFloat.S754_nan => false
  end.

(** The place of a float in the order that the comparisons follow, as a
    triple ordered lexicographically; NaN, which compares with nothing, is
    put below all numbers. *)
Definition f32_rank (x : float32) : Z * Z * Z :=
  match x with
  | SpecFloat.S754_nan => (-3, 0, 0)%Z
  | SpecFloat.S754_infinity s => (if s then -2 else 2, 0, 0)%Z
  | SpecFloat.S754_zero _ => (0, 0, 0)%Z
  | SpecFloat.S754_finite s m e =>
      if s then (-1, - e, Zneg m)%Z else (1, e, Zpos m)%Z
  end.

Definition lex_lt (a b : Z * Z * Z) : Prop :=
  (a.1.1 < b.1.1
   ∨ (a.1.1 = b.1.1 ∧ (a.1.2 < b.1.2 ∨ (a.1.2 = b.1.2 ∧ a.2 < b.2))))%Z.

(** The number a float stands for, if it stands for one. *)
Definition f32_value (x : float32) : option Qc :=
  match x with
  | SpecFloat.S754_zero _ => Some 0%Qc
  | SpecFloat.S754_finite s m e =>
      Some (Q2Qc (inject_Z (if s then Zneg m else Zpos m) * Qpower 2 e))
  | _ => None
  end.

Global Instance Qc_inhabited : Inhabited Qc := populate 0%Qc.

(** A buffer given by its index function. *)
Definition tabulate {A} (n : nat) (f : nat → A) : list A := f <$> seq 0 n.

(** Row-major position of [(i, j, k)] in an array of shape [(_, s1, s2)]. *)
Definition ravel3 (s1 s2 : nat) (i j k : nat) : nat := (i * s1 + j) * s2 + k.

Definition tabulate3 {A} (s0 s1 s2 : nat) (f : nat → nat → nat → A) : list A :=
  tabulate (s0 * s1 * s2) (λ n, f (n / (s1 * s2)) (n / s2 mod s1) (n mod s2)).

Definition tabulate2 {A} (s0 s1 : nat) (f : nat → nat → A) : list A :=
  tabulate (s0 * s1) (λ n, f (n / s1) (n mod s1)).

(** [jnp.take(a, 0, axis)] on a rank-3 array: the slice at index 0. *)
Definition jnp_take0 (a : ndarray Qc) (axis : nat) : ndarray Qc :=
  match shape a with
  | [s0; s1; s2] =>
      let at3 i j k := data a !!! ravel3 s1 s2 i j k in
      match axis with
      | 0 => NdArray [s1; s2] (tabulate2 s1 s2 (λ j k, at3 0 j k))
      | 1 => NdArray [s0; s2] (tabulate2 s0 s2 (λ i k, at3 i 0 k))
      | 2 => NdArray [s0; s1] (tabulate2 s0 s1 (λ i j, at3 i j 0))
      | _ => a
      end
  | _ => a
  end.

(** [jnp.expand_dims(a, axis)]: a new axis of size 1, the buffer is kept. *)
Definition jnp_expand_dims {A} (a : ndarray A) (axis : nat) : ndarray A :=
  NdArray (take axis (shape a) ++ 1 :: drop axis (shape a)) (data a).

(** [jnp.transpose(a, axes)] on a rank-3 array: axis [d] of the result is
    axis [axes[d]] of [a]. *)
Definition jnp_transpose (a : ndarray Z) (axes : nat * nat * nat) : ndarray Z :=
  match shape a with
  | [s0; s1; s2] =>
      let '(p0, p1, p2) := axes in
      let dim p := [s0; s1; s2] !!! p in
      let src (d i0 i1 i2 : nat) : nat :=
        if decide (p0 = d) then i0 else if decide (p1 = d) then i1 else i2 in
      NdArray [dim p0; dim p1; dim p2]
        (tabulate3 (dim p0) (dim p1) (dim p2) (λ i0 i1 i2,
           data a !!! ravel3 s1 s2 (src 0 i0 i1 i2) (src 1 i0 i1 i2) (src 2 i0 i1 i2)))
  | _ => a
  end.

(** [table[idx]] for a rank-2 [table] and an integer array [idx]: the rows
    selected by [idx]; an index past the end is clamped to the last row. *)
Definition table_row (table : ndarray Z) (i : nat) : list Z :=
  match shape table with
  | [n; l] => take l (drop (Nat.min i (n - 1) * l) (data table))
  | _ => []
  end.

Definition jnp_gather_rows (table : ndarray Z) (idx : ndarray nat) : ndarray Z :=
  NdArray (shape idx ++ drop 1 (shape table))
          (mjoin (table_row table <$> data idx)).

(** ** Extended values: an array element or [-jnp.inf] *)

Inductive ext :=
  | NegInf
  | Fin (q : Qc).

Definition ext_lt (a b : ext) : Prop :=
  match a, b with
  | NegInf, Fin _ => True
  | Fin x, Fin y => (x < y)%Qc
  | _, NegInf => False
  end.

Definition ext_le (a b : ext) : Prop :=
  match a, b with
  | NegInf, _ => True
  | Fin x, Fin y => (x ≤ y)%Qc
  | Fin _, NegInf => False
  end.

Global Instance ext_lt_dec : RelDecision ext_lt.
Proof. intros [|x] [|y]; simpl; apply _. Defined.

Global Instance ext_le_dec : RelDecision ext_le.
Proof. intros [|x] [|y]; simpl; apply _. Defined.

Definition ext_max (a b : ext) : ext := if decide (ext_lt a b) then b else a.

(** [jnp.where(mask, values, -jnp.inf)] *)
Definition where_neg_inf (mask : list bool) (values : list Qc) : list ext :=
  zip_with (λ (m : bool) x, if m then Fin x else NegInf) mask values.

(** [jnp.max] of a (non-empty) flattened array. *)
Definition jnp_max (l : list ext) : ext := foldr ext_max NegInf l.

(** Index of the first element that no other element beats: the common
    scan behind [jnp.argmax] and [jnp.argmin], which both return the first
    occurrence of the extremum. *)
Fixpoint first_best_from {A} (better : A → A → bool)
    (best_i : nat) (best : A) (i : nat) (l : list A) : nat :=
  match l with
  | [] => best_i
  | x :: l' =>
      if better x best then first_best_from better i x (S i) l'
      else first_best_from better best_i best (S i) l'
  end.

Definition first_best {A} (better : A → A → bool) (l : list A) : nat :=
  match l with
  | [] => 0
  | x :: l' => first_best_from better 0 x 1 l'
  end.

Definition jnp_argmax (l : list ext) : nat :=
  first_best (λ x best, bool_decide (ext_lt best x)) l.

(** [jnp.argmin] on floats: a NaN counts as less than every number. *)
Definition argmin_better (x best : float32) : bool :=
  f32_ltb x best || (f32_is_nan x && negb (f32_is_nan best)).

Definition jnp_argmin (l : list float32) : nat := first_best argmin_better l.

(** ** Boolean fields (flattened 2D boolean arrays) *)

Abbreviation field := (list bool).

Definition f_not (a : field) : field := negb <$> a.
Definition f_and (a b : field) : field := zip_with andb a b.
Definition f_or (a b : field) : field := zip_with orb a b.
Definition jnp_any (a : field) : bool := existsb id a.
Definition jnp_all (a : field) : bool := forallb id a.

(** ** [eqxi.while_loop(cond_fun, body_fun, init_val, kind="lax")] *)

Fixpoint while_loop {State : Type} (fuel : nat) (cond_fun : State → bool)
    (body_fun : State → State) (init_val : State) : option State :=
  match fuel with
  | 0 => None
  | S fuel' =>
      if cond_fun init_val
      then while_loop fuel' cond_fun body_fun (body_fun init_val)
      else Some init_val
  end.

(** ** Morphological primitive *)

(** Modelled from the spec: [dilate_jax] of
    [fdtdx/objects/device/parameters/binary_transform.py], which is imported
    by [discretization.py] but is not among the sources.  Spec, 4.2:
    "for each position, true iff some True value lies within the brush's
    offset footprint centered at that position, using zero-padding (positions
    outside bounds treated as False, i.e. no dilation across the boundary)".
    The image is an [h]-by-[w] boolean array, the brush a [kh]-by-[kw] one whose
    centre cell is [(kh / 2, kw / 2)]. *)
Definition brush_at (kernel : list (list bool)) (a b : nat) : bool :=
  (kernel !!! a) !!! b.

Definition pixel_at (h w : nat) (image : field) (y x : Z) : bool :=
  bool_decide (0 ≤ y < Z.of_nat h ∧ 0 ≤ x < Z.of_nat w)%Z
  && (image !!! (Z.to_nat y * w + Z.to_nat x)).

Definition dilate_jax (h w : nat) (image : field) (kernel : list (list bool)) : field :=
  let kh := length kernel in
  let kw := length (kernel !!! 0) in
  tabulate2 h w (λ i j,
    existsb (λ a,
      existsb (λ b,
        brush_at kernel a b
        && pixel_at h w image (Z.of_nat i + Z.of_nat a - Z.of_nat (kh / 2))
                              (Z.of_nat j + Z.of_nat b - Z.of_nat (kw / 2)))
        (seq 0 kw))
      (seq 0 kh)).

(** The centre cell of the brush. *)
Definition brush_centre (kernel : list (list bool)) : bool :=
  bool_decide (0 < length (kernel !!! 0))
  && brush_at kernel (length kernel / 2) (length (kernel !!! 0) / 2).

(** ** Brush-constraint solver: [BrushConstraint2D._generator] *)

Section generator.
Variables (h w : nat) (brush : list (list bool)) (arr : list Qc).

Definition cond_fn (arrs : field * field) : bool :=
  let touch_v := arrs.1 in
  let touch_s := arrs.2 in
  let pixel_existing_solid := dilate_jax h w touch_s brush in
  let pixel_existing_void := dilate_jax h w touch_v brush in
  negb (jnp_all (f_or pixel_existing_solid pixel_existing_void)).

Section body.
Variables (touch_v touch_s : field).

(** compute touches and pixel arrays *)
Definition pixel_existing_solid := dilate_jax h w touch_s brush.
Definition pixel_existing_void := dilate_jax h w touch_v brush.
Definition touch_impossible_solid := dilate_jax h w pixel_existing_void brush.
Definition touch_impossible_void := dilate_jax h w pixel_existing_solid brush.
Definition touch_valid_solid := f_and (f_not touch_impossible_solid) (f_not touch_s).
Definition touch_valid_void := f_and (f_not touch_impossible_void) (f_not touch_v).
Definition pixel_possible_solid := dilate_jax h w (f_or touch_s touch_valid_solid) brush.
Definition pixel_possible_void := dilate_jax h w (f_or touch_v touch_valid_void) brush.
Definition pixel_required_solid := f_and (f_not pixel_existing_solid) (f_not pixel_possible_void).
Definition pixel_required_void := f_and (f_not pixel_existing_void) (f_not pixel_possible_solid).
Definition touch_resolving_solid :=
  f_and (dilate_jax h w pixel_required_solid brush) touch_valid_solid.
Definition touch_resolving_void :=
  f_and (dilate_jax h w pixel_required_void brush) touch_valid_void.
Definition touch_free_solid :=
  f_and (f_not (dilate_jax h w (f_or pixel_possible_void pixel_existing_void) brush))
        touch_valid_solid.
Definition touch_free_void :=
  f_and (f_not (dilate_jax h w (f_or pixel_possible_solid pixel_existing_solid) brush))
        touch_valid_void.

(** case 1 *)
Definition select_all_free_touches : field * field :=
  let new_v := f_or touch_v touch_free_void in
  let new_s := f_or touch_s touch_free_solid in
  (new_v, new_s).

(** case 2 *)
Definition select_best_resolving_touch : field * field :=
  let values_solid := where_neg_inf touch_resolving_solid arr in
  let values_void := where_neg_inf touch_resolving_void (Qcopp <$> arr) in
  let select_void :=
    let max_idx := jnp_argmax values_void in
    let new_v := <[max_idx := true]> touch_v in
    (new_v, touch_s) in
  let select_solid :=
    let max_idx := jnp_argmax values_solid in
    let new_s := <[max_idx := true]> touch_s in
    (touch_v, new_s) in
  if bool_decide (ext_lt (jnp_max values_void) (jnp_max values_solid))
  then select_solid
  else select_void.

(** case 3 *)
Definition select_best_valid_touch : field * field :=
  let values_solid := where_neg_inf touch_valid_solid arr in
  let values_void := where_neg_inf touch_valid_void (Qcopp <$> arr) in
  let select_void :=
    let max_idx := jnp_argmax values_void in
    let new_v := <[max_idx := true]> touch_v in
    (new_v, touch_s) in
  let select_solid :=
    let max_idx := jnp_argmax values_solid in
    let new_s := <[max_idx := true]> touch_s in
    (touch_v, new_s) in
  if bool_decide (ext_lt (jnp_max values_void) (jnp_max values_solid))
  then select_solid
  else select_void.

(** case 2 and 3 *)
Definition case_2_and_3_function : field * field :=
  let resolving_exists := jnp_any (f_or touch_resolving_solid touch_resolving_void) in
  if resolving_exists then select_best_resolving_touch else select_best_valid_touch.

Definition free_touches_exist : bool := jnp_any (f_or touch_free_solid touch_free_void).
End body.

(** see Algorithm 1 in paper *)
Definition body_fn (sv_arrs : field * field) : field * field :=
  let touch_v := sv_arrs.1 in
  let touch_s := sv_arrs.2 in
  if free_touches_exist touch_v touch_s
  then select_all_free_touches touch_v touch_s
  else case_2_and_3_function touch_v touch_s.

Definition _generator (fuel : nat) : option field :=
  let touches_void : field := (λ _, false) <$> arr in
  let touches_solid : field := (λ _, false) <$> touches_void in
  let arrs := (touches_void, touches_solid) in
  res_arrs ← while_loop fuel cond_fn body_fn arrs;
  let pixel_existing_solid := dilate_jax h w res_arrs.2 brush in
  Some pixel_existing_solid.
End generator.

(** ** Collaborators that are imported but not part of the sources *)

(** [fdtdx.materials] and [fdtdx.core.misc]: the material catalogue is only
    consulted through these three functions. *)
Class Materials := {
  Material : Type;
  compute_allowed_permittivities : gmap string Material → list Qc;
  compute_ordered_names : gmap string Material → list string;
  get_air_name : gmap string Material → result string;
}.

Inductive metric :=
  | euclidean
  | permittivity_differences_plus_average_permittivity.

(** [fdtdx.objects.device.parameters.utils.nearest_index], called with
    [return_distances=False]. *)
Class NearestIndex := nearest_index :
  ndarray Qc → list Qc → nat → metric → ndarray Z → ndarray nat.

(** Modelled from the spec: [straight_through_estimator] of
    [fdtdx/core/jax/ste.py], which is not among the sources.  Spec, 4.6:
    "forward pass returns the discrete result; the reported local derivative
    with respect to the continuous input is the identity (gradient of output
    w.r.t. input defined as 1 everywhere)".  The value carries the forward
    result together with its backward (vector-Jacobian) rule, which maps a
    gradient arriving at the output to the gradient handed to the continuous
    input [x]. *)
Record ste_value := SteValue {
  forward : ndarray Z;
  vjp : ndarray Qc → ndarray Qc;
}.

Definition straight_through_estimator {A} (x : ndarray A) (y : ndarray Z) : ste_value :=
  {| forward := y; vjp := λ g, g |}.

(** [ordered_name_list.index(air_name)]: first position, [ValueError] if absent. *)
Definition list_index (x : string) (l : list string) : result nat :=
  match list_find (λ y, y = x) l with
  | Some (i, _) => Ok i
  | None => Raise ValueError
  end.

(** ** [ClosestIndex] *)

Module ClosestIndex.
Record t `{Materials} := { _material : gmap string Material }.

Definition __call__ `{Materials} (self : t) (input_params : latent_of float32)
    : result ste_value :=
  match input_params with
  | Named _ =>
      Raise (Exception
        "Closest Index cannot be used with latent parameters that contain multiple entries")
  | Single arr =>
      let allowed_inv_perms :=
        (λ p, f32_div (f32_of_Z 1) (f32_of_Qc p))
          <$> compute_allowed_permittivities (_material self) in
      let dist :=
        (λ x, (λ a, f32_abs (f32_sub x a)) <$> allowed_inv_perms) <$> data arr in
      match allowed_inv_perms with
      | [] => Raise ValueError (* argmin along an axis of size 0 *)
      | _ =>
          let discrete :=
            NdArray (shape arr) ((λ row, Z.of_nat (jnp_argmin row)) <$> dist) in
          let result := straight_through_estimator arr discrete in
          Ok result
      end
  end.
End ClosestIndex.

(** ** [BrushConstraint2D] *)

Module BrushConstraint2D.
Record t `{Materials} := {
  _material : gmap string Material;
  brush : list (list bool);
  axis : nat;
}.

(** [None]: the solver's loop has not stopped within [fuel] iterations. *)
Definition __call__ `{Materials} (fuel : nat) (self : t) (input_params : latent)
    : option (result ste_value) :=
  match input_params with
  | Named _ =>
      Some (Raise (Exception
        "BrushConstraint2D cannot be used with latent parameters that contain multiple entries"))
  | Single input_params =>
      if bool_decide (2 < size (_material self)) then
        Some (Raise (Exception
          "BrushConstraint2D currently only implemented for single material and air"))
      else
        let s := shape input_params in
        if bool_decide (length s ≠ 3) then
          Some (Raise (Exception "BrushConstraint2D Generator can only work with 2D-Arrays"))
        else
          match s !! axis self with
          | None => Some (Raise IndexError)
          | Some d =>
              if bool_decide (d ≠ 1) then
                Some (Raise (Exception
                  "BrushConstraint2D Generator needs array size 1 in axis"))
              else
                let arr_2d := jnp_take0 input_params (axis self) in
                let h := shape arr_2d !!! 0 in
                let w := shape arr_2d !!! 1 in
                match _generator h w (brush self) (data arr_2d) fuel with
                | None => None
                | Some generated =>
                    let cur_result := (λ b : bool, 1 - Z.b2z b)%Z <$> generated in
                    match get_air_name (_material self) with
                    | Raise e => Some (Raise e)
                    | Ok air_name =>
                        let ordered_name_list := compute_ordered_names (_material self) in
                        match list_index air_name ordered_name_list with
                        | Raise e => Some (Raise e)
                        | Ok air_idx =>
                            let cur_result :=
                              if bool_decide (air_idx ≠ 0)
                              then (λ v, 1 - v)%Z <$> cur_result
                              else cur_result in
                            let cur_result :=
                              jnp_expand_dims (NdArray (shape arr_2d) cur_result) (axis self) in
                            let result := straight_through_estimator input_params cur_result in
                            Some (Ok result)
                        end
                    end
                end
          end
  end.
End BrushConstraint2D.

(** ** [PillarDiscretization] *)

Module PillarDiscretization.
Record t `{Materials} := {
  _material : gmap string Material;
  axis : nat;
  single_polymer_columns : bool;
  distance_metric : metric;
  _allowed_indices : ndarray Z;
}.

Definition __call__ `{Materials, NearestIndex} (self : t) (input_params : latent)
    : result ste_value :=
  match input_params with
  | Named _ =>
      Raise (Exception
        "BrushConstraint2D cannot be used with latent parameters that contain multiple entries")
  | Single input_params =>
      let allowed_inv_perms :=
        (λ p, 1 / p)%Qc <$> compute_allowed_permittivities (_material self) in
      let nearest_allowed_index :=
        nearest_index input_params allowed_inv_perms (axis self)
                      (distance_metric self) (_allowed_indices self) in
      let result_index := jnp_gather_rows (_allowed_indices self) nearest_allowed_index in
      match axis self with
      | 2 => (* no transposition needed *)
          Ok (straight_through_estimator input_params result_index)
      | 1 =>
          let result_index := jnp_transpose result_index (0, 2, 1) in
          Ok (straight_through_estimator input_params result_index)
      | 0 =>
          let result_index := jnp_transpose result_index (2, 0, 1) in
          Ok (straight_through_estimator input_params result_index)
      | _ => Raise (Exception "invalid axis")
      end
  end.
End PillarDiscretization.

(** ** [fdtdx/fdtd/container.py] *)

(** The classes a simulation object can be an instance of, as far as the
    container's filters distinguish them. *)
Inductive object_class :=
  | StaticMaterialObject
  | Source
  | DiscreteDevice
  | ContinuousDevice
  | Detector
  | PerfectlyMatchedLayer
  | PeriodicBoundary
  | PlainObject.

Global Instance object_class_eq_dec : EqDecision object_class.
Proof. solve_decision. Defined.

(** A simulation object: its name, its class, and for boundaries the
    [reset_state] method (state type [St] stands for [BaseBoundaryState]). *)
Record SimulationObject (St : Type) := {
  name : string;
  class : object_class;
  reset_state : St → St;
}.
Arguments name {St} s.
Arguments class {St} s.
Arguments reset_state {St} s state.

Module ObjectContainer.
Record t (St : Type) := {
  object_list : list (SimulationObject St);
  volume_idx : nat;
}.
Arguments object_list {St} t.
Arguments volume_idx {St} t.

Definition objects {St} (self : t St) : list (SimulationObject St) := object_list self.

Definition boundary_objects {St} (self : t St) : list (SimulationObject St) :=
  filter (λ o, class o = PerfectlyMatchedLayer ∨ class o = PeriodicBoundary) (objects self).
End ObjectContainer.

Module RecordingState.
Record t := {
  data : gmap string (ndarray float32);
  state : gmap string (ndarray float32);
}.
End RecordingState.

Module ArrayContainer.
Record t (St : Type) := {
  E : ndarray float32;
  H : ndarray float32;
  inv_permittivities : ndarray float32;
  inv_permeabilities : ndarray float32 + float32;
  boundary_states : gmap string St;
  detector_states : gmap string (gmap string (ndarray float32));
  recording_state : option RecordingState.t;
  electric_conductivity : option (ndarray float32);
  magnetic_conductivity : option (ndarray float32);
}.
Arguments E {St} t.
Arguments H {St} t.
Arguments inv_permittivities {St} t.
Arguments inv_permeabilities {St} t.
Arguments boundary_states {St} t.
Arguments detector_states {St} t.
Arguments recording_state {St} t.
Arguments electric_conductivity {St} t.
Arguments magnetic_conductivity {St} t.

(** [self.aset(name, value)] for the attributes that are assigned. *)
Definition aset_E {St} (self : t St) (v : ndarray float32) : t St :=
  {| E := v; H := H self; inv_permittivities := inv_permittivities self;
     inv_permeabilities := inv_permeabilities self;
     boundary_states := boundary_states self;
     detector_states := detector_states self;
     recording_state := recording_state self;
     electric_conductivity := electric_conductivity self;
     magnetic_conductivity := magnetic_conductivity self |}.

Definition aset_H {St} (self : t St) (v : ndarray float32) : t St :=
  {| E := E self; H := v; inv_permittivities := inv_permittivities self;
     inv_permeabilities := inv_permeabilities self;
     boundary_states := boundary_states self;
     detector_states := detector_states self;
     recording_state := recording_state self;
     electric_conductivity := electric_conductivity self;
     magnetic_conductivity := magnetic_conductivity self |}.

Definition aset_boundary_states {St} (self : t St) (v : gmap string St) : t St :=
  {| E := E self; H := H self; inv_permittivities := inv_permittivities self;
     inv_permeabilities := inv_permeabilities self;
     boundary_states := v;
     detector_states := detector_states self;
     recording_state := recording_state self;
     electric_conductivity := electric_conductivity self;
     magnetic_conductivity := magnetic_conductivity self |}.

Definition aset_recording_state {St} (self : t St) (v : option RecordingState.t) : t St :=
  {| E := E self; H := H self; inv_permittivities := inv_permittivities self;
     inv_permeabilities := inv_permeabilities self;
     boundary_states := boundary_states self;
     detector_states := detector_states self;
     recording_state := v;
     electric_conductivity := electric_conductivity self;
     magnetic_conductivity := magnetic_conductivity self |}.
End ArrayContainer.

(** [a * 0]: every element times the float zero.  The product of a finite
    number and zero is a zero, that of an infinity or NaN and zero is NaN;
    neither depends on the precision of the array. *)
Definition times_zero (a : ndarray float32) : ndarray float32 :=
  NdArray (shape a) ((λ x, f32_mul x f32_zero) <$> data a).

(** [a'] is what multiplying [a] by zero gives: the shape and the number of
    elements are those of [a]; where [a] holds a finite number [a'] holds a
    zero (of the same sign), where [a] holds an infinity or NaN it holds
    NaN. *)
Definition multiplied_by_zero (a a' : ndarray float32) : Prop :=
  shape a' = shape a
  ∧ length (data a') = length (data a)
  ∧ ∀ i x, data a !! i = Some x →
      data a' !! i
      = Some (if f32_is_finite x then SpecFloat.S754_zero (f32_sign x)
              else SpecFloat.S754_nan).

(** The loop over [objects.boundary_objects]; [boundary_states] is the dict
    being filled, [old] is [arrays.boundary_states]. *)
Fixpoint reset_boundary_states {St} (boundaries : list (SimulationObject St))
    (old boundary_states : gmap string St) : result (gmap string St) :=
  match boundaries with
  | [] => Ok boundary_states
  | boundary :: boundaries' =>
      match old !! name boundary with
      | None => Raise (KeyError (name boundary))
      | Some state =>
          reset_boundary_states boundaries' old
            (<[name boundary := reset_state boundary state]> boundary_states)
      end
  end.

Definition reset_array_container {St} (arrays : ArrayContainer.t St)
    (objects : ObjectContainer.t St)
    (reset_detector_states reset_recording_state : bool)
    : result (ArrayContainer.t St) :=
  let E := times_zero (ArrayContainer.E arrays) in
  let arrays := ArrayContainer.aset_E arrays E in
  let H := times_zero (ArrayContainer.H arrays) in
  let arrays := ArrayContainer.aset_H arrays H in
  match reset_boundary_states (ObjectContainer.boundary_objects objects)
          (ArrayContainer.boundary_states arrays) ∅ with
  | Raise e => Raise e
  | Ok boundary_states =>
      let arrays := ArrayContainer.aset_boundary_states arrays boundary_states in
      let detector_states := ArrayContainer.detector_states arrays in
      let detector_states :=
        if reset_detector_states
        then (λ v : gmap string (ndarray float32), times_zero <$> v) <$> detector_states
        else detector_states in
      let arrays := ArrayContainer.aset_boundary_states arrays boundary_states in
      let recording_state := ArrayContainer.recording_state arrays in
      let recording_state :=
        match reset_recording_state, ArrayContainer.recording_state arrays with
        | true, Some rs =>
            Some {| RecordingState.data := times_zero <$> RecordingState.data rs;
                    RecordingState.state := times_zero <$> RecordingState.state rs |}
        | _, _ => recording_state
        end in
      let arrays := ArrayContainer.aset_recording_state arrays recording_state in
      Ok arrays
  end.

(** ** Vocabulary of the statements *)

(** The selection that cases 2 and 3 share, with the two candidate masks
    as arguments ([select_best_resolving_touch] and [select_best_valid_touch]
    have the same body up to the masks). *)
Definition select_best (arr : list Qc) (touch_v touch_s mask_solid mask_void : field)
    : field * field :=
  let values_solid := where_neg_inf mask_solid arr in
  let values_void := where_neg_inf mask_void (Qcopp <$> arr) in
  if bool_decide (ext_lt (jnp_max values_void) (jnp_max values_solid))
  then (touch_v, <[jnp_argmax values_solid := true]> touch_s)
  else (<[jnp_argmax values_void := true]> touch_v, touch_s).

Definition resolving_exists (h w : nat) (brush : list (list bool))
    (touch_v touch_s : field) : bool :=
  jnp_any (f_or (touch_resolving_solid h w brush touch_v touch_s)
                (touch_resolving_void h w brush touch_v touch_s)).

Definition valid_touch_exists (h w : nat) (brush : list (list bool))
    (touch_v touch_s : field) : bool :=
  jnp_any (f_or (touch_valid_solid h w brush touch_v touch_s)
                (touch_valid_void h w brush touch_v touch_s)).

(** The candidate masks of the case that applies when no free touch exists. *)
Definition candidates_solid (h w : nat) (brush : list (list bool))
    (touch_v touch_s : field) : field :=
  if resolving_exists h w brush touch_v touch_s
  then touch_resolving_solid h w brush touch_v touch_s
  else touch_valid_solid h w brush touch_v touch_s.

Definition candidates_void (h w : nat) (brush : list (list bool))
    (touch_v touch_s : field) : field :=
  if resolving_exists h w brush touch_v touch_s
  then touch_resolving_void h w brush touch_v touch_s
  else touch_valid_void h w brush touch_v touch_s.

(** [p] is the first position at which [l] attains its maximum. *)
Definition first_max_at (l : list ext) (p : nat) : Prop :=
  l !! p = Some (jnp_max l)
  ∧ ∀ j y, j < p → l !! j = Some y → ext_lt y (jnp_max l).

(** [p] is the best candidate of [mask]: a candidate whose value no candidate
    exceeds, and the first of these. *)
Definition best_candidate (mask : field) (values : list Qc) (p : nat) : Prop :=
  mask !! p = Some true
  ∧ ∃ x, values !! p = Some x
       ∧ (∀ j y, mask !! j = Some true → values !! j = Some y → (y ≤ x)%Qc)
       ∧ (∀ j y, j < p → mask !! j = Some true → values !! j = Some y → (y < x)%Qc).

(** One iteration commits exactly the best candidate of [mask] on one side
    and leaves the other side as it is. *)
Definition commits_best_solid (arr : list Qc) (touch_v touch_s mask : field)
    (new : field * field) : Prop :=
  ∃ p, best_candidate mask arr p
     ∧ touch_s !! p = Some false
     ∧ new = (touch_v, <[p := true]> touch_s).

Definition commits_best_void (arr : list Qc) (touch_v touch_s mask : field)
    (new : field * field) : Prop :=
  ∃ p, best_candidate mask (Qcopp <$> arr) p
     ∧ touch_v !! p = Some false
     ∧ new = (<[p := true]> touch_v, touch_s).

Definition subfield (a b : field) : Prop :=
  ∀ i, a !! i = Some true → b !! i = Some true.

Definition disjoint_fields (a b : field) : Prop :=
  ∀ i, ¬ (a !! i = Some true ∧ b !! i = Some true).

Definition count_true (a : field) : nat := sum_list (Nat.b2n <$> a).

(** No position of the field is set. *)
Definition all_false (a : field) : Prop := ∀ i, a !! i ≠ Some true.

(** Pixels are required on one side at most: no pixel is required solid, or
    no pixel is required void. *)
Definition required_one_sided (h w : nat) (brush : list (list bool))
    (touch_v touch_s : field) : Prop :=
  all_false (pixel_required_solid h w brush touch_v touch_s)
  ∨ all_false (pixel_required_void h w brush touch_v touch_s).

(** Some position is committed by the step from [old] to [new] that was not
    committed before. *)
Definition commits_new_touch (old new : field * field) : Prop :=
  ∃ p, (old.1 !! p = Some false ∧ new.1 !! p = Some true)
     ∨ (old.2 !! p = Some false ∧ new.2 !! p = Some true).

(** The state before the first iteration. *)
Definition init_val (arr : list Qc) : field * field :=
  ((λ _, false) <$> arr, (λ _, false) <$> ((λ _ : Qc, false) <$> arr)).

(** The entries of a rank-3 array along [axis], at the position [(c1, c2)] of
    the two other axes (taken in order). *)
Definition column (a : ndarray Z) (axis c1 c2 : nat) : list Z :=
  match shape a with
  | [s0; s1; s2] =>
      match axis with
      | 0 => tabulate s0 (λ i, data a !!! ravel3 s1 s2 i c1 c2)
      | 1 => tabulate s1 (λ j, data a !!! ravel3 s1 s2 c1 j c2)
      | _ => tabulate s2 (λ k, data a !!! ravel3 s1 s2 c1 c2 k)
      end
  | _ => []
  end.

(** ** Concrete inputs used in examples *)

(** A one-cell brush, and a 3-by-3 brush of which only a corner cell is set. *)
Definition unit_brush : list (list bool) := [[true]].

Definition corner_brush : list (list bool) :=
  [[true; false; false]; [false; false; false]; [false; false; false]].

(** A 1-by-3 slice whose largest value and largest negated value coincide. *)
Definition tie_arr : list Qc := Qc_of_Z <$> [1; 0; -1]%Z.

(** A 1-by-1 slice. *)
Definition one_pixel_arr : list Qc := [Qc_of_Z 5].

(** A material catalogue for examples: a material is its permittivity, the
    materials are ordered by permittivity, the largest first, and air is the
    material of permittivity 1. *)
Definition permittivity_ge (a b : string * Qc) : Prop := (b.2 ≤ a.2)%Qc.

Global Instance permittivity_ge_dec : RelDecision permittivity_ge.
Proof. intros a b. unfold permittivity_ge. apply _. Defined.

Definition compute_ordered_material_name_tuples (m : gmap string Qc)
    : list (string * Qc) :=
  merge_sort permittivity_ge (map_to_list m).

Definition example_materials : Materials := {|
  Material := Qc;
  compute_allowed_permittivities m := (compute_ordered_material_name_tuples m).*2;
  compute_ordered_names m := (compute_ordered_material_name_tuples m).*1;
  get_air_name m :=
    match list_find (λ kv : string * Qc, kv.2 = Qc_of_Z 1) (map_to_list m) with
    | Some (_, (name, _)) => Ok name
    | None => Raise (Exception "no air material")
    end
|}.

(** Air with a denser material (air comes last), air with a lighter
    material (air comes first), and air alone. *)
Definition air_polymer : gmap string Qc :=
  {[ "air" := Qc_of_Z 1; "polymer" := Qc_of_Z 2 ]}.

Definition glass_air : gmap string Qc :=
  {[ "air" := Qc_of_Z 1; "glass" := Qc_of_Z 2 ]}.

Definition air_foam : gmap string Qc :=
  {[ "air" := Qc_of_Z 1; "foam" := Q2Qc (1 # 2) ]}.

Definition air_only : gmap string Qc := {[ "air" := Qc_of_Z 1 ]}.

(** A 1-by-1-by-1 design tensor with a negative value. *)
Definition one_voxel_neg : ndarray Qc := NdArray [1; 1; 1] [Qc_of_Z (-5)].

(** A container with a volume, one boundary and one detector, for examples;
    boundary states are arrays here. *)
Definition example_objects : ObjectContainer.t (ndarray float32) := {|
  ObjectContainer.object_list :=
    [ {| name := "volume"; class := PlainObject; reset_state := id |};
      {| name := "pml"; class := PerfectlyMatchedLayer; reset_state := times_zero |};
      {| name := "detector"; class := Detector; reset_state := id |} ];
  ObjectContainer.volume_idx := 0;
|}.

Definition example_arrays : ArrayContainer.t (ndarray float32) := {|
  ArrayContainer.E := NdArray [2] [f32_of_Z 1; f32_of_Z (-2)];
  ArrayContainer.H := NdArray [2] [f32_of_Z 3; f32_of_Z 4];
  ArrayContainer.inv_permittivities := NdArray [2] [f32_of_Z 1; f32_of_Z 1];
  ArrayContainer.inv_permeabilities := inr (f32_of_Z 1);
  ArrayContainer.boundary_states := {[ "pml" := NdArray [1] [f32_of_Z 7] ]};
  ArrayContainer.detector_states :=
    {[ "detector" := {[ "energy" := NdArray [1] [f32_of_Z 9] ]} ]};
  ArrayContainer.recording_state := None;
  ArrayContainer.electric_conductivity := None;
  ArrayContainer.magnetic_conductivity := None;
|}.

(** The same container with a periodic boundary added, which has no entry
    in the boundary states of [example_arrays]; and arrays whose electric
    field holds an infinity. *)
Definition example_periodic_objects : ObjectContainer.t (ndarray float32) := {|
  ObjectContainer.object_list :=
    ObjectContainer.object_list example_objects
    ++ [ {| name := "periodic"; class := PeriodicBoundary; reset_state := id |} ];
  ObjectContainer.volume_idx := 0;
|}.

Definition example_unbounded_arrays : ArrayContainer.t (ndarray float32) :=
  ArrayContainer.aset_E example_arrays
    (NdArray [2] [SpecFloat.S754_infinity false; f32_of_Z 1]).

(** A search for examples: it selects the second allowed column wherever the
    first entry along the axis is positive and the first one elsewhere. *)
Definition example_nearest_index : NearestIndex :=
  λ values allowed_values axis distance_metric allowed_indices,
    match shape values with
    | [s0; s1; s2] =>
        match axis with
        | 0 => NdArray [s1; s2] (tabulate2 s1 s2 (λ j k,
                 if bool_decide (0 < data values !!! ravel3 s1 s2 0 j k)%Qc then 1 else 0))
        | 1 => NdArray [s0; s2] (tabulate2 s0 s2 (λ i k,
                 if bool_decide (0 < data values !!! ravel3 s1 s2 i 0 k)%Qc then 1 else 0))
        | _ => NdArray [s0; s1] (tabulate2 s0 s1 (λ i j,
                 if bool_decide (0 < data values !!! ravel3 s1 s2 i j 0)%Qc then 1 else 0))
        end
    | _ => NdArray [] []
    end.

(** Two allowed columns of two layers, [0, 0] and [1, 1], and a 2-by-1-by-2
    design tensor constrained along axis 0. *)
Definition example_pillar : @PillarDiscretization.t example_materials :=
  @PillarDiscretization.Build_t example_materials
    air_polymer 0 true euclidean (NdArray [2; 2] [0; 0; 1; 1]%Z).

Definition example_pillar_input : ndarray Qc :=
  NdArray [2; 1; 2] (Qc_of_Z <$> [-1; 3; 0; 0]%Z).

(** A symmetric brush whose centre cell is not set. *)
Definition gap_brush : list (list bool) := [[true; false; true]].

(** A 3-by-3 brush whose centre cell is set but which is not symmetric, and
    a 2-by-3 slice. *)
Definition bent_brush : list (list bool) :=
  [[true; false; true]; [false; true; true]; [false; false; true]].

Definition bent_arr : list Qc := Qc_of_Z <$> [2; 1; 1; 0; 0; -1]%Z.

(** A symmetric brush with its centre cell set, and a 3-by-4 slice that is
    positive on the left and negative on the right. *)
Definition plus_brush : list (list bool) :=
  [[false; true; false]; [true; true; true]; [false; true; false]].

Definition plus_arr : list Qc :=
  Qc_of_Z <$> [5; 1; -1; -6; 4; 1; -1; -5; 3; 1; -1; -4]%Z.
(** ** [ObjectContainer]: the remaining properties and methods *)

(** [o.material] of a static material object or a device: a [Material], a
    dictionary of materials, or a continuous range with a start and an end
    material. *)
Inductive object_material (M : Type) :=
  | OneMaterial (m : M)
  | MaterialDict (d : gmap string M)
  | MaterialRange (start_material end_material : M).
Arguments OneMaterial {M} m.
Arguments MaterialDict {M} d.
Arguments MaterialRange {M} start_material end_material.

(** [isinstance(o, BaseDevice)]: [BaseDevice] is the common base of the two
    device classes. *)
Definition is_base_device (c : object_class) : bool :=
  bool_decide (c = DiscreteDevice ∨ c = ContinuousDevice).

Module ObjectContainerMethods.
Section methods.
Context {St M : Type}.

(** Attributes of the objects that their classes declare outside the
    sources: [Detector.inverse], [o.material], and the comparison [==] that
    list membership uses ([SimulationObject.__eq__]). *)
Variable inverse : SimulationObject St → bool.
Variable material : SimulationObject St → object_material M.
Variable obj_eqb : SimulationObject St → SimulationObject St → bool.

Definition volume (self : ObjectContainer.t St) : result (SimulationObject St) :=
  match ObjectContainer.object_list self !! ObjectContainer.volume_idx self with
  | Some o => Ok o
  | None => Raise IndexError
  end.

Definition static_material_objects (self : ObjectContainer.t St) :=
  filter (λ o, class o = StaticMaterialObject) (ObjectContainer.objects self).

Definition sources (self : ObjectContainer.t St) :=
  filter (λ o, class o = Source) (ObjectContainer.objects self).

Definition devices (self : ObjectContainer.t St) :=
  filter (λ o, is_base_device (class o) = true) (ObjectContainer.objects self).

Definition discrete_devices (self : ObjectContainer.t St) :=
  filter (λ o, class o = DiscreteDevice) (ObjectContainer.objects self).

Definition continous_devices (self : ObjectContainer.t St) :=
  filter (λ o, class o = ContinuousDevice) (ObjectContainer.objects self).

Definition detectors (self : ObjectContainer.t St) :=
  filter (λ o, class o = Detector) (ObjectContainer.objects self).

Definition forward_detectors (self : ObjectContainer.t St) :=
  filter (λ o, inverse o = false) (detectors self).

Definition backward_detectors (self : ObjectContainer.t St) :=
  filter (λ o, inverse o = true) (detectors self).

Definition pml_objects (self : ObjectContainer.t St) :=
  filter (λ o, class o = PerfectlyMatchedLayer) (ObjectContainer.objects self).

Definition periodic_objects (self : ObjectContainer.t St) :=
  filter (λ o, class o = PeriodicBoundary) (ObjectContainer.objects self).

(** The checks on one object of [_is_material_fn_true_for_all]: [true] when
    the loop goes on to the next object, [false] when it returns [False]. *)
Definition material_fn_holds (fn : M → bool) (o : SimulationObject St) : bool :=
  if negb (bool_decide (class o = StaticMaterialObject))
     && negb (is_base_device (class o))
  then true (* continue *)
  else
    match material o with
    | OneMaterial m => fn m
    | MaterialDict d => forallb fn (map_to_list d).*2
    | MaterialRange start_material end_material =>
        if fn start_material then false
        else if fn end_material then false
        else true
    end.

Fixpoint material_fn_loop (fn : M → bool) (objects : list (SimulationObject St)) : bool :=
  match objects with
  | [] => true
  | o :: objects' =>
      if material_fn_holds fn o then material_fn_loop fn objects' else false
  end.

Definition _is_material_fn_true_for_all (self : ObjectContainer.t St)
    (fn : M → bool) : bool :=
  material_fn_loop fn (ObjectContainer.objects self).

Definition all_objects_non_magnetic (is_magnetic : M → bool)
    (self : ObjectContainer.t St) : bool :=
  _is_material_fn_true_for_all self (λ m, negb (is_magnetic m)).

(** [__getitem__]: the first object of that name. *)
Fixpoint getitem_loop (objects : list (SimulationObject St)) (key : string)
    : result (SimulationObject St) :=
  match objects with
  | [] => Raise ValueError
  | o :: objects' =>
      if decide (name o = key) then Ok o else getitem_loop objects' key
  end.

Definition __getitem__ (self : ObjectContainer.t St) (key : string)
    : result (SimulationObject St) :=
  getitem_loop (ObjectContainer.objects self) key.

(** [o in l]: some element of [l] compares equal to [o]. *)
Definition py_in (o : SimulationObject St) (l : list (SimulationObject St)) : bool :=
  existsb (λ x, obj_eqb x o) l.

Definition replace_sources (self : ObjectContainer.t St)
    (new_sources : list (SimulationObject St)) : ObjectContainer.t St :=
  let new_objects :=
    filter (λ o, py_in o (sources self) = false) (ObjectContainer.objects self)
    ++ new_sources in
  {| ObjectContainer.object_list := new_objects;
     ObjectContainer.volume_idx := ObjectContainer.volume_idx self |}.
End methods.
End ObjectContainerMethods.

(** What the loop body of [_is_material_fn_true_for_all] accepts for the
    material of one object. *)
Definition material_accepted {M} (fn : M → bool) (m : object_material M) : Prop :=
  match m with
  | OneMaterial m => fn m = true
  | MaterialDict d => ∀ k v, d !! k = Some v → fn v = true
  | MaterialRange start_material end_material =>
      fn start_material = false ∧ fn end_material = false
  end.

(** Examples for the container's methods: a container with a source before
    the volume and a continuous device; equality of objects by name; a
    material given by its relative permeability. *)
Definition example_source_objects : ObjectContainer.t (ndarray float32) := {|
  ObjectContainer.object_list :=
    [ {| name := "source"; class := Source; reset_state := id |};
      {| name := "volume"; class := PlainObject; reset_state := id |};
      {| name := "pml"; class := PerfectlyMatchedLayer; reset_state := times_zero |};
      {| name := "device"; class := ContinuousDevice; reset_state := id |} ];
  ObjectContainer.volume_idx := 1;
|}.

Definition example_new_sources : list (SimulationObject (ndarray float32)) :=
  [ {| name := "source_a"; class := Source; reset_state := id |};
    {| name := "source_b"; class := Source; reset_state := id |} ].

Definition example_obj_eqb (x o : SimulationObject (ndarray float32)) : bool :=
  bool_decide (name x = name o).

Definition example_material (o : SimulationObject (ndarray float32)) : object_material Qc :=
  if bool_decide (class o = ContinuousDevice)
  then MaterialRange (Qc_of_Z 1) (Qc_of_Z 1)
  else OneMaterial (Qc_of_Z 1).

Definition example_is_magnetic (permeability : Qc) : bool :=
  bool_decide (permeability ≠ Qc_of_Z 1).

Definition example_recording_arrays : ArrayContainer.t (ndarray float32) := {|
  ArrayContainer.E := NdArray [2] [f32_of_Z 1; f32_of_Z 2];
  ArrayContainer.H := NdArray [2] [f32_of_Z 3; f32_of_Z 4];
  ArrayContainer.inv_permittivities := NdArray [2] [f32_of_Z 1; f32_of_Z 1];
  ArrayContainer.inv_permeabilities := inr (f32_of_Z 1);
  ArrayContainer.boundary_states :=
    {[ "pml" := NdArray [1] [f32_of_Z 7]; "stale" := NdArray [1] [f32_of_Z 8] ]};
  ArrayContainer.detector_states := ∅;
  ArrayContainer.recording_state :=
    Some {| RecordingState.data :=
              {[ "field" := NdArray [2] [f32_of_Z 5; SpecFloat.S754_infinity false] ]};
            RecordingState.state := {[ "step" := NdArray [1] [f32_of_Z 3] ]} |};
  ArrayContainer.electric_conductivity := None;
  ArrayContainer.magnetic_conductivity := None;
|}.

(** ** Symmetric brushes *)

(** The offsets of the set cells from the centre cell are closed under
    negation: with [(a, b)] the cell mirrored at the centre is set as well. *)
Definition brush_symmetric (kernel : list (list bool)) : bool :=
  let kh := length kernel in
  let kw := length (kernel !!! 0) in
  forallb (λ a,
    forallb (λ b,
      implb (brush_at kernel a b)
        (bool_decide (a ≤ 2 * (kh / 2) ∧ 2 * (kh / 2) - a < kh
                      ∧ b ≤ 2 * (kw / 2) ∧ 2 * (kw / 2) - b < kw)
         && brush_at kernel (2 * (kh / 2) - a) (2 * (kw / 2) - b)))
      (seq 0 kw))
    (seq 0 kh).

(** The committed solid touches lie on positive entries of the design, the
    committed void touches on the others. *)
Definition touches_follow_sign (arr : list Qc) (touch_v touch_s : field) : Prop :=
  (∀ i, touch_s !! i = Some true → ∃ x, arr !! i = Some x ∧ (0 < x)%Qc)
  ∧ (∀ i, touch_v !! i = Some true → ∃ x, arr !! i = Some x ∧ (x ≤ 0)%Qc).

(** A 1-by-3 brush and a 1-by-4 slice, for examples. *)
Definition line_brush : list (list bool) := [[true; true; true]].

Definition line_arr : list Qc := Qc_of_Z <$> [2; 1; -1; -1]%Z.

(** The same slice as a 1-by-1-by-4 design tensor. *)
Definition line_voxels : ndarray Qc := NdArray [1; 1; 4] line_arr.

(** ** [circular_brush] *)

(** [circular_brush(diameter, size)]: row [i], column [j] of the mask tells
    whether the cell at offset [(j - c, i - c)] from the centre
    [c = size / 2 - 0.5] lies within [diameter / 2] of it.  The comparison
    [sqrt(q) <= r] is decided exactly, as [0 <= r] and [q <= r * r]. *)
Definition circular_brush (diameter : Qc) (size : option Z) : list (list bool) :=
  let size :=
    match size with
    | None =>
        let s := Qceiling diameter in
        if decide (s mod 2 = 0)%Z then (s + 1)%Z else s
    | Some size => size
    end in
  let n := Z.to_nat size in
  let c := (Qc_of_Z size / 2 - 1 / 2)%Qc in
  let coord (i : nat) : Qc := (Qc_of_Z (Z.of_nat i) - c)%Qc in
  tabulate n (λ i, tabulate n (λ j,
    let sq := (coord j * coord j + coord i * coord i)%Qc in
    bool_decide (0 ≤ diameter / 2 ∧ sq ≤ (diameter / 2) * (diameter / 2))%Qc)).

(** ** [fdtdx/objects/device/parameters/latent.py] *)

(** One array of the latent parameters: the array itself ([None]) or the
    entry of a dictionary under a key. *)
Definition latent_lookup (input_params : latent) (key : option string)
    : option (ndarray Qc) :=
  match input_params, key with
  | Single arr, None => Some arr
  | Named entries, Some k => entries !! k
  | _, _ => None
  end.

Module StandardToCustomRange.
Record t := {
  min_value : Qc;
  max_value : Qc;
}.

(** [v * (self.max_value - self.min_value) + self.min_value], computed
    exactly: the rounding of the two float operations is left out here. *)
Definition mapped (self : t) (v : ndarray Qc) : ndarray Qc :=
  NdArray (shape v)
    ((λ x, x * (max_value self - min_value self) + min_value self)%Qc <$> data v).

Definition transform (self : t) (input_params : latent) : latent :=
  match input_params with
  | Named entries => Named (mapped self <$> entries)
  | Single arr => Single (mapped self arr)
  end.
End StandardToCustomRange.

(** Python floats as far as [StandardToInversePermittivityRange] meets
    them: a finite value (computed exactly), [math.inf], [-math.inf] and
    not-a-number, with the arithmetic and comparisons of IEEE 754 on the
    infinities. *)
Inductive pyfloat :=
  | Finite (q : Qc)
  | PlusInf
  | MinusInf
  | NaN.

(** [a > b] *)
Definition pf_gt (a b : pyfloat) : bool :=
  match a, b with
  | NaN, _ | _, NaN => false
  | Finite x, Finite y => bool_decide (y < x)%Qc
  | PlusInf, PlusInf => false
  | PlusInf, _ => true
  | MinusInf, _ => false
  | Finite _, MinusInf => true
  | Finite _, PlusInf => false
  end.

(** [a < b] *)
Definition pf_lt (a b : pyfloat) : bool := pf_gt b a.

Definition pf_neg (a : pyfloat) : pyfloat :=
  match a with
  | Finite x => Finite (- x)%Qc
  | PlusInf => MinusInf
  | MinusInf => PlusInf
  | NaN => NaN
  end.

Definition pf_add (a b : pyfloat) : pyfloat :=
  match a, b with
  | NaN, _ | _, NaN => NaN
  | Finite x, Finite y => Finite (x + y)%Qc
  | PlusInf, MinusInf | MinusInf, PlusInf => NaN
  | PlusInf, _ | _, PlusInf => PlusInf
  | MinusInf, _ | _, MinusInf => MinusInf
  end.

Definition pf_sub (a b : pyfloat) : pyfloat := pf_add a (pf_neg b).

(** The infinity of the sign of [x] times the sign [positive]; not-a-number
    for [x = 0]. *)
Definition pf_signed_inf (x : Qc) (positive : bool) : pyfloat :=
  if bool_decide (0 < x)%Qc then (if positive then PlusInf else MinusInf)
  else if bool_decide (x < 0)%Qc then (if positive then MinusInf else PlusInf)
  else NaN.

Definition pf_mul (a b : pyfloat) : pyfloat :=
  match a, b with
  | NaN, _ | _, NaN => NaN
  | Finite x, Finite y => Finite (x * y)%Qc
  | Finite x, PlusInf | PlusInf, Finite x => pf_signed_inf x true
  | Finite x, MinusInf | MinusInf, Finite x => pf_signed_inf x false
  | PlusInf, PlusInf | MinusInf, MinusInf => PlusInf
  | PlusInf, MinusInf | MinusInf, PlusInf => MinusInf
  end.

(** The builtins [max(a, b)] and [min(a, b)]: the first argument unless the
    second is greater (smaller). *)
Definition py_max (a b : pyfloat) : pyfloat := if pf_gt b a then b else a.
Definition py_min (a b : pyfloat) : pyfloat := if pf_lt b a then b else a.

(** The output of [StandardToInversePermittivityRange.transform]. *)
Inductive float_latent :=
  | FSingle (arr : ndarray pyfloat)
  | FNamed (entries : gmap string (ndarray pyfloat)).

Definition float_latent_lookup (params : float_latent) (key : option string)
    : option (ndarray pyfloat) :=
  match params, key with
  | FSingle arr, None => Some arr
  | FNamed entries, Some k => entries !! k
  | _, _ => None
  end.

Module StandardToInversePermittivityRange.
Section transform.
Context {M : Type}.

(** [Material.permittivity], a Python float. *)
Variable permittivity : M → Qc.

(** [self._material]: a dictionary, a [ContinuousMaterialRange], or
    something else ([OneMaterial]), for which neither branch is taken. *)
Record t := { _material : object_material M }.

(** One round of the loop over [self._material.items()]; the accumulator is
    [(max_inv_perm, min_inv_perm)]. *)
Definition bounds_step (acc : pyfloat * pyfloat) (p : pyfloat) : pyfloat * pyfloat :=
  let max_inv_perm := if pf_gt p acc.1 then p else acc.1 in
  let min_inv_perm := if pf_lt p acc.2 then p else acc.2 in
  (max_inv_perm, min_inv_perm).

(** [1 / v.permittivity] raises [ZeroDivisionError] on a zero float; the
    exception is recorded by its message. *)
Fixpoint dict_bounds (items : list (string * M)) (acc : pyfloat * pyfloat)
    : result (pyfloat * pyfloat) :=
  match items with
  | [] => Ok acc
  | (k, v) :: items' =>
      if decide (permittivity v = 0%Qc)
      then Raise (Exception "float division by zero")
      else
        let p := Finite (1 / permittivity v)%Qc in
        dict_bounds items' (bounds_step acc p)
  end.

Definition bounds (self : t) : result (pyfloat * pyfloat) :=
  let init := (MinusInf, PlusInf) in
  match _material self with
  | MaterialDict d => dict_bounds (map_to_list d) init
  | MaterialRange start_material end_material =>
      let start_perm := Finite (permittivity start_material) in
      let end_perm := Finite (permittivity end_material) in
      Ok (py_max start_perm end_perm, py_min start_perm end_perm)
  | OneMaterial _ => Ok init
  end.

(** [v * (max_inv_perm - min_inv_perm) + min_inv_perm] *)
Definition mapped (max_inv_perm min_inv_perm : pyfloat) (v : ndarray Qc)
    : ndarray pyfloat :=
  NdArray (shape v)
    ((λ x, pf_add (pf_mul (Finite x) (pf_sub max_inv_perm min_inv_perm)) min_inv_perm)
       <$> data v).

Definition transform (self : t) (input_params : latent) : result float_latent :=
  match bounds self with
  | Raise e => Raise e
  | Ok (max_inv_perm, min_inv_perm) =>
      Ok match input_params with
         | Named entries => FNamed (mapped max_inv_perm min_inv_perm <$> entries)
         | Single arr => FSingle (mapped max_inv_perm min_inv_perm arr)
         end
  end.
End transform.
End StandardToInversePermittivityRange.

(** A latent value read as floats: every entry finite. *)
Definition finite_array (a : ndarray Qc) : ndarray pyfloat :=
  NdArray (shape a) (Finite <$> data a).

Definition finite_latent (params : latent) : float_latent :=
  match params with
  | Single arr => FSingle (finite_array arr)
  | Named entries => FNamed (finite_array <$> entries)
  end.

(** Examples for the latent transformations: a material is given by its
    permittivity. *)
Definition example_inverse_dict : @StandardToInversePermittivityRange.t Qc :=
  {| StandardToInversePermittivityRange._material :=
       MaterialDict {[ "air" := Qc_of_Z 1; "polymer" := Qc_of_Z 4 ]} |}.

Definition example_inverse_range : @StandardToInversePermittivityRange.t Qc :=
  {| StandardToInversePermittivityRange._material :=
       MaterialRange (Qc_of_Z 4) (Qc_of_Z 1) |}.

Definition example_inverse_none : @StandardToInversePermittivityRange.t Qc :=
  {| StandardToInversePermittivityRange._material := MaterialDict ∅ |}.

Definition example_latent_array : ndarray Qc :=
  NdArray [3] [Qc_of_Z 0; Q2Qc (1 # 2); Qc_of_Z 1].

(** ** [fdtdx/core/jax/utils.py] *)

(** [jax.ShapeDtypeStruct], and a [jax.Array] with its dtype. *)
Module ShapeDtypeStruct.
Record t := {
  shape : list nat;
  dtype : string;
}.
End ShapeDtypeStruct.

Module JaxArray.
Record t := {
  values : ndarray Qc;
  dtype : string;
}.
End JaxArray.

(** [arrays: dict[str, jax.Array] | jax.Array]; the dictionary by its items
    in iteration order, since the loop raises at the first offending one. *)
Inductive arrays_arg :=
  | OneArray (arr : JaxArray.t)
  | ArrayDict (items : list (string * JaxArray.t)).

(** [expected_shape_dtypes: dict[str, jax.ShapeDtypeStruct] | jax.ShapeDtypeStruct] *)
Inductive expected_arg :=
  | OneStruct (s : ShapeDtypeStruct.t)
  | StructDict (d : gmap string ShapeDtypeStruct.t).

(** [if not isinstance(arrays, dict): arrays = {'dummy': arrays}] *)
Definition arrays_items (arrays : arrays_arg) : list (string * JaxArray.t) :=
  match arrays with
  | OneArray arr => [("dummy", arr)]
  | ArrayDict items => items
  end.

(** [if not isinstance(expected_shape_dtypes, dict): ... = {'dummy': ...}] *)
Definition expected_dict (expected_shape_dtypes : expected_arg)
    : gmap string ShapeDtypeStruct.t :=
  match expected_shape_dtypes with
  | OneStruct s => {[ "dummy" := s ]}
  | StructDict d => d
  end.

(** The loop over [arrays.items()]. *)
Fixpoint check_items (items : list (string * JaxArray.t))
    (expected_shape_dtypes : gmap string ShapeDtypeStruct.t) : result unit :=
  match items with
  | [] => Ok tt
  | (k, arr) :: items' =>
      match expected_shape_dtypes !! k with
      | None => Raise (KeyError k)
      | Some exp_shape_dtype =>
          if decide (JaxArray.dtype arr ≠ ShapeDtypeStruct.dtype exp_shape_dtype)
          then Raise (Exception "Wrong dtype")
          else if decide (shape (JaxArray.values arr)
                          ≠ ShapeDtypeStruct.shape exp_shape_dtype)
          then Raise (Exception "Wrong shape")
          else check_items items' expected_shape_dtypes
      end
  end.

Definition check_shape_dtype (arrays : arrays_arg)
    (expected_shape_dtypes : expected_arg) (method : string) : result unit :=
  let arrays_is_array := match arrays with OneArray _ => true | ArrayDict _ => false end in
  let expected_is_dict :=
    match expected_shape_dtypes with StructDict _ => true | OneStruct _ => false end in
  if bool_decide (arrays_is_array = expected_is_dict)
  then Raise (Exception "Got different structures in arrays")
  else
    let arrays := arrays_items arrays in
    let expected_shape_dtypes := expected_dict expected_shape_dtypes in
    if bool_decide (method = "exact")
       && bool_decide (length arrays ≠ size expected_shape_dtypes)
    then Raise (Exception "Arrays and expected dict have different lengths")
    else check_items arrays expected_shape_dtypes.

(** An array agrees with the entry expected under its key. *)
Definition array_as_expected (expected_shape_dtypes : gmap string ShapeDtypeStruct.t)
    (item : string * JaxArray.t) : Prop :=
  ∃ exp_shape_dtype,
    expected_shape_dtypes !! item.1 = Some exp_shape_dtype
    ∧ JaxArray.dtype item.2 = ShapeDtypeStruct.dtype exp_shape_dtype
    ∧ shape (JaxArray.values item.2) = ShapeDtypeStruct.shape exp_shape_dtype.

(** Both arguments are dictionaries, or neither is. *)
Definition same_structure (arrays : arrays_arg) (expected_shape_dtypes : expected_arg)
    : Prop :=
  match arrays, expected_shape_dtypes with
  | OneArray _, OneStruct _ | ArrayDict _, StructDict _ => True
  | _, _ => False
  end.

Definition example_float_array : JaxArray.t :=
  {| JaxArray.values := NdArray [2] [Qc_of_Z 1; Qc_of_Z 2]; JaxArray.dtype := "float32" |}.

Definition example_expected : gmap string ShapeDtypeStruct.t :=
  {[ "a" := {| ShapeDtypeStruct.shape := [2]; ShapeDtypeStruct.dtype := "float32" |};
     "b" := {| ShapeDtypeStruct.shape := [2]; ShapeDtypeStruct.dtype := "float32" |} ]}.

(* ===================================================================== *)
(** * Part II: properties                                                 *)
(* ===================================================================== *)

(** ** Buffers given by index functions *)

Lemma length_tabulate {A} n (f : nat → A) : length (tabulate n f) = n.
Proof. unfold tabulate. by rewrite length_fmap, length_seq. Qed.

Lemma lookup_tabulate {A} n (f : nat → A) i :
  i < n → tabulate n f !! i = Some (f i).
Proof.
  intros Hi. unfold tabulate.
  by rewrite list_lookup_fmap, lookup_seq_lt.
Qed.

Lemma ravel2_div i j s1 : j < s1 → (i * s1 + j) / s1 = i.
Proof.
  intros Hj. rewrite Nat.div_add_l by lia.
  rewrite Nat.div_small by done. lia.
Qed.

Lemma ravel2_mod i j s1 : j < s1 → (i * s1 + j) mod s1 = j.
Proof.
  intros Hj. rewrite Nat.add_comm, Nat.Div0.mod_add.
  by apply Nat.mod_small.
Qed.

Lemma ravel2_lt i j s0 s1 : i < s0 → j < s1 → i * s1 + j < s0 * s1.
Proof.
  intros Hi Hj.
  pose proof (Nat.mul_le_mono_r (S i) s0 s1 Hi). lia.
Qed.

Lemma unravel2_lt n s0 s1 : n < s0 * s1 → n / s1 < s0 ∧ n mod s1 < s1.
Proof.
  intros Hn. assert (0 < s1) by (destruct s1; lia). split.
  - apply Nat.Div0.div_lt_upper_bound. lia.
  - by apply Nat.mod_upper_bound; lia.
Qed.

Lemma length_tabulate2 {A} s0 s1 (f : nat → nat → A) :
  length (tabulate2 s0 s1 f) = s0 * s1.
Proof. apply length_tabulate. Qed.

Lemma lookup_tabulate2_flat {A} s0 s1 (f : nat → nat → A) n :
  n < s0 * s1 → tabulate2 s0 s1 f !! n = Some (f (n / s1) (n mod s1)).
Proof. intros Hn. unfold tabulate2. by rewrite lookup_tabulate. Qed.

Lemma lookup_tabulate2 {A} s0 s1 (f : nat → nat → A) i j :
  i < s0 → j < s1 → tabulate2 s0 s1 f !! (i * s1 + j) = Some (f i j).
Proof.
  intros Hi Hj. rewrite lookup_tabulate2_flat by by apply ravel2_lt.
  by rewrite ravel2_div, ravel2_mod.
Qed.

Lemma ravel3_lt s0 s1 s2 i j k :
  i < s0 → j < s1 → k < s2 → ravel3 s1 s2 i j k < s0 * s1 * s2.
Proof.
  intros Hi Hj Hk. unfold ravel3.
  pose proof (ravel2_lt i j s0 s1 Hi Hj).
  by apply ravel2_lt.
Qed.

Lemma length_tabulate3 {A} s0 s1 s2 (f : nat → nat → nat → A) :
  length (tabulate3 s0 s1 s2 f) = s0 * s1 * s2.
Proof. apply length_tabulate. Qed.

Lemma lookup_tabulate3 {A} s0 s1 s2 (f : nat → nat → nat → A) i j k :
  i < s0 → j < s1 → k < s2 →
  tabulate3 s0 s1 s2 f !! ravel3 s1 s2 i j k = Some (f i j k).
Proof.
  intros Hi Hj Hk. unfold tabulate3.
  rewrite lookup_tabulate by by apply ravel3_lt.
  unfold ravel3. f_equal.
  assert (((i * s1 + j) * s2 + k) / s2 = i * s1 + j) as Hd by by apply ravel2_div.
  rewrite Hd, ravel2_mod, ravel2_mod by done.
  replace ((i * s1 + j) * s2 + k) with (i * (s1 * s2) + (j * s2 + k)) by lia.
  rewrite ravel2_div; [done | nia].
Qed.

(** ** Boolean fields *)

Lemma length_f_not a : length (f_not a) = length a.
Proof. apply length_fmap. Qed.

Lemma length_f_and a b : length a = length b → length (f_and a b) = length a.
Proof. intros Hab. unfold f_and. rewrite length_zip_with. lia. Qed.

Lemma length_f_or a b : length a = length b → length (f_or a b) = length a.
Proof. intros Hab. unfold f_or. rewrite length_zip_with. lia. Qed.

Lemma lookup_f_not a i : f_not a !! i = negb <$> a !! i.
Proof. apply list_lookup_fmap. Qed.

Lemma lookup_f_and a b i x y :
  a !! i = Some x → b !! i = Some y → f_and a b !! i = Some (x && y).
Proof. intros Ha Hb. unfold f_and. by rewrite lookup_zip_with, Ha, Hb. Qed.

Lemma lookup_f_or a b i x y :
  a !! i = Some x → b !! i = Some y → f_or a b !! i = Some (x || y).
Proof. intros Ha Hb. unfold f_or. by rewrite lookup_zip_with, Ha, Hb. Qed.

Lemma lookup_f_and_inv a b i z :
  f_and a b !! i = Some z → ∃ x y, a !! i = Some x ∧ b !! i = Some y ∧ z = x && y.
Proof.
  unfold f_and. rewrite lookup_zip_with.
  destruct (a !! i) as [x|], (b !! i) as [y|]; simpl; try done.
  intros [= <-]. eauto.
Qed.

Lemma lookup_f_or_inv a b i z :
  f_or a b !! i = Some z → ∃ x y, a !! i = Some x ∧ b !! i = Some y ∧ z = x || y.
Proof.
  unfold f_or. rewrite lookup_zip_with.
  destruct (a !! i) as [x|], (b !! i) as [y|]; simpl; try done.
  intros [= <-]. eauto.
Qed.

Lemma jnp_any_true a : jnp_any a = true ↔ ∃ i, a !! i = Some true.
Proof.
  unfold jnp_any. rewrite existsb_exists. split.
  - intros (x & Hin & Hx). unfold id in Hx. subst x.
    apply list_elem_of_In, list_elem_of_lookup in Hin. done.
  - intros (i & Hi). exists true. split; [|done].
    apply list_elem_of_In, list_elem_of_lookup. eauto.
Qed.

Lemma jnp_any_false a : jnp_any a = false ↔ ∀ i, a !! i ≠ Some true.
Proof.
  rewrite <-not_true_iff_false, jnp_any_true. split.
  - intros Hn i Hi. apply Hn. eauto.
  - intros Hn (i & Hi). by apply (Hn i).
Qed.

Lemma jnp_all_true a : jnp_all a = true ↔ ∀ i x, a !! i = Some x → x = true.
Proof.
  unfold jnp_all. rewrite forallb_forall. split.
  - intros Hall i x Hi. apply (Hall x).
    apply list_elem_of_In, list_elem_of_lookup. eauto.
  - intros Hall x Hin.
    apply list_elem_of_In, list_elem_of_lookup in Hin as (i & Hi).
    unfold id. eauto.
Qed.

Lemma jnp_all_nil_inv a : jnp_all a = false → a ≠ [].
Proof. by intros Hall ->. Qed.

(** ** The first-extremum scan *)

Section first_best.
Context {A : Type} (better : A → A → bool).
Local Abbreviation R x y := (better x y = true).

Hypothesis R_irrefl : ∀ x, ¬ R x x.
Hypothesis R_trans : ∀ x y z, R x y → R y z → R x z.
(** incomparable elements stay incomparable *)
Hypothesis R_neg_trans : ∀ x y z, ¬ R x y → ¬ R y z → ¬ R x z.

Lemma first_best_from_spec l : ∀ pre best_i best,
  pre !! best_i = Some best →
  (∀ j y, pre !! j = Some y → ¬ R y best) →
  (∀ j y, j < best_i → pre !! j = Some y → R best y) →
  ∃ m, (pre ++ l) !! first_best_from better best_i best (length pre) l = Some m
     ∧ (∀ j y, (pre ++ l) !! j = Some y → ¬ R y m)
     ∧ (∀ j y, j < first_best_from better best_i best (length pre) l →
               (pre ++ l) !! j = Some y → R m y).
Proof using R_irrefl R_trans R_neg_trans.
  induction l as [|x l IH]; intros pre best_i best Hbest Hub Hfirst; simpl.
  - exists best. rewrite app_nil_r. eauto.
  - assert (pre ++ x :: l = (pre ++ [x]) ++ l) as Happ by by rewrite <-app_assoc.
    assert (length (pre ++ [x]) = S (length pre)) as Hlen
      by (rewrite length_app; simpl; lia).
    rewrite Happ, <-Hlen.
    destruct (better x best) eqn:Hx.
    + apply IH.
      * rewrite lookup_app_r, Nat.sub_diag by lia. done.
      * intros j y Hj HR.
        apply lookup_app_Some in Hj as [Hj | [_ Hj]].
        -- apply (Hub j y Hj). by apply (R_trans y x best).
        -- apply list_lookup_singleton_Some in Hj as [_ <-]. by apply (R_irrefl x).
      * intros j y Hlt Hj.
        rewrite lookup_app_l in Hj by done.
        destruct (better x y) eqn:Hxy; [done|].
        exfalso. apply (R_neg_trans x y best); [congruence | by eapply Hub | done].
    + apply IH.
      * apply lookup_app_l_Some. done.
      * intros j y Hj.
        apply lookup_app_Some in Hj as [Hj | [_ Hj]]; [by eapply Hub|].
        apply list_lookup_singleton_Some in Hj as [_ <-]. congruence.
      * intros j y Hlt Hj.
        apply lookup_lt_Some in Hbest.
        rewrite lookup_app_l in Hj by lia. by eapply Hfirst.
Qed.

Lemma first_best_spec l :
  l ≠ [] →
  ∃ m, l !! first_best better l = Some m
     ∧ (∀ j y, l !! j = Some y → ¬ R y m)
     ∧ (∀ j y, j < first_best better l → l !! j = Some y → R m y).
Proof using R_irrefl R_trans R_neg_trans.
  destruct l as [|x l]; [done|]. intros _. simpl.
  apply (first_best_from_spec l [x] 0 x); [done | | lia].
  intros j y Hj. apply list_lookup_singleton_Some in Hj as [_ <-]. apply R_irrefl.
Qed.
End first_best.

(** ** Order on extended values, [jnp.max] and [jnp.argmax] *)

Lemma ext_lt_irrefl a : ¬ ext_lt a a.
Proof.
  destruct a as [|x]; simpl; [tauto|].
  intros Hx. by destruct (Qclt_not_eq x x).
Qed.

Lemma ext_lt_trans a b c : ext_lt a b → ext_lt b c → ext_lt a c.
Proof.
  destruct a as [|x], b as [|y], c as [|z]; simpl; try tauto.
  apply Qclt_trans.
Qed.

Lemma ext_le_ngt a b : ext_le a b ↔ ¬ ext_lt b a.
Proof.
  destruct a as [|x], b as [|y]; simpl; try tauto.
  apply Qcle_ngt.
Qed.

Lemma ext_lt_nge a b : ext_lt a b ↔ ¬ ext_le b a.
Proof.
  destruct a as [|x], b as [|y]; simpl; try tauto.
  apply Qclt_nge.
Qed.

Lemma ext_le_refl a : ext_le a a.
Proof. apply ext_le_ngt, ext_lt_irrefl. Qed.

Lemma ext_le_trans a b c : ext_le a b → ext_le b c → ext_le a c.
Proof.
  destruct a as [|x], b as [|y], c as [|z]; simpl; try tauto.
  apply Qcle_trans.
Qed.

Lemma ext_le_antisym a b : ext_le a b → ext_le b a → a = b.
Proof.
  destruct a as [|x], b as [|y]; simpl; try tauto.
  intros Hxy Hyx. f_equal. by apply Qcle_antisym.
Qed.

Lemma ext_lt_le_incl a b : ext_lt a b → ext_le a b.
Proof.
  destruct a as [|x], b as [|y]; simpl; try tauto.
  apply Qclt_le_weak.
Qed.

Lemma ext_le_lt_trans a b c : ext_le a b → ext_lt b c → ext_lt a c.
Proof.
  destruct a as [|x], b as [|y], c as [|z]; simpl; try tauto.
  apply Qcle_lt_trans.
Qed.

Lemma ext_lt_le_trans a b c : ext_lt a b → ext_le b c → ext_lt a c.
Proof.
  destruct a as [|x], b as [|y], c as [|z]; simpl; try tauto.
  apply Qclt_le_trans.
Qed.

Lemma ext_le_total a b : ext_le a b ∨ ext_lt b a.
Proof. destruct (decide (ext_lt b a)); [by right | left; by apply ext_le_ngt]. Qed.

Lemma ext_max_ub_l a b : ext_le a (ext_max a b).
Proof.
  unfold ext_max. case_decide; [by apply ext_lt_le_incl | apply ext_le_refl].
Qed.

Lemma ext_max_ub_r a b : ext_le b (ext_max a b).
Proof.
  unfold ext_max. case_decide; [apply ext_le_refl | by apply ext_le_ngt].
Qed.

Lemma jnp_max_ub l j y : l !! j = Some y → ext_le y (jnp_max l).
Proof.
  revert j. induction l as [|x l IH]; intros j Hj; [done|].
  simpl. destruct j as [|j]; simpl in Hj.
  - injection Hj as ->. apply ext_max_ub_l.
  - eapply ext_le_trans; [by eapply IH | apply ext_max_ub_r].
Qed.

Lemma jnp_max_attained l : l ≠ [] → ∃ j, l !! j = Some (jnp_max l).
Proof.
  induction l as [|x l IH]; [done|]. intros _. simpl.
  unfold ext_max. case_decide as Hlt.
  - destruct l as [|x' l']; [by destruct x|].
    destruct IH as (j & Hj); [done|]. by exists (S j).
  - by exists 0.
Qed.

Lemma jnp_max_nil_or_all_neg_inf l :
  jnp_max l = NegInf → ∀ j y, l !! j = Some y → y = NegInf.
Proof.
  intros Hmax j y Hj. apply jnp_max_ub in Hj. rewrite Hmax in Hj.
  by destruct y.
Qed.

Lemma jnp_argmax_spec l :
  l ≠ [] →
  l !! jnp_argmax l = Some (jnp_max l)
  ∧ ∀ j y, j < jnp_argmax l → l !! j = Some y → ext_lt y (jnp_max l).
Proof.
  intros Hl. unfold jnp_argmax.
  destruct (first_best_spec (λ x best, bool_decide (ext_lt best x))) with (l := l)
    as (m & Hm & Hub & Hfirst); [| | |done|].
  - intros x. rewrite bool_decide_eq_true. apply ext_lt_irrefl.
  - intros x y z. rewrite !bool_decide_eq_true. eauto using ext_lt_trans.
  - intros x y z. rewrite !bool_decide_eq_true, <-!ext_le_ngt.
    eauto using ext_le_trans.
  - assert (m = jnp_max l) as ->.
    { apply ext_le_antisym; [by eapply jnp_max_ub|].
      destruct (jnp_max_attained l Hl) as (j & Hj).
      apply ext_le_ngt. specialize (Hub j _ Hj).
      by rewrite bool_decide_eq_true in Hub. }
    split; [done|]. intros j y Hlt Hj.
    specialize (Hfirst j y Hlt Hj). by rewrite bool_decide_eq_true in Hfirst.
Qed.

Lemma jnp_argmax_lt l : l ≠ [] → jnp_argmax l < length l.
Proof. intros Hl. eapply lookup_lt_Some, jnp_argmax_spec, Hl. Qed.

Lemma length_where_neg_inf mask values :
  length mask = length values → length (where_neg_inf mask values) = length mask.
Proof. intros Hlen. unfold where_neg_inf. rewrite length_zip_with. lia. Qed.

Lemma lookup_where_neg_inf mask values i (m : bool) x :
  mask !! i = Some m → values !! i = Some x →
  where_neg_inf mask values !! i = Some (if m then Fin x else NegInf).
Proof. intros Hm Hx. unfold where_neg_inf. by rewrite lookup_zip_with, Hm, Hx. Qed.

Lemma lookup_where_neg_inf_Fin mask values i x :
  where_neg_inf mask values !! i = Some (Fin x) →
  mask !! i = Some true ∧ values !! i = Some x.
Proof.
  unfold where_neg_inf. rewrite lookup_zip_with.
  destruct (mask !! i) as [[]|], (values !! i) as [y|]; simpl; try done.
  by intros [= ->].
Qed.

(** ** Best candidates *)

Lemma argmax_best_candidate mask values :
  length mask = length values →
  (∃ i, mask !! i = Some true) →
  best_candidate mask values (jnp_argmax (where_neg_inf mask values))
  ∧ ∃ x, jnp_max (where_neg_inf mask values) = Fin x.
Proof.
  intros Hlen (i & Hi).
  set (l := where_neg_inf mask values).
  destruct (lookup_lt_is_Some_2 values i) as (xi & Hxi).
  { rewrite <-Hlen. by eapply lookup_lt_Some. }
  assert (l !! i = Some (Fin xi)) as Hli by by apply (lookup_where_neg_inf _ _ _ true).
  assert (l ≠ []) as Hne by (intros Hnil; by rewrite Hnil in Hli).
  destruct (jnp_argmax_spec l Hne) as (Hp & Hfirst).
  assert (∃ x, jnp_max l = Fin x) as (x & Hx).
  { pose proof (jnp_max_ub l i _ Hli) as Hle.
    destruct (jnp_max l) as [|x]; [done | by exists x]. }
  split; [|by exists x].
  rewrite Hx in Hp, Hfirst.
  apply lookup_where_neg_inf_Fin in Hp as (Hmask & Hval).
  split; [done|]. exists x. split; [done|]. split.
  - intros j y Hj Hy.
    pose proof (lookup_where_neg_inf _ _ _ _ _ Hj Hy) as Hlj.
    apply jnp_max_ub in Hlj. fold l in Hlj. by rewrite Hx in Hlj.
  - intros j y Hlt Hj Hy.
    pose proof (lookup_where_neg_inf _ _ _ _ _ Hj Hy) as Hlj.
    by apply (Hfirst j _ Hlt) in Hlj.
Qed.

Lemma jnp_max_no_candidate mask values :
  (∀ i, mask !! i ≠ Some true) → jnp_max (where_neg_inf mask values) = NegInf.
Proof.
  intros Hnone.
  destruct (jnp_max (where_neg_inf mask values)) as [|x] eqn:Hmax; [done|].
  destruct (jnp_max_attained (where_neg_inf mask values)) as (j & Hj).
  { intros Hnil. by rewrite Hnil in Hmax. }
  rewrite Hmax in Hj. apply lookup_where_neg_inf_Fin in Hj as [Hj _].
  by destruct (Hnone j).
Qed.

Lemma jnp_argmax_all_neg_inf l : jnp_max l = NegInf → jnp_argmax l = 0.
Proof.
  intros Hmax. destruct l as [|x l]; [done|].
  destruct (jnp_argmax_spec (x :: l)) as (_ & Hfirst); [done|].
  destruct (jnp_argmax (x :: l)) as [|p]; [done|].
  specialize (Hfirst 0 x ltac:(lia) eq_refl).
  rewrite Hmax in Hfirst. by destruct x.
Qed.

Lemma jnp_argmax_first_max_at l : l ≠ [] → first_max_at l (jnp_argmax l).
Proof. apply jnp_argmax_spec. Qed.

(** ** Counting committed positions *)

Lemma count_true_cons x a : count_true (x :: a) = Nat.b2n x + count_true a.
Proof. done. Qed.

Lemma count_true_le a : count_true a ≤ length a.
Proof.
  induction a as [|x a IH]; [done|].
  rewrite count_true_cons. destruct x; simpl; lia.
Qed.

Lemma count_true_subfield a b :
  length a = length b → subfield a b → count_true a ≤ count_true b.
Proof.
  revert b.
  induction a as [|x a IH]; intros [|y b] Hlen Hsub; simpl in Hlen; try done.
  rewrite !count_true_cons.
  assert (count_true a ≤ count_true b) as Hrec.
  { apply IH; [lia|]. intros i Hi. apply (Hsub (S i) Hi). }
  destruct x; simpl; [|lia].
  specialize (Hsub 0 eq_refl). injection Hsub as ->. simpl. lia.
Qed.

Lemma count_true_subfield_lt a b p :
  length a = length b → subfield a b →
  a !! p = Some false → b !! p = Some true → count_true a < count_true b.
Proof.
  revert b p.
  induction a as [|x a IH]; intros [|y b] p Hlen Hsub Ha Hb; simpl in Hlen; try done.
  rewrite !count_true_cons.
  assert (subfield a b) as Hsub' by (intros i Hi; apply (Hsub (S i) Hi)).
  destruct p as [|p]; simpl in Ha, Hb.
  - injection Ha as ->. injection Hb as ->.
    pose proof (count_true_subfield a b ltac:(lia) Hsub') as Hle.
    simpl. lia.
  - assert (count_true a < count_true b) as Hrec by (eapply IH; [lia|done..]).
    destruct x; simpl; [|lia].
    specialize (Hsub 0 eq_refl). injection Hsub as ->. simpl. lia.
Qed.

Lemma subfield_insert a p : subfield a (<[p := true]> a).
Proof.
  intros i Hi. destruct (decide (p = i)) as [->|Hne].
  - rewrite list_lookup_insert_eq; [done|]. by eapply lookup_lt_Some.
  - by rewrite list_lookup_insert_ne.
Qed.

Lemma subfield_f_or_l a b : length a = length b → subfield a (f_or a b).
Proof.
  intros Hlen i Hi.
  destruct (lookup_lt_is_Some_2 b i) as (y & Hy).
  { rewrite <-Hlen. by eapply lookup_lt_Some. }
  by rewrite (lookup_f_or _ _ _ _ _ Hi Hy).
Qed.

Lemma subfield_refl a : subfield a a.
Proof. by intros i Hi. Qed.

(** ** Dilation *)

Lemma length_dilate_jax h w image kernel : length (dilate_jax h w image kernel) = h * w.
Proof. apply length_tabulate2. Qed.

Lemma pixel_at_in_bounds h w image n :
  n < h * w →
  pixel_at h w image (Z.of_nat (n / w)) (Z.of_nat (n mod w)) = image !!! n.
Proof.
  intros Hn. destruct (unravel2_lt n h w Hn) as [Hi Hj].
  unfold pixel_at. rewrite bool_decide_eq_true_2 by lia.
  rewrite !Nat2Z.id. simpl. f_equal.
  pose proof (Nat.div_mod_eq n w). lia.
Qed.

Lemma brush_centre_bounds kernel :
  brush_centre kernel = true →
  length kernel / 2 < length kernel
  ∧ length (kernel !!! 0) / 2 < length (kernel !!! 0)
  ∧ brush_at kernel (length kernel / 2) (length (kernel !!! 0) / 2) = true.
Proof.
  unfold brush_centre. intros [Hkw Hc]%andb_true_iff.
  apply bool_decide_eq_true in Hkw.
  assert (0 < length kernel).
  { destruct kernel; simpl in *; lia. }
  repeat split; [by apply Nat.div_lt; lia..|done].
Qed.

(** A brush whose centre cell is set covers the position it is applied to. *)
Lemma dilate_jax_extensive h w image kernel :
  brush_centre kernel = true → length image = h * w →
  subfield image (dilate_jax h w image kernel).
Proof.
  intros (Hkh & Hkw & Hc)%brush_centre_bounds Hlen i Hi.
  assert (i < h * w) as Hlt by (rewrite <-Hlen; by eapply lookup_lt_Some).
  unfold dilate_jax. rewrite lookup_tabulate2_flat by done. f_equal.
  apply existsb_exists. exists (length kernel / 2). split.
  { apply in_seq. lia. }
  apply existsb_exists. exists (length (kernel !!! 0) / 2). split.
  { apply in_seq. lia. }
  rewrite Hc, !Z.add_simpl_r. simpl.
  rewrite pixel_at_in_bounds by done.
  by apply list_lookup_total_correct.
Qed.

(** ** Membership in combined fields *)

Lemma elem_f_and a b i :
  f_and a b !! i = Some true ↔ a !! i = Some true ∧ b !! i = Some true.
Proof.
  split.
  - intros (x & y & Ha & Hb & Hxy)%lookup_f_and_inv.
    symmetry in Hxy. apply andb_true_iff in Hxy as [-> ->]. done.
  - intros [Ha Hb]. by rewrite (lookup_f_and _ _ _ _ _ Ha Hb).
Qed.

Lemma elem_f_or a b i :
  length a = length b →
  f_or a b !! i = Some true ↔ a !! i = Some true ∨ b !! i = Some true.
Proof.
  intros Hlen. split.
  - intros (x & y & Ha & Hb & Hxy)%lookup_f_or_inv.
    symmetry in Hxy. apply orb_true_iff in Hxy as [-> | ->]; auto.
  - intros [Ha | Hb].
    + destruct (lookup_lt_is_Some_2 b i) as (y & Hy).
      { rewrite <-Hlen. by eapply lookup_lt_Some. }
      by rewrite (lookup_f_or _ _ _ _ _ Ha Hy).
    + destruct (lookup_lt_is_Some_2 a i) as (x & Hx).
      { rewrite Hlen. by eapply lookup_lt_Some. }
      rewrite (lookup_f_or _ _ _ _ _ Hx Hb). by rewrite orb_true_r.
Qed.

Lemma elem_f_not a i : f_not a !! i = Some true ↔ a !! i = Some false.
Proof.
  rewrite lookup_f_not. destruct (a !! i) as [[]|]; simpl; split; congruence.
Qed.

Lemma lookup_field_cases (a : field) i :
  i < length a → a !! i = Some true ∨ a !! i = Some false.
Proof.
  intros Hi. destruct (lookup_lt_is_Some_2 a i Hi) as ([] & Hx); auto.
Qed.

Lemma length_f_and_n n a b : length a = n → length b = n → length (f_and a b) = n.
Proof. intros Ha Hb. rewrite length_f_and; congruence. Qed.

Lemma length_f_or_n n a b : length a = n → length b = n → length (f_or a b) = n.
Proof. intros Ha Hb. rewrite length_f_or; congruence. Qed.

Lemma length_f_not_n n a : length a = n → length (f_not a) = n.
Proof. intros Ha. by rewrite length_f_not. Qed.

Ltac field_len :=
  repeat first
    [ assumption
    | apply length_dilate_jax
    | apply length_f_not_n
    | apply length_f_and_n
    | apply length_f_or_n ].

(** ** One iteration of the solver *)

Section solver.
Variables (h w : nat) (brush : list (list bool)) (arr : list Qc).
Variables (touch_v touch_s : field).
Hypothesis Harr : length arr = h * w.
Hypothesis Hv : length touch_v = h * w.
Hypothesis Hs : length touch_s = h * w.

Local Abbreviation valid_s := (touch_valid_solid h w brush touch_v touch_s).
Local Abbreviation valid_v := (touch_valid_void h w brush touch_v touch_s).
Local Abbreviation resolving_s := (touch_resolving_solid h w brush touch_v touch_s).
Local Abbreviation resolving_v := (touch_resolving_void h w brush touch_v touch_s).
Local Abbreviation free_s := (touch_free_solid h w brush touch_v touch_s).
Local Abbreviation free_v := (touch_free_void h w brush touch_v touch_s).
Local Abbreviation dilate f := (dilate_jax h w f brush).

Lemma length_touch_valid_solid : length valid_s = h * w.
Proof using Hs. unfold touch_valid_solid. field_len. Qed.

Lemma length_touch_valid_void : length valid_v = h * w.
Proof using Hv. unfold touch_valid_void. field_len. Qed.

Lemma length_touch_resolving_solid : length resolving_s = h * w.
Proof using Hs.
  unfold touch_resolving_solid, touch_valid_solid. field_len.
Qed.

Lemma length_touch_resolving_void : length resolving_v = h * w.
Proof using Hv.
  unfold touch_resolving_void, touch_valid_void. field_len.
Qed.

Lemma length_touch_free_solid : length free_s = h * w.
Proof using Hs.
  unfold touch_free_solid, touch_valid_solid. field_len.
Qed.

Lemma length_touch_free_void : length free_v = h * w.
Proof using Hv.
  unfold touch_free_void, touch_valid_void. field_len.
Qed.

(** Valid touches are uncommitted on their own side. *)
Lemma touch_valid_solid_uncommitted i :
  valid_s !! i = Some true → touch_s !! i = Some false.
Proof. unfold touch_valid_solid. rewrite elem_f_and, !elem_f_not. tauto. Qed.

Lemma touch_valid_void_uncommitted i :
  valid_v !! i = Some true → touch_v !! i = Some false.
Proof. unfold touch_valid_void. rewrite elem_f_and, !elem_f_not. tauto. Qed.

(** Resolving and free touches are valid touches. *)
Lemma touch_resolving_solid_valid i :
  resolving_s !! i = Some true → valid_s !! i = Some true.
Proof. unfold touch_resolving_solid. rewrite elem_f_and. tauto. Qed.

Lemma touch_resolving_void_valid i :
  resolving_v !! i = Some true → valid_v !! i = Some true.
Proof. unfold touch_resolving_void. rewrite elem_f_and. tauto. Qed.

Lemma touch_free_solid_valid i :
  free_s !! i = Some true → valid_s !! i = Some true.
Proof. unfold touch_free_solid. rewrite elem_f_and. tauto. Qed.

Lemma touch_free_void_valid i :
  free_v !! i = Some true → valid_v !! i = Some true.
Proof. unfold touch_free_void. rewrite elem_f_and. tauto. Qed.

Lemma candidates_solid_valid i :
  candidates_solid h w brush touch_v touch_s !! i = Some true →
  valid_s !! i = Some true.
Proof.
  unfold candidates_solid. destruct (resolving_exists _ _ _ _ _); [|done].
  apply touch_resolving_solid_valid.
Qed.

Lemma candidates_void_valid i :
  candidates_void h w brush touch_v touch_s !! i = Some true →
  valid_v !! i = Some true.
Proof.
  unfold candidates_void. destruct (resolving_exists _ _ _ _ _); [|done].
  apply touch_resolving_void_valid.
Qed.

Lemma length_candidates_solid :
  length (candidates_solid h w brush touch_v touch_s) = h * w.
Proof using Hs.
  unfold candidates_solid. destruct (resolving_exists _ _ _ _ _);
    auto using length_touch_resolving_solid, length_touch_valid_solid.
Qed.

Lemma length_candidates_void :
  length (candidates_void h w brush touch_v touch_s) = h * w.
Proof using Hv.
  unfold candidates_void. destruct (resolving_exists _ _ _ _ _);
    auto using length_touch_resolving_void, length_touch_valid_void.
Qed.

(** The three cases of [body_fn], with the selection of cases 2 and 3
    written through [select_best]. *)
Lemma body_fn_cases :
  body_fn h w brush arr (touch_v, touch_s) =
    if free_touches_exist h w brush touch_v touch_s
    then (f_or touch_v free_v, f_or touch_s free_s)
    else select_best arr touch_v touch_s
           (candidates_solid h w brush touch_v touch_s)
           (candidates_void h w brush touch_v touch_s).
Proof.
  unfold body_fn, case_2_and_3_function, candidates_solid, candidates_void,
    resolving_exists. simpl.
  destruct (free_touches_exist _ _ _ _ _); [done|].
  destruct (jnp_any _); done.
Qed.
End solver.

(** ** Selection in cases 2 and 3 *)

Lemma jnp_max_Fin_candidate mask values x :
  jnp_max (where_neg_inf mask values) = Fin x → ∃ i, mask !! i = Some true.
Proof.
  intros Hmax.
  destruct (jnp_max_attained (where_neg_inf mask values)) as (j & Hj).
  { intros Hnil. by rewrite Hnil in Hmax. }
  rewrite Hmax in Hj. apply lookup_where_neg_inf_Fin in Hj as [Hj _]. eauto.
Qed.

Lemma select_best_commits arr touch_v touch_s mask_s mask_v :
  length mask_s = length arr → length mask_v = length arr →
  (∀ i, mask_s !! i = Some true → touch_s !! i = Some false) →
  (∀ i, mask_v !! i = Some true → touch_v !! i = Some false) →
  (∃ i, mask_s !! i = Some true ∨ mask_v !! i = Some true) →
  commits_best_solid arr touch_v touch_s mask_s
    (select_best arr touch_v touch_s mask_s mask_v)
  ∨ commits_best_void arr touch_v touch_s mask_v
    (select_best arr touch_v touch_s mask_s mask_v).
Proof.
  intros Hls Hlv Hus Huv Hex. unfold select_best.
  assert (length mask_v = length (Qcopp <$> arr)) as Hlv'
    by by rewrite length_fmap.
  case_bool_decide as Hcmp.
  - left.
    assert (∃ i, mask_s !! i = Some true) as Hcand.
    { destruct (jnp_max (where_neg_inf mask_s arr)) as [|x] eqn:Hmax.
      - by destruct (jnp_max (where_neg_inf mask_v (Qcopp <$> arr))).
      - by eapply jnp_max_Fin_candidate. }
    destruct (argmax_best_candidate mask_s arr Hls Hcand) as [Hbest _].
    exists (jnp_argmax (where_neg_inf mask_s arr)).
    split; [done|]. split; [|done]. apply Hus, Hbest.
  - right. apply ext_le_ngt in Hcmp.
    assert (∃ i, mask_v !! i = Some true) as Hcand.
    { destruct Hex as (i & [Hi | Hi]); [|by eauto].
      destruct (argmax_best_candidate mask_s arr Hls) as [_ (x & Hx)]; [by eauto|].
      rewrite Hx in Hcmp.
      destruct (jnp_max (where_neg_inf mask_v (Qcopp <$> arr))) as [|y] eqn:Hmax;
        [done|]. by eapply jnp_max_Fin_candidate. }
    destruct (argmax_best_candidate mask_v (Qcopp <$> arr) Hlv' Hcand) as [Hbest _].
    exists (jnp_argmax (where_neg_inf mask_v (Qcopp <$> arr))).
    split; [done|]. split; [|done]. apply Huv, Hbest.
Qed.

Lemma select_best_no_candidate arr touch_v touch_s mask_s mask_v :
  (∀ i, mask_s !! i ≠ Some true) → (∀ i, mask_v !! i ≠ Some true) →
  select_best arr touch_v touch_s mask_s mask_v = (<[0 := true]> touch_v, touch_s).
Proof.
  intros Hs Hv. unfold select_best.
  rewrite (jnp_max_no_candidate mask_s arr Hs).
  pose proof (jnp_max_no_candidate mask_v (Qcopp <$> arr) Hv) as Hmax.
  rewrite Hmax. rewrite bool_decide_eq_false_2 by apply ext_lt_irrefl.
  by rewrite (jnp_argmax_all_neg_inf _ Hmax).
Qed.

Lemma cond_fn_nonempty h w brush st : cond_fn h w brush st = true → 0 < h * w.
Proof.
  unfold cond_fn. intros Hc%negb_true_iff%jnp_all_nil_inv.
  destruct (decide (h * w = 0)) as [Hz|]; [|lia].
  exfalso. apply Hc.
  pose proof (length_dilate_jax h w st.2 brush) as H1.
  rewrite Hz in H1. apply nil_length_inv in H1. by rewrite H1.
Qed.

(** ** The comparison that picks the side in cases 2 and 3 *)

(** C1 (as amended).  In an iteration that takes case 2 or case 3 (no free
    touch exists), the solid side is committed exactly when the maximum [arr]
    value among its candidates is strictly greater than the maximum [-arr]
    value among the void candidates; whenever the void maximum is at least
    the solid maximum, in particular on a tie, the void side is committed.
    The position set is the first one at which the winning side attains its
    maximum, and nothing else changes. *)
Theorem select_best_strict_comparison h w brush arr touch_v touch_s :
  length arr = h * w → length touch_v = h * w → length touch_s = h * w →
  cond_fn h w brush (touch_v, touch_s) = true →
  free_touches_exist h w brush touch_v touch_s = false →
  let values_solid :=
    where_neg_inf (candidates_solid h w brush touch_v touch_s) arr in
  let values_void :=
    where_neg_inf (candidates_void h w brush touch_v touch_s) (Qcopp <$> arr) in
  let new := body_fn h w brush arr (touch_v, touch_s) in
  (ext_lt (jnp_max values_void) (jnp_max values_solid) →
     ∃ p, first_max_at values_solid p ∧ new = (touch_v, <[p := true]> touch_s))
  ∧ (ext_le (jnp_max values_solid) (jnp_max values_void) →
     ∃ p, first_max_at values_void p ∧ new = (<[p := true]> touch_v, touch_s))
  ∧ (jnp_max values_solid = jnp_max values_void → new.2 = touch_s).
Proof.
  intros Harr Hv Hs Hcond Hfree values_solid values_void new.
  apply cond_fn_nonempty in Hcond.
  assert (new = select_best arr touch_v touch_s
                  (candidates_solid h w brush touch_v touch_s)
                  (candidates_void h w brush touch_v touch_s)) as Hnew.
  { unfold new. by rewrite body_fn_cases, Hfree. }
  assert (values_solid ≠ []) as Hne_s.
  { intros Hnil. apply (f_equal length) in Hnil. unfold values_solid in Hnil.
    rewrite length_where_neg_inf, length_candidates_solid in Hnil;
      [simpl in Hnil; lia | done | rewrite length_candidates_solid; congruence]. }
  assert (values_void ≠ []) as Hne_v.
  { intros Hnil. apply (f_equal length) in Hnil. unfold values_void in Hnil.
    rewrite length_where_neg_inf, length_candidates_void in Hnil;
      [simpl in Hnil; lia | done
      | rewrite length_candidates_void, length_fmap; congruence]. }
  unfold select_best in Hnew. fold values_solid values_void in Hnew.
  split; [|split].
  - intros Hlt. rewrite bool_decide_eq_true_2 in Hnew by done.
    exists (jnp_argmax values_solid). split; [|done].
    by apply jnp_argmax_first_max_at.
  - intros Hle. rewrite bool_decide_eq_false_2 in Hnew by by apply ext_le_ngt.
    exists (jnp_argmax values_void). split; [|done].
    by apply jnp_argmax_first_max_at.
  - intros Heq. rewrite Heq, bool_decide_eq_false_2 in Hnew
      by apply ext_lt_irrefl.
    by rewrite Hnew.
Qed.

Lemma select_best_strict_comparison_witness :
  let st := init_val tie_arr in
  length tie_arr = 1 * 3
  ∧ length st.1 = 1 * 3
  ∧ length st.2 = 1 * 3
  ∧ cond_fn 1 3 unit_brush st = true
  ∧ free_touches_exist 1 3 unit_brush st.1 st.2 = false
  ∧ (body_fn 1 3 unit_brush tie_arr st).2 = st.2.
Proof.
  intros st.
  destruct (select_best_strict_comparison 1 3 unit_brush tie_arr st.1 st.2
              eq_refl eq_refl eq_refl eq_refl eq_refl) as (_ & _ & Htie).
  do 5 (split; [reflexivity|]).
  apply Htie. vm_compute. f_equal. apply Qc_is_canon. reflexivity.
Defined.

(** C1, counterexample to the claim as stated.  On the 1-by-3 slice
    [1, 0, -1] with a one-cell brush the first iteration takes case 3; the
    solid maximum and the void maximum are both 1, and the iteration marks
    position 2 on the void side and leaves the solid side untouched: the tie
    is not broken toward solid. *)
Lemma tie_commits_void_not_solid :
  let st := init_val tie_arr in
  cond_fn 1 3 unit_brush st = true
  ∧ free_touches_exist 1 3 unit_brush st.1 st.2 = false
  ∧ jnp_max (where_neg_inf (candidates_solid 1 3 unit_brush st.1 st.2) tie_arr)
    = Fin (Qc_of_Z 1)
  ∧ jnp_max (where_neg_inf (candidates_void 1 3 unit_brush st.1 st.2)
                           (Qcopp <$> tie_arr))
    = Fin (Qc_of_Z 1)
  ∧ body_fn 1 3 unit_brush tie_arr st
    = ([false; false; true], [false; false; false]).
Proof.
  repeat split; try (vm_compute; reflexivity).
  vm_compute. f_equal. apply Qc_is_canon. reflexivity.
Qed.

(** ** Priority of the three cases *)

(** C3.  Every iteration evaluates its cases in priority order.  If a free
    touch exists, all free solid and all free void touches are committed at
    once and nothing else happens.  Otherwise, if a resolving touch exists,
    exactly one position is committed, the best resolving candidate of one
    side.  Otherwise exactly one position is committed, the best candidate
    among the valid touches of one side (if no valid touch is left either,
    the selection falls on flat position 0 of the void side). *)
Theorem body_fn_case_priority h w brush arr touch_v touch_s :
  length arr = h * w → length touch_v = h * w → length touch_s = h * w →
  let new := body_fn h w brush arr (touch_v, touch_s) in
  (free_touches_exist h w brush touch_v touch_s = true →
     new = (f_or touch_v (touch_free_void h w brush touch_v touch_s),
            f_or touch_s (touch_free_solid h w brush touch_v touch_s)))
  ∧ (free_touches_exist h w brush touch_v touch_s = false →
     resolving_exists h w brush touch_v touch_s = true →
     commits_best_solid arr touch_v touch_s
       (touch_resolving_solid h w brush touch_v touch_s) new
     ∨ commits_best_void arr touch_v touch_s
       (touch_resolving_void h w brush touch_v touch_s) new)
  ∧ (free_touches_exist h w brush touch_v touch_s = false →
     resolving_exists h w brush touch_v touch_s = false →
     valid_touch_exists h w brush touch_v touch_s = true →
     commits_best_solid arr touch_v touch_s
       (touch_valid_solid h w brush touch_v touch_s) new
     ∨ commits_best_void arr touch_v touch_s
       (touch_valid_void h w brush touch_v touch_s) new)
  ∧ (free_touches_exist h w brush touch_v touch_s = false →
     resolving_exists h w brush touch_v touch_s = false →
     valid_touch_exists h w brush touch_v touch_s = false →
     new = (<[0 := true]> touch_v, touch_s)).
Proof.
  intros Harr Hv Hs new. unfold new. rewrite body_fn_cases.
  unfold candidates_solid, candidates_void.
  split; [by intros ->|]. split; [|split]; intros -> Hres; rewrite Hres.
  - apply select_best_commits.
    + rewrite length_touch_resolving_solid; congruence.
    + rewrite length_touch_resolving_void; congruence.
    + intros i Hi. by eapply touch_valid_solid_uncommitted, touch_resolving_solid_valid.
    + intros i Hi. by eapply touch_valid_void_uncommitted, touch_resolving_void_valid.
    + apply jnp_any_true in Hres as (i & Hi). exists i.
      apply elem_f_or in Hi; [done|].
      rewrite length_touch_resolving_solid, length_touch_resolving_void; done.
  - intros Hval. apply select_best_commits.
    + rewrite length_touch_valid_solid; congruence.
    + rewrite length_touch_valid_void; congruence.
    + apply touch_valid_solid_uncommitted.
    + apply touch_valid_void_uncommitted.
    + apply jnp_any_true in Hval as (i & Hi). exists i.
      apply elem_f_or in Hi; [done|].
      rewrite length_touch_valid_solid, length_touch_valid_void; done.
  - intros Hval. unfold valid_touch_exists in Hval.
    rewrite jnp_any_false in Hval.
    assert (length (touch_valid_solid h w brush touch_v touch_s)
            = length (touch_valid_void h w brush touch_v touch_s)) as Hlen
      by (rewrite length_touch_valid_solid, length_touch_valid_void; done).
    apply select_best_no_candidate; intros i Hi; apply (Hval i);
      apply elem_f_or; auto.
Qed.

Lemma body_fn_case_priority_witness :
  let st := init_val tie_arr in
  length tie_arr = 1 * 3
  ∧ length st.1 = 1 * 3
  ∧ length st.2 = 1 * 3
  ∧ (commits_best_solid tie_arr st.1 st.2
       (touch_valid_solid 1 3 unit_brush st.1 st.2)
       (body_fn 1 3 unit_brush tie_arr st)
     ∨ commits_best_void tie_arr st.1 st.2
       (touch_valid_void 1 3 unit_brush st.1 st.2)
       (body_fn 1 3 unit_brush tie_arr st)).
Proof.
  intros st.
  destruct (body_fn_case_priority 1 3 unit_brush tie_arr st.1 st.2
              eq_refl eq_refl eq_refl) as (_ & _ & Hcase3 & _).
  do 3 (split; [reflexivity|]).
  apply Hcase3; reflexivity.
Defined.

(** C3, counterexample to the claim as stated.  With a 3-by-3 brush of which
    only a corner cell is set, the second iteration on a 1-by-1 slice starts
    from a state on which the loop continues and in which no free, no
    resolving and no valid touch exists.  The third case runs all the same:
    it marks flat position 0 on the void side (already marked), so what it
    commits is not a candidate among the valid touches. *)
Lemma case_three_without_valid_touch :
  let body := body_fn 1 1 corner_brush one_pixel_arr in
  let st := body (init_val one_pixel_arr) in
  cond_fn 1 1 corner_brush st = true
  ∧ free_touches_exist 1 1 corner_brush st.1 st.2 = false
  ∧ resolving_exists 1 1 corner_brush st.1 st.2 = false
  ∧ body st = (<[0 := true]> st.1, st.2)
  ∧ touch_valid_void 1 1 corner_brush st.1 st.2 !! 0 = Some false
  ∧ ¬ (commits_best_solid one_pixel_arr st.1 st.2
         (touch_valid_solid 1 1 corner_brush st.1 st.2) (body st)
       ∨ commits_best_void one_pixel_arr st.1 st.2
         (touch_valid_void 1 1 corner_brush st.1 st.2) (body st)).
Proof.
  split_and!; try reflexivity.
  intros [(p & (Hp & _) & _) | (p & (Hp & _) & _)];
    destruct p; vm_compute in Hp; discriminate Hp.
Qed.

(** ** Growth, disjointness and progress of one iteration *)

Section iteration.
Variables (h w : nat) (brush : list (list bool)) (arr : list Qc).
Variables (touch_v touch_s : field).
Hypothesis Harr : length arr = h * w.
Hypothesis Hv : length touch_v = h * w.
Hypothesis Hs : length touch_s = h * w.

Local Abbreviation new := (body_fn h w brush arr (touch_v, touch_s)).

Lemma free_touch_valid :
  free_touches_exist h w brush touch_v touch_s = true →
  valid_touch_exists h w brush touch_v touch_s = true.
Proof using Hv Hs.
  unfold free_touches_exist, valid_touch_exists.
  rewrite !jnp_any_true. intros (i & Hi). exists i.
  apply elem_f_or in Hi;
    [|by rewrite length_touch_free_solid, length_touch_free_void].
  apply elem_f_or;
    [by rewrite length_touch_valid_solid, length_touch_valid_void|].
  destruct Hi as [Hi | Hi];
    [left; by apply touch_free_solid_valid | right; by apply touch_free_void_valid].
Qed.

Lemma resolving_touch_valid :
  resolving_exists h w brush touch_v touch_s = true →
  valid_touch_exists h w brush touch_v touch_s = true.
Proof using Hv Hs.
  unfold resolving_exists, valid_touch_exists.
  rewrite !jnp_any_true. intros (i & Hi). exists i.
  apply elem_f_or in Hi;
    [|by rewrite length_touch_resolving_solid, length_touch_resolving_void].
  apply elem_f_or;
    [by rewrite length_touch_valid_solid, length_touch_valid_void|].
  destruct Hi as [Hi | Hi];
    [left; by apply touch_resolving_solid_valid
    |right; by apply touch_resolving_void_valid].
Qed.

(** Outside case 1, an iteration that still has a valid touch commits the
    best candidate of one side. *)
Lemma body_fn_select_commits :
  free_touches_exist h w brush touch_v touch_s = false →
  valid_touch_exists h w brush touch_v touch_s = true →
  commits_best_solid arr touch_v touch_s
    (candidates_solid h w brush touch_v touch_s) new
  ∨ commits_best_void arr touch_v touch_s
    (candidates_void h w brush touch_v touch_s) new.
Proof using Harr Hv Hs.
  intros Hfree Hvalid. rewrite body_fn_cases, Hfree.
  apply select_best_commits.
  - rewrite length_candidates_solid; congruence.
  - rewrite length_candidates_void; congruence.
  - intros i Hi. by eapply touch_valid_solid_uncommitted, candidates_solid_valid.
  - intros i Hi. by eapply touch_valid_void_uncommitted, candidates_void_valid.
  - unfold candidates_solid, candidates_void.
    destruct (resolving_exists h w brush touch_v touch_s) eqn:Hres.
    + apply jnp_any_true in Hres as (i & Hi). exists i.
      apply elem_f_or in Hi; [done|].
      by rewrite length_touch_resolving_solid, length_touch_resolving_void.
    + apply jnp_any_true in Hvalid as (i & Hi). exists i.
      apply elem_f_or in Hi; [done|].
      by rewrite length_touch_valid_solid, length_touch_valid_void.
Qed.

Lemma body_fn_length : length new.1 = h * w ∧ length new.2 = h * w.
Proof using Hv Hs.
  rewrite body_fn_cases.
  destruct (free_touches_exist _ _ _ _ _); simpl.
  - split; apply length_f_or_n;
      auto using length_touch_free_void, length_touch_free_solid.
  - unfold select_best. case_bool_decide; simpl; by rewrite length_insert.
Qed.

Lemma body_fn_monotone : subfield touch_v new.1 ∧ subfield touch_s new.2.
Proof using Hv Hs.
  rewrite body_fn_cases.
  destruct (free_touches_exist _ _ _ _ _); simpl.
  - split; apply subfield_f_or_l;
      by rewrite ?length_touch_free_void, ?length_touch_free_solid.
  - unfold select_best. case_bool_decide; simpl;
      auto using subfield_insert, subfield_refl.
Qed.

Lemma body_fn_commits_new :
  valid_touch_exists h w brush touch_v touch_s = true →
  commits_new_touch (touch_v, touch_s) new.
Proof using Harr Hv Hs.
  intros Hvalid.
  destruct (free_touches_exist h w brush touch_v touch_s) eqn:Hfree.
  - rewrite body_fn_cases, Hfree.
    apply jnp_any_true in Hfree as (i & Hi).
    apply elem_f_or in Hi;
      [|by rewrite length_touch_free_solid, length_touch_free_void].
    exists i. simpl. destruct Hi as [Hi | Hi]; [right | left].
    + split.
      * eapply touch_valid_solid_uncommitted. by apply touch_free_solid_valid.
      * apply elem_f_or; [by rewrite length_touch_free_solid | by right].
    + split.
      * eapply touch_valid_void_uncommitted. by apply touch_free_void_valid.
      * apply elem_f_or; [by rewrite length_touch_free_void | by right].
  - destruct (body_fn_select_commits Hfree Hvalid)
      as [(p & _ & Hp & ->) | (p & _ & Hp & ->)];
      exists p; simpl; [right | left]; (split; [done|]);
      apply list_lookup_insert_eq; by eapply lookup_lt_Some.
Qed.

Lemma body_fn_count :
  valid_touch_exists h w brush touch_v touch_s = true →
  count_true touch_v + count_true touch_s < count_true new.1 + count_true new.2.
Proof using Harr Hv Hs.
  intros Hvalid.
  destruct body_fn_length as [Hl1 Hl2].
  destruct body_fn_monotone as [Hm1 Hm2].
  pose proof (count_true_subfield touch_v new.1 ltac:(congruence) Hm1).
  pose proof (count_true_subfield touch_s new.2 ltac:(congruence) Hm2).
  destruct (body_fn_commits_new Hvalid) as (p & [[Hold Hnew] | [Hold Hnew]]);
    simpl in Hold.
  - pose proof (count_true_subfield_lt touch_v new.1 p ltac:(congruence)
                  Hm1 Hold Hnew). lia.
  - pose proof (count_true_subfield_lt touch_s new.2 p ltac:(congruence)
                  Hm2 Hold Hnew). lia.
Qed.

(** With the centre cell of the brush set, a valid touch of one side is
    not committed on the other side. *)
Lemma touch_valid_solid_not_void i :
  brush_centre brush = true →
  touch_valid_solid h w brush touch_v touch_s !! i = Some true →
  touch_v !! i ≠ Some true.
Proof using Hv.
  intros Hc Hvalid Hi. unfold touch_valid_solid in Hvalid.
  apply elem_f_and in Hvalid as [Himp _]. apply elem_f_not in Himp.
  unfold touch_impossible_solid, pixel_existing_void in Himp.
  apply (dilate_jax_extensive h w _ brush Hc Hv) in Hi.
  apply (dilate_jax_extensive h w _ brush Hc) in Hi;
    [congruence | apply length_dilate_jax].
Qed.

Lemma touch_valid_void_not_solid i :
  brush_centre brush = true →
  touch_valid_void h w brush touch_v touch_s !! i = Some true →
  touch_s !! i ≠ Some true.
Proof using Hs.
  intros Hc Hvalid Hi. unfold touch_valid_void in Hvalid.
  apply elem_f_and in Hvalid as [Himp _]. apply elem_f_not in Himp.
  unfold touch_impossible_void, pixel_existing_solid in Himp.
  apply (dilate_jax_extensive h w _ brush Hc Hs) in Hi.
  apply (dilate_jax_extensive h w _ brush Hc) in Hi;
    [congruence | apply length_dilate_jax].
Qed.

(** With the centre cell set, no touch is free for both sides. *)
Lemma touch_free_exclusive i :
  brush_centre brush = true →
  touch_free_solid h w brush touch_v touch_s !! i = Some true →
  touch_free_void h w brush touch_v touch_s !! i ≠ Some true.
Proof using Hs.
  intros Hc Hfs Hfv.
  apply touch_free_solid_valid in Hfs.
  unfold touch_free_void in Hfv. apply elem_f_and in Hfv as [Hfv _].
  apply elem_f_not in Hfv.
  assert (pixel_possible_solid h w brush touch_v touch_s !! i = Some true) as Hpos.
  { unfold pixel_possible_solid. apply dilate_jax_extensive; [done| |].
    - apply length_f_or_n; [done | by apply length_touch_valid_solid].
    - apply elem_f_or; [by rewrite length_touch_valid_solid | by right]. }
  assert (dilate_jax h w
            (f_or (pixel_possible_solid h w brush touch_v touch_s)
                  (pixel_existing_solid h w brush touch_s)) brush !! i
          = Some true) as Hdil.
  { apply dilate_jax_extensive; [done| |].
    - apply length_f_or_n; apply length_dilate_jax.
    - apply elem_f_or; [|by left].
      unfold pixel_possible_solid, pixel_existing_solid.
      by rewrite !length_dilate_jax. }
  congruence.
Qed.

Lemma body_fn_disjoint :
  brush_centre brush = true →
  disjoint_fields touch_v touch_s →
  valid_touch_exists h w brush touch_v touch_s = true →
  disjoint_fields new.1 new.2.
Proof using Harr Hv Hs.
  intros Hc Hdisj Hvalid i [Hi1 Hi2].
  destruct (free_touches_exist h w brush touch_v touch_s) eqn:Hfree.
  - rewrite body_fn_cases, Hfree in Hi1, Hi2. simpl in Hi1, Hi2.
    apply elem_f_or in Hi1; [|by rewrite length_touch_free_void].
    apply elem_f_or in Hi2; [|by rewrite length_touch_free_solid].
    destruct Hi1 as [Hi1 | Hi1], Hi2 as [Hi2 | Hi2].
    + by apply (Hdisj i).
    + by apply touch_free_solid_valid, (touch_valid_solid_not_void i Hc) in Hi2.
    + by apply touch_free_void_valid, (touch_valid_void_not_solid i Hc) in Hi1.
    + by apply (touch_free_exclusive i Hc) in Hi2.
  - destruct (body_fn_select_commits Hfree Hvalid)
      as [(p & (Hp & _) & _ & Hnew) | (p & (Hp & _) & _ & Hnew)];
      rewrite Hnew in Hi1, Hi2; simpl in Hi1, Hi2.
    + apply candidates_solid_valid in Hp.
      destruct (decide (p = i)) as [->|Hne].
      * by apply (touch_valid_solid_not_void i Hc) in Hp.
      * rewrite list_lookup_insert_ne in Hi2 by done. by apply (Hdisj i).
    + apply candidates_void_valid in Hp.
      destruct (decide (p = i)) as [->|Hne].
      * by apply (touch_valid_void_not_solid i Hc) in Hp.
      * rewrite list_lookup_insert_ne in Hi1 by done. by apply (Hdisj i).
Qed.

(** The loop condition fails exactly when every pixel is covered by the
    dilation of one of the committed fields. *)
Lemma cond_fn_false_iff :
  cond_fn h w brush (touch_v, touch_s) = false ↔
  ∀ i, i < h * w →
    dilate_jax h w touch_s brush !! i = Some true
    ∨ dilate_jax h w touch_v brush !! i = Some true.
Proof.
  unfold cond_fn. simpl. rewrite negb_false_iff, jnp_all_true. split.
  - intros Hall i Hi.
    apply elem_f_or; [by rewrite !length_dilate_jax|].
    destruct (lookup_lt_is_Some_2
                (f_or (dilate_jax h w touch_s brush) (dilate_jax h w touch_v brush)) i)
      as (x & Hx).
    { by rewrite length_f_or, length_dilate_jax by by rewrite !length_dilate_jax. }
    by rewrite Hx, (Hall i x Hx).
  - intros Hall i x Hx.
    assert (i < h * w) as Hi.
    { apply lookup_lt_Some in Hx.
      by rewrite length_f_or, length_dilate_jax in Hx
        by by rewrite !length_dilate_jax. }
    apply Hall, elem_f_or in Hi; [congruence | by rewrite !length_dilate_jax].
Qed.
End iteration.

(** ** The loop *)

Lemma while_loop_iter {State} (cond : State → bool) body st k :
  (∀ j, j < k → cond (Nat.iter j body st) = true) →
  cond (Nat.iter k body st) = false →
  while_loop (S k) cond body st = Some (Nat.iter k body st).
Proof.
  revert st. induction k as [|k IH]; intros st Hbefore Hstop.
  - simpl in *. by rewrite Hstop.
  - change (while_loop (S (S k)) cond body st)
      with (if cond st then while_loop (S k) cond body (body st) else Some st).
    rewrite (Hbefore 0 ltac:(lia) : cond st = true).
    rewrite Nat.iter_succ_r. apply IH.
    + intros j Hj. rewrite <-Nat.iter_succ_r. apply Hbefore. lia.
    + by rewrite <-Nat.iter_succ_r.
Qed.

Lemma while_loop_inv {State} (cond : State → bool) body fuel st st' :
  while_loop fuel cond body st = Some st' →
  ∃ k, k < fuel ∧ st' = Nat.iter k body st ∧ cond st' = false
     ∧ ∀ j, j < k → cond (Nat.iter j body st) = true.
Proof.
  revert st. induction fuel as [|fuel IH]; intros st Hrun; [done|].
  simpl in Hrun. destruct (cond st) eqn:Hc.
  - apply IH in Hrun as (k & Hk & -> & Hstop & Hbefore).
    exists (S k). rewrite Nat.iter_succ_r. repeat split; [lia|done|].
    intros [|j] Hj; [done|]. rewrite Nat.iter_succ_r. apply Hbefore. lia.
  - injection Hrun as <-. exists 0. repeat split; [lia|done|]. intros j Hj. lia.
Qed.

Lemma while_loop_diverges {State} (cond : State → bool) body st :
  cond st = true → body st = st → ∀ fuel, while_loop fuel cond body st = None.
Proof.
  intros Hc Hfix fuel. induction fuel as [|fuel IH]; [done|].
  simpl. by rewrite Hc, Hfix.
Qed.

Lemma while_loop_stuck {State} (cond : State → bool) body st k :
  (∀ j, j ≤ k → cond (Nat.iter j body st) = true) →
  body (Nat.iter k body st) = Nat.iter k body st →
  ∀ fuel, while_loop fuel cond body st = None.
Proof.
  revert st. induction k as [|k IH]; intros st Hcond Hfix fuel.
  - apply while_loop_diverges; [apply (Hcond 0); lia | done].
  - destruct fuel as [|fuel]; [done|]. simpl.
    rewrite (Hcond 0 ltac:(lia) : cond st = true).
    apply IH.
    + intros j Hj. rewrite <-Nat.iter_succ_r. apply Hcond. lia.
    + by rewrite <-!Nat.iter_succ_r.
Qed.

Lemma while_loop_fuel_mono {State} (cond : State → bool) body fuel fuel' st st' :
  while_loop fuel cond body st = Some st' → fuel ≤ fuel' →
  while_loop fuel' cond body st = Some st'.
Proof.
  revert fuel' st. induction fuel as [|fuel IH]; intros fuel' st Hrun Hle; [done|].
  destruct fuel' as [|fuel']; [lia|]. simpl in *.
  destruct (cond st); [|done]. apply (IH fuel'); [done|lia].
Qed.

Lemma false_or_all_true (f : nat → bool) n :
  (∃ k, k ≤ n ∧ f k = false) ∨ (∀ j, j ≤ n → f j = true).
Proof.
  induction n as [|n [(k & Hk & Hfk) | Hall]].
  - destruct (f 0) eqn:Hf0.
    + right. intros j Hj. by replace j with 0 by lia.
    + left. exists 0. done.
  - left. exists k. split; [lia|done].
  - destruct (f (S n)) eqn:Hfn.
    + right. intros j Hj. destruct (decide (j = S n)) as [->|]; [done|].
      apply Hall. lia.
    + left. exists (S n). done.
Qed.

Lemma first_false (f : nat → bool) n :
  f n = false → ∃ k, k ≤ n ∧ f k = false ∧ ∀ j, j < k → f j = true.
Proof.
  induction n as [n IH] using lt_wf_ind. intros Hn.
  destruct n as [|n].
  { exists 0. split_and!; [done..|]. intros j Hj. lia. }
  destruct (false_or_all_true f n) as [(j & Hj & Hfj) | Hall].
  - destruct (IH j ltac:(lia) Hfj) as (k & Hk & Hfk & Hbefore).
    exists k. split_and!; [lia|done..].
  - exists (S n). split_and!; [done..|].
    intros j Hj. apply Hall. lia.
Qed.

(** ** The run of the solver from the all-false state *)

Section run.
Variables (h w : nat) (brush : list (list bool)) (arr : list Qc).
Hypothesis Harr : length arr = h * w.

Local Abbreviation state k := (Nat.iter k (body_fn h w brush arr) (init_val arr)).

Lemma init_val_length :
  length (init_val arr).1 = h * w ∧ length (init_val arr).2 = h * w.
Proof using Harr. unfold init_val. simpl. by rewrite !length_fmap. Qed.

Lemma init_val_all_false i :
  (init_val arr).1 !! i ≠ Some true ∧ (init_val arr).2 !! i ≠ Some true.
Proof.
  unfold init_val. simpl. rewrite !list_lookup_fmap.
  destruct (arr !! i); simpl; split; congruence.
Qed.

Lemma state_length k : length (state k).1 = h * w ∧ length (state k).2 = h * w.
Proof using Harr.
  induction k as [|k [IH1 IH2]]; [apply init_val_length|].
  simpl. destruct (state k) as [tv ts]. by apply body_fn_length.
Qed.

Lemma state_count k :
  (∀ j, j < k →
     valid_touch_exists h w brush (state j).1 (state j).2 = true) →
  k ≤ count_true (state k).1 + count_true (state k).2.
Proof using Harr.
  induction k as [|k IH]; intros Hvalid; [lia|].
  specialize (IH ltac:(intros j Hj; apply Hvalid; lia)).
  specialize (Hvalid k ltac:(lia)).
  destruct (state_length k) as [Hl1 Hl2]. simpl.
  destruct (state k) as [tv ts]. simpl in *.
  pose proof (body_fn_count h w brush arr tv ts Harr Hl1 Hl2 Hvalid). lia.
Qed.

Lemma state_count_bound k :
  count_true (state k).1 + count_true (state k).2 ≤ 2 * (h * w).
Proof using Harr.
  destruct (state_length k) as [Hl1 Hl2].
  pose proof (count_true_le (state k).1).
  pose proof (count_true_le (state k).2). lia.
Qed.

(** If every state in which the loop continues still has a valid touch,
    the loop stops within [2 * (h * w)] iterations. *)
Lemma run_terminates :
  (∀ k, (∀ j, j ≤ k → cond_fn h w brush (state j) = true) →
        valid_touch_exists h w brush (state k).1 (state k).2 = true) →
  ∃ k, k ≤ 2 * (h * w)
     ∧ cond_fn h w brush (state k) = false
     ∧ (∀ j, j < k → cond_fn h w brush (state j) = true)
     ∧ while_loop (S k) (cond_fn h w brush) (body_fn h w brush arr) (init_val arr)
       = Some (state k).
Proof using Harr.
  intros Hinv.
  destruct (false_or_all_true (λ k, cond_fn h w brush (state k)) (2 * (h * w)))
    as [(k & Hk & Hstop) | Hall].
  - destruct (first_false (λ k, cond_fn h w brush (state k)) k Hstop)
      as (k' & Hk' & Hstop' & Hbefore).
    exists k'. split; [lia|]. split; [done|]. split; [done|].
    by apply while_loop_iter.
  - exfalso.
    pose proof (state_count_bound (S (2 * (h * w)))) as Hbound.
    assert (S (2 * (h * w)) ≤ count_true (state (S (2 * (h * w)))).1
                              + count_true (state (S (2 * (h * w)))).2) as Hcount.
    { apply state_count. intros j Hj. apply Hinv.
      intros j' Hj'. apply Hall. lia. }
    lia.
Qed.
End run.

(** ** Symmetric brushes: solid and void pixels stay apart *)

Lemma dilate_jax_elem h w image kernel i :
  i < h * w →
  dilate_jax h w image kernel !! i = Some true ↔
  ∃ a b, a < length kernel ∧ b < length (kernel !!! 0)
    ∧ brush_at kernel a b = true
    ∧ pixel_at h w image
        (Z.of_nat (i / w) + Z.of_nat a - Z.of_nat (length kernel / 2))
        (Z.of_nat (i mod w) + Z.of_nat b - Z.of_nat (length (kernel !!! 0) / 2))
      = true.
Proof.
  intros Hi. unfold dilate_jax. rewrite lookup_tabulate2_flat by done. split.
  - intros [= Hex]. apply existsb_exists in Hex as (a & Ha%in_seq & Hex).
    apply existsb_exists in Hex as (b & Hb%in_seq & Hab).
    apply andb_true_iff in Hab as [Hbr Hpx].
    exists a, b. split_and!; [lia|lia|done|done].
  - intros (a & b & Ha & Hb & Hbr & Hpx). f_equal.
    apply existsb_exists. exists a. split; [apply in_seq; lia|].
    apply existsb_exists. exists b. split; [apply in_seq; lia|].
    by rewrite Hbr, Hpx.
Qed.

Lemma pixel_at_true h w (image : field) y x :
  length image = h * w →
  pixel_at h w image y x = true ↔
  ∃ n, n < h * w ∧ y = Z.of_nat (n / w) ∧ x = Z.of_nat (n mod w)
     ∧ image !! n = Some true.
Proof.
  intros Hlen. unfold pixel_at. rewrite andb_true_iff, bool_decide_eq_true. split.
  - intros [[Hy Hx] Hpx]. exists (Z.to_nat y * w + Z.to_nat x).
    assert (Z.to_nat x < w) as Hxw by lia.
    assert (Z.to_nat y < h) as Hyh by lia.
    split_and!.
    + by apply ravel2_lt.
    + rewrite ravel2_div by done. lia.
    + rewrite ravel2_mod by done. lia.
    + rewrite <-Hpx. apply list_lookup_lookup_total_lt.
      rewrite Hlen. by apply ravel2_lt.
  - intros (n & Hn & -> & -> & Hpx).
    destruct (unravel2_lt n h w Hn) as [Hi Hj]. split; [lia|].
    rewrite !Nat2Z.id.
    replace (n / w * w + n mod w) with n by (pose proof (Nat.div_mod_eq n w); lia).
    by apply list_lookup_total_correct.
Qed.

Lemma brush_symmetric_mirror kernel a b :
  brush_symmetric kernel = true →
  a < length kernel → b < length (kernel !!! 0) →
  brush_at kernel a b = true →
  a ≤ 2 * (length kernel / 2)
  ∧ 2 * (length kernel / 2) - a < length kernel
  ∧ b ≤ 2 * (length (kernel !!! 0) / 2)
  ∧ 2 * (length (kernel !!! 0) / 2) - b < length (kernel !!! 0)
  ∧ brush_at kernel (2 * (length kernel / 2) - a)
      (2 * (length (kernel !!! 0) / 2) - b) = true.
Proof.
  unfold brush_symmetric. intros Hsym Ha Hb Hbr.
  rewrite forallb_forall in Hsym.
  specialize (Hsym a ltac:(apply in_seq; lia)).
  rewrite forallb_forall in Hsym.
  specialize (Hsym b ltac:(apply in_seq; lia)).
  rewrite Hbr in Hsym. cbn [implb] in Hsym.
  apply andb_true_iff in Hsym as [Hbounds Hmirror].
  apply bool_decide_eq_true in Hbounds. destruct Hbounds as (? & ? & ? & ?).
  by split_and!.
Qed.

(** With a symmetric brush a touch covers a pixel exactly when a touch at
    that pixel would cover the position of the touch: a dilated field meets
    a field exactly when the first field meets the dilation of the second. *)
Lemma dilate_jax_adjoint h w kernel (X Y : field) :
  brush_symmetric kernel = true →
  length X = h * w → length Y = h * w →
  (∃ i, dilate_jax h w X kernel !! i = Some true ∧ Y !! i = Some true) →
  ∃ n, X !! n = Some true ∧ dilate_jax h w Y kernel !! n = Some true.
Proof.
  intros Hsym HX HY (i & HD & HYi).
  assert (i < h * w) as Hi by (rewrite <-HY; by eapply lookup_lt_Some).
  apply dilate_jax_elem in HD as (a & b & Ha & Hb & Hbr & Hpx); [|done].
  apply pixel_at_true in Hpx as (n & Hn & Hy & Hx & HXn); [|done].
  destruct (brush_symmetric_mirror kernel a b Hsym Ha Hb Hbr)
    as (Ha1 & Ha2 & Hb1 & Hb2 & Hbr').
  exists n. split; [done|].
  apply dilate_jax_elem; [done|].
  exists (2 * (length kernel / 2) - a), (2 * (length (kernel !!! 0) / 2) - b).
  split_and!; [done|done|done|].
  apply pixel_at_true; [done|]. exists i. split_and!; [done|lia|lia|done].
Qed.

Lemma dilate_jax_mono h w kernel (X Y : field) :
  length X = h * w → length Y = h * w →
  subfield X Y → subfield (dilate_jax h w X kernel) (dilate_jax h w Y kernel).
Proof.
  intros HX HY Hsub i HD.
  assert (i < h * w) as Hi.
  { rewrite <-(length_dilate_jax h w X kernel). by eapply lookup_lt_Some. }
  apply dilate_jax_elem in HD as (a & b & Ha & Hb & Hbr & Hpx); [|done].
  apply pixel_at_true in Hpx as (n & Hn & Hy & Hx & HXn); [|done].
  apply dilate_jax_elem; [done|]. exists a, b. split_and!; [done..|].
  apply pixel_at_true; [done|]. exists n. split_and!; [done..|by apply Hsub].
Qed.

Lemma dilate_jax_f_or h w kernel (X Y : field) i :
  length X = h * w → length Y = h * w →
  dilate_jax h w (f_or X Y) kernel !! i = Some true →
  dilate_jax h w X kernel !! i = Some true
  ∨ dilate_jax h w Y kernel !! i = Some true.
Proof.
  intros HX HY HD.
  assert (i < h * w) as Hi.
  { rewrite <-(length_dilate_jax h w (f_or X Y) kernel). by eapply lookup_lt_Some. }
  apply dilate_jax_elem in HD as (a & b & Ha & Hb & Hbr & Hpx); [|done].
  apply pixel_at_true in Hpx as (n & Hn & Hy & Hx & HXn);
    [|by apply length_f_or_n].
  apply elem_f_or in HXn as [HXn|HYn]; [| |congruence].
  - left. apply dilate_jax_elem; [done|]. exists a, b. split_and!; [done..|].
    apply pixel_at_true; [done|]. by exists n.
  - right. apply dilate_jax_elem; [done|]. exists a, b. split_and!; [done..|].
    apply pixel_at_true; [done|]. by exists n.
Qed.

Section symmetric_brush.
Variables (h w : nat) (brush : list (list bool)) (arr : list Qc).
Hypothesis Harr : length arr = h * w.
Hypothesis Hsym : brush_symmetric brush = true.

Local Abbreviation dilate f := (dilate_jax h w f brush).
Local Abbreviation state k := (Nat.iter k (body_fn h w brush arr) (init_val arr)).

Lemma valid_solid_apart touch_v touch_s n :
  touch_valid_solid h w brush touch_v touch_s !! n = Some true →
  dilate (dilate touch_v) !! n ≠ Some true.
Proof.
  unfold touch_valid_solid, touch_impossible_solid, pixel_existing_void.
  rewrite elem_f_and, !elem_f_not. intros [Hn _]. congruence.
Qed.

Lemma valid_void_apart touch_v touch_s n :
  touch_valid_void h w brush touch_v touch_s !! n = Some true →
  dilate (dilate touch_s) !! n ≠ Some true.
Proof.
  unfold touch_valid_void, touch_impossible_void, pixel_existing_solid.
  rewrite elem_f_and, !elem_f_not. intros [Hn _]. congruence.
Qed.

(** One iteration keeps the solid pixels and the void pixels apart. *)
Lemma body_fn_pixels_disjoint touch_v touch_s :
  length touch_v = h * w → length touch_s = h * w →
  disjoint_fields (dilate touch_s) (dilate touch_v) →
  valid_touch_exists h w brush touch_v touch_s = true →
  disjoint_fields (dilate (body_fn h w brush arr (touch_v, touch_s)).2)
                  (dilate (body_fn h w brush arr (touch_v, touch_s)).1).
Proof using Harr Hsym.
  intros Hv Hs Hdisj Hvalid.
  pose proof (length_touch_free_solid h w brush touch_v touch_s Hs) as Hlfs.
  pose proof (length_touch_free_void h w brush touch_v touch_s Hv) as Hlfv.
  pose proof (length_touch_valid_void h w brush touch_v touch_s Hv) as Hlvv.
  pose proof (length_touch_valid_solid h w brush touch_v touch_s Hs) as Hlvs.
  destruct (free_touches_exist h w brush touch_v touch_s) eqn:Hfree.
  - rewrite body_fn_cases, Hfree. simpl. intros i [HS HV].
    apply dilate_jax_f_or in HS as [HS|HS]; [| |done..];
      apply dilate_jax_f_or in HV as [HV|HV]; try done.
    + by apply (Hdisj i).
    + destruct (dilate_jax_adjoint h w brush
                  (touch_free_void h w brush touch_v touch_s) (dilate touch_s))
        as (n & Hn & HDn); [done|done|apply length_dilate_jax|by exists i|].
      by apply touch_free_void_valid, valid_void_apart in Hn.
    + destruct (dilate_jax_adjoint h w brush
                  (touch_free_solid h w brush touch_v touch_s) (dilate touch_v))
        as (n & Hn & HDn); [done|done|apply length_dilate_jax|by exists i|].
      by apply touch_free_solid_valid, valid_solid_apart in Hn.
    + destruct (dilate_jax_adjoint h w brush
                  (touch_free_solid h w brush touch_v touch_s)
                  (dilate (touch_free_void h w brush touch_v touch_s)))
        as (n & Hn & HDn); [done|done|apply length_dilate_jax|by exists i|].
      unfold touch_free_solid in Hn. apply elem_f_and in Hn as [Hn _].
      apply elem_f_not in Hn.
      assert (dilate (f_or (pixel_possible_void h w brush touch_v touch_s)
                           (pixel_existing_void h w brush touch_v)) !! n
              = Some true) as Hcover; [|congruence].
      revert HDn. apply dilate_jax_mono;
        [apply length_dilate_jax
        |apply length_f_or_n; apply length_dilate_jax|].
      intros m Hm. apply elem_f_or.
      { unfold pixel_possible_void, pixel_existing_void.
        by rewrite !length_dilate_jax. }
      left.
      revert Hm. unfold pixel_possible_void.
      apply dilate_jax_mono; [done|by apply length_f_or_n|].
      intros q Hq. apply elem_f_or; [congruence|]. right.
      by apply touch_free_void_valid.
  - destruct (body_fn_select_commits h w brush arr touch_v touch_s Harr Hv Hs
                Hfree Hvalid)
      as [(p & (Hp & _) & Hold & ->)|(p & (Hp & _) & Hold & ->)]; simpl.
    + intros i [HS HV].
      destruct (dilate_jax_adjoint h w brush (<[p:=true]> touch_s) (dilate touch_v))
        as (n & Hn & HDn);
        [done|by rewrite length_insert|apply length_dilate_jax|by exists i|].
      destruct (decide (p = n)) as [->|Hne].
      * by apply candidates_solid_valid, valid_solid_apart in Hp.
      * rewrite list_lookup_insert_ne in Hn by done.
        destruct (dilate_jax_adjoint h w brush (dilate touch_v) touch_s)
          as (m & Hm & HDm); [done|apply length_dilate_jax|done|by exists n|].
        by apply (Hdisj m).
    + intros i [HS HV].
      destruct (dilate_jax_adjoint h w brush (<[p:=true]> touch_v) (dilate touch_s))
        as (n & Hn & HDn);
        [done|by rewrite length_insert|apply length_dilate_jax|by exists i|].
      destruct (decide (p = n)) as [->|Hne].
      * by apply candidates_void_valid, valid_void_apart in Hp.
      * rewrite list_lookup_insert_ne in Hn by done.
        destruct (dilate_jax_adjoint h w brush (dilate touch_s) touch_v)
          as (m & Hm & HDm); [done|apply length_dilate_jax|done|by exists n|].
        by apply (Hdisj m).
Qed.

Lemma dilate_init_val_false i :
  dilate (init_val arr).2 !! i ≠ Some true.
Proof using Harr.
  intros HD.
  assert (i < h * w) as Hi.
  { rewrite <-(length_dilate_jax h w (init_val arr).2 brush). by eapply lookup_lt_Some. }
  apply dilate_jax_elem in HD as (a & b & _ & _ & _ & Hpx); [|done].
  apply pixel_at_true in Hpx as (n & _ & _ & _ & Hn);
    [|by apply init_val_length].
  by destruct (init_val_all_false arr n) as [_ Hfalse].
Qed.

Lemma state_pixels_disjoint k :
  (∀ j, j < k → valid_touch_exists h w brush (state j).1 (state j).2 = true) →
  disjoint_fields (dilate (state k).2) (dilate (state k).1).
Proof using Harr Hsym.
  induction k as [|k IH]; intros Hvalid.
  - intros i [HS _]. by apply dilate_init_val_false in HS.
  - specialize (IH ltac:(intros j Hj; apply Hvalid; lia)).
    specialize (Hvalid k ltac:(lia)).
    pose proof (state_length h w brush arr Harr k) as [Hl1 Hl2].
    rewrite Nat.iter_succ. destruct (state k) as [tv ts].
    by apply body_fn_pixels_disjoint.
Qed.

End symmetric_brush.

(** *** Required pixels stay on one side *)

Section symmetric_step.
Variables (h w : nat) (brush : list (list bool)).
Hypothesis Hsym : brush_symmetric brush = true.

Local Abbreviation dilate f := (dilate_jax h w f brush).

Lemma dilate_all_false (X : field) :
  length X = h * w → all_false X → all_false (dilate X).
Proof.
  intros HX Hnone i HD.
  assert (i < h * w) as Hi.
  { rewrite <-(length_dilate_jax h w X brush). by eapply lookup_lt_Some. }
  apply dilate_jax_elem in HD as (a & b & _ & _ & _ & Hpx); [|done].
  apply pixel_at_true in Hpx as (n & _ & _ & _ & Hn); [|done].
  by apply (Hnone n).
Qed.

Lemma field_not_true (a : field) i :
  i < length a → a !! i ≠ Some true → a !! i = Some false.
Proof. intros Hi Hn. by destruct (lookup_field_cases a i Hi). Qed.

Lemma length_pixel_possible_solid touch_v touch_s :
  length (pixel_possible_solid h w brush touch_v touch_s) = h * w.
Proof. apply length_dilate_jax. Qed.

Lemma length_pixel_possible_void touch_v touch_s :
  length (pixel_possible_void h w brush touch_v touch_s) = h * w.
Proof. apply length_dilate_jax. Qed.

(** The possible pixels of a side do not shrink when touches are added to
    that side and every valid touch of the side stays clear of the other
    side's pixels. *)
Lemma pixel_possible_solid_mono touch_v touch_s touch_v' touch_s' :
  length touch_s = h * w → length touch_s' = h * w →
  subfield touch_s touch_s' →
  (∀ n, touch_valid_solid h w brush touch_v touch_s !! n = Some true →
        dilate (dilate touch_v') !! n ≠ Some true) →
  subfield (pixel_possible_solid h w brush touch_v touch_s)
           (pixel_possible_solid h w brush touch_v' touch_s').
Proof.
  intros Hs Hs' Hsub Hclear. unfold pixel_possible_solid.
  pose proof (length_touch_valid_solid h w brush touch_v touch_s Hs) as Hlv.
  pose proof (length_touch_valid_solid h w brush touch_v' touch_s' Hs') as Hlv'.
  apply dilate_jax_mono; [by apply length_f_or_n..|].
  intros n Hn. apply elem_f_or in Hn; [|congruence].
  apply elem_f_or; [congruence|].
  destruct Hn as [Hn|Hn]; [left; by apply Hsub|].
  assert (n < h * w) as Hlt by (rewrite <-Hlv; by eapply lookup_lt_Some).
  destruct (lookup_field_cases touch_s' n) as [Hc|Hc]; [lia|by left|].
  right. unfold touch_valid_solid, touch_impossible_solid, pixel_existing_void.
  rewrite elem_f_and, !elem_f_not. split; [|done].
  apply field_not_true; [by rewrite length_dilate_jax|by apply Hclear].
Qed.

Lemma pixel_possible_void_mono touch_v touch_s touch_v' touch_s' :
  length touch_v = h * w → length touch_v' = h * w →
  subfield touch_v touch_v' →
  (∀ n, touch_valid_void h w brush touch_v touch_s !! n = Some true →
        dilate (dilate touch_s') !! n ≠ Some true) →
  subfield (pixel_possible_void h w brush touch_v touch_s)
           (pixel_possible_void h w brush touch_v' touch_s').
Proof.
  intros Hv Hv' Hsub Hclear. unfold pixel_possible_void.
  pose proof (length_touch_valid_void h w brush touch_v touch_s Hv) as Hlv.
  pose proof (length_touch_valid_void h w brush touch_v' touch_s' Hv') as Hlv'.
  apply dilate_jax_mono; [by apply length_f_or_n..|].
  intros n Hn. apply elem_f_or in Hn; [|congruence].
  apply elem_f_or; [congruence|].
  destruct Hn as [Hn|Hn]; [left; by apply Hsub|].
  assert (n < h * w) as Hlt by (rewrite <-Hlv; by eapply lookup_lt_Some).
  destruct (lookup_field_cases touch_v' n) as [Hc|Hc]; [lia|by left|].
  right. unfold touch_valid_void, touch_impossible_void, pixel_existing_solid.
  rewrite elem_f_and, !elem_f_not. split; [|done].
  apply field_not_true; [by rewrite length_dilate_jax|by apply Hclear].
Qed.

(** Required pixels do not appear on a side whose existing and possible
    pixels do not shrink. *)
Lemma required_void_antitone touch_v touch_s touch_v' touch_s' :
  subfield (dilate touch_v) (dilate touch_v') →
  subfield (pixel_possible_solid h w brush touch_v touch_s)
           (pixel_possible_solid h w brush touch_v' touch_s') →
  all_false (pixel_required_void h w brush touch_v touch_s) →
  all_false (pixel_required_void h w brush touch_v' touch_s').
Proof.
  intros Hex Hpos Hnone i Hi. apply (Hnone i).
  unfold pixel_required_void, pixel_existing_void in *.
  apply elem_f_and in Hi as [He Hp]. apply elem_f_not in He, Hp.
  assert (i < h * w) as Hlt.
  { rewrite <-(length_dilate_jax h w touch_v' brush). by eapply lookup_lt_Some. }
  apply elem_f_and. rewrite !elem_f_not. split.
  - apply field_not_true; [by rewrite length_dilate_jax|].
    intros Htrue. apply Hex in Htrue. congruence.
  - apply field_not_true; [by rewrite length_pixel_possible_solid|].
    intros Htrue. apply Hpos in Htrue. congruence.
Qed.

Lemma required_solid_antitone touch_v touch_s touch_v' touch_s' :
  subfield (dilate touch_s) (dilate touch_s') →
  subfield (pixel_possible_void h w brush touch_v touch_s)
           (pixel_possible_void h w brush touch_v' touch_s') →
  all_false (pixel_required_solid h w brush touch_v touch_s) →
  all_false (pixel_required_solid h w brush touch_v' touch_s').
Proof.
  intros Hex Hpos Hnone i Hi. apply (Hnone i).
  unfold pixel_required_solid, pixel_existing_solid in *.
  apply elem_f_and in Hi as [He Hp]. apply elem_f_not in He, Hp.
  assert (i < h * w) as Hlt.
  { rewrite <-(length_dilate_jax h w touch_s' brush). by eapply lookup_lt_Some. }
  apply elem_f_and. rewrite !elem_f_not. split.
  - apply field_not_true; [by rewrite length_dilate_jax|].
    intros Htrue. apply Hex in Htrue. congruence.
  - apply field_not_true; [by rewrite length_pixel_possible_void|].
    intros Htrue. apply Hpos in Htrue. congruence.
Qed.

(** A valid touch of one side stays clear of the pixels that the free
    touches of the other side add. *)
Lemma valid_solid_clear_of_free_void touch_v touch_s n :
  length touch_v = h * w → length touch_s = h * w →
  touch_valid_solid h w brush touch_v touch_s !! n = Some true →
  dilate (dilate (f_or touch_v (touch_free_void h w brush touch_v touch_s))) !! n
  ≠ Some true.
Proof using Hsym.
  intros Hv Hs Hn HD.
  pose proof (length_touch_free_void h w brush touch_v touch_s Hv) as Hlf.
  pose proof (length_touch_valid_solid h w brush touch_v touch_s Hs) as Hlv.
  destruct (dilate_jax_adjoint h w brush
              (dilate (f_or touch_v (touch_free_void h w brush touch_v touch_s)))
              (touch_valid_solid h w brush touch_v touch_s))
    as (m & Hm & HDm); [done|apply length_dilate_jax|done|by exists n|].
  apply dilate_jax_f_or in Hm as [Hm|Hm]; [| |done..].
  - destruct (dilate_jax_adjoint h w brush
                (touch_valid_solid h w brush touch_v touch_s) (dilate touch_v))
      as (q & Hq & HDq); [done|done|apply length_dilate_jax|by exists m|].
    by apply valid_solid_apart in Hq.
  - destruct (dilate_jax_adjoint h w brush
                (touch_free_void h w brush touch_v touch_s)
                (dilate (touch_valid_solid h w brush touch_v touch_s)))
      as (f & Hf & HDf); [done|done|apply length_dilate_jax|by exists m|].
    unfold touch_free_void in Hf. apply elem_f_and in Hf as [Hf _].
    apply elem_f_not in Hf.
    assert (dilate (f_or (pixel_possible_solid h w brush touch_v touch_s)
                         (pixel_existing_solid h w brush touch_s)) !! f
            = Some true) as Hcover; [|congruence].
    revert HDf. apply dilate_jax_mono;
      [apply length_dilate_jax
      |apply length_f_or_n; apply length_dilate_jax|].
    intros q Hq. apply elem_f_or.
    { unfold pixel_possible_solid, pixel_existing_solid.
      by rewrite !length_dilate_jax. }
    left. revert Hq. unfold pixel_possible_solid.
    apply dilate_jax_mono; [done|by apply length_f_or_n|].
    intros q' Hq'. apply elem_f_or; [congruence|]. by right.
Qed.

Lemma valid_void_clear_of_free_solid touch_v touch_s n :
  length touch_v = h * w → length touch_s = h * w →
  touch_valid_void h w brush touch_v touch_s !! n = Some true →
  dilate (dilate (f_or touch_s (touch_free_solid h w brush touch_v touch_s))) !! n
  ≠ Some true.
Proof using Hsym.
  intros Hv Hs Hn HD.
  pose proof (length_touch_free_solid h w brush touch_v touch_s Hs) as Hlf.
  pose proof (length_touch_valid_void h w brush touch_v touch_s Hv) as Hlv.
  destruct (dilate_jax_adjoint h w brush
              (dilate (f_or touch_s (touch_free_solid h w brush touch_v touch_s)))
              (touch_valid_void h w brush touch_v touch_s))
    as (m & Hm & HDm); [done|apply length_dilate_jax|done|by exists n|].
  apply dilate_jax_f_or in Hm as [Hm|Hm]; [| |done..].
  - destruct (dilate_jax_adjoint h w brush
                (touch_valid_void h w brush touch_v touch_s) (dilate touch_s))
      as (q & Hq & HDq); [done|done|apply length_dilate_jax|by exists m|].
    by apply valid_void_apart in Hq.
  - destruct (dilate_jax_adjoint h w brush
                (touch_free_solid h w brush touch_v touch_s)
                (dilate (touch_valid_void h w brush touch_v touch_s)))
      as (f & Hf & HDf); [done|done|apply length_dilate_jax|by exists m|].
    unfold touch_free_solid in Hf. apply elem_f_and in Hf as [Hf _].
    apply elem_f_not in Hf.
    assert (dilate (f_or (pixel_possible_void h w brush touch_v touch_s)
                         (pixel_existing_void h w brush touch_v)) !! f
            = Some true) as Hcover; [|congruence].
    revert HDf. apply dilate_jax_mono;
      [apply length_dilate_jax
      |apply length_f_or_n; apply length_dilate_jax|].
    intros q Hq. apply elem_f_or.
    { unfold pixel_possible_void, pixel_existing_void.
      by rewrite !length_dilate_jax. }
    left. revert Hq. unfold pixel_possible_void.
    apply dilate_jax_mono; [done|by apply length_f_or_n|].
    intros q' Hq'. apply elem_f_or; [congruence|]. by right.
Qed.

(** Case 1 adds required pixels on neither side. *)
Lemma free_touches_keep_one_sided touch_v touch_s :
  length touch_v = h * w → length touch_s = h * w →
  required_one_sided h w brush touch_v touch_s →
  required_one_sided h w brush
    (f_or touch_v (touch_free_void h w brush touch_v touch_s))
    (f_or touch_s (touch_free_solid h w brush touch_v touch_s)).
Proof using Hsym.
  intros Hv Hs Hone.
  pose proof (length_touch_free_solid h w brush touch_v touch_s Hs) as Hlfs.
  pose proof (length_touch_free_void h w brush touch_v touch_s Hv) as Hlfv.
  assert (subfield touch_v (f_or touch_v (touch_free_void h w brush touch_v touch_s)))
    as Hsubv by (apply subfield_f_or_l; congruence).
  assert (subfield touch_s (f_or touch_s (touch_free_solid h w brush touch_v touch_s)))
    as Hsubs by (apply subfield_f_or_l; congruence).
  destruct Hone as [Hone|Hone]; [left|right].
  - revert Hone. apply required_solid_antitone.
    + apply dilate_jax_mono; [done|by apply length_f_or_n|done].
    + apply pixel_possible_void_mono; [done|by apply length_f_or_n|done|].
      intros n Hn. by apply valid_void_clear_of_free_solid.
  - revert Hone. apply required_void_antitone.
    + apply dilate_jax_mono; [done|by apply length_f_or_n|done].
    + apply pixel_possible_solid_mono; [done|by apply length_f_or_n|done|].
      intros n Hn. by apply valid_solid_clear_of_free_void.
Qed.

(** Committing a valid touch of one side adds no required pixel of the
    other side. *)
Lemma solid_commit_keeps_required_void touch_v touch_s p :
  length touch_v = h * w → length touch_s = h * w →
  touch_valid_solid h w brush touch_v touch_s !! p = Some true →
  all_false (pixel_required_void h w brush touch_v touch_s) →
  all_false (pixel_required_void h w brush touch_v (<[p := true]> touch_s)).
Proof using Hsym.
  intros Hv Hs Hp. apply required_void_antitone; [apply subfield_refl|].
  apply pixel_possible_solid_mono;
    [done|by rewrite length_insert|apply subfield_insert|].
  intros n Hn. by eapply valid_solid_apart.
Qed.

Lemma void_commit_keeps_required_solid touch_v touch_s p :
  length touch_v = h * w → length touch_s = h * w →
  touch_valid_void h w brush touch_v touch_s !! p = Some true →
  all_false (pixel_required_solid h w brush touch_v touch_s) →
  all_false (pixel_required_solid h w brush (<[p := true]> touch_v) touch_s).
Proof using Hsym.
  intros Hv Hs Hp. apply required_solid_antitone; [apply subfield_refl|].
  apply pixel_possible_void_mono;
    [done|by rewrite length_insert|apply subfield_insert|].
  intros n Hn. by eapply valid_void_apart.
Qed.

(** A required pixel that no side's resolving touch covers does not exist
    when pixels are required on one side at most. *)
Lemma no_resolving_no_required touch_v touch_s :
  length touch_v = h * w → length touch_s = h * w →
  required_one_sided h w brush touch_v touch_s →
  resolving_exists h w brush touch_v touch_s = false →
  all_false (pixel_required_solid h w brush touch_v touch_s)
  ∧ all_false (pixel_required_void h w brush touch_v touch_s).
Proof using Hsym.
  intros Hv Hs Hone Hres.
  pose proof (length_touch_valid_solid h w brush touch_v touch_s Hs) as Hlvs.
  pose proof (length_touch_valid_void h w brush touch_v touch_s Hv) as Hlvv.
  pose proof (length_touch_resolving_solid h w brush touch_v touch_s Hs) as Hlrs.
  pose proof (length_touch_resolving_void h w brush touch_v touch_s Hv) as Hlrv.
  unfold resolving_exists in Hres. rewrite jnp_any_false in Hres.
  assert (all_false (pixel_required_void h w brush touch_v touch_s) →
          all_false (pixel_required_solid h w brush touch_v touch_s)) as Hvs.
  { intros Hnone r Hr.
    pose proof Hr as Hr'. unfold pixel_required_solid in Hr'.
    apply elem_f_and in Hr' as [Hes Hpv]. apply elem_f_not in Hes, Hpv.
    assert (r < h * w) as Hlt.
    { apply lookup_lt_Some in Hes. unfold pixel_existing_solid in Hes.
      by rewrite length_dilate_jax in Hes. }
    destruct (lookup_field_cases (dilate touch_v) r) as [Hev|Hev];
      [by rewrite length_dilate_jax| |].
    - assert (pixel_possible_void h w brush touch_v touch_s !! r = Some true);
        [|congruence].
      revert Hev. unfold pixel_possible_void.
      apply dilate_jax_mono; [done|by apply length_f_or_n|].
      apply subfield_f_or_l. congruence.
    - destruct (lookup_field_cases (pixel_possible_solid h w brush touch_v touch_s) r)
        as [Hps|Hps]; [by rewrite length_pixel_possible_solid| |].
      + unfold pixel_possible_solid in Hps.
        apply dilate_jax_f_or in Hps as [Hps|Hps]; [| |done..].
        { unfold pixel_existing_solid in Hes. congruence. }
        destruct (dilate_jax_adjoint h w brush
                    (touch_valid_solid h w brush touch_v touch_s)
                    (pixel_required_solid h w brush touch_v touch_s))
          as (n & Hn & HDn); [done|done| |by exists r|].
        { unfold pixel_required_solid. field_len. }
        apply (Hres n). apply elem_f_or; [congruence|]. left.
        unfold touch_resolving_solid. by apply elem_f_and.
      + apply (Hnone r). unfold pixel_required_void.
        apply elem_f_and. by rewrite !elem_f_not. }
  assert (all_false (pixel_required_solid h w brush touch_v touch_s) →
          all_false (pixel_required_void h w brush touch_v touch_s)) as Hsv.
  { intros Hnone r Hr.
    pose proof Hr as Hr'. unfold pixel_required_void in Hr'.
    apply elem_f_and in Hr' as [Hev Hps]. apply elem_f_not in Hev, Hps.
    assert (r < h * w) as Hlt.
    { apply lookup_lt_Some in Hev. unfold pixel_existing_void in Hev.
      by rewrite length_dilate_jax in Hev. }
    destruct (lookup_field_cases (dilate touch_s) r) as [Hes|Hes];
      [by rewrite length_dilate_jax| |].
    - assert (pixel_possible_solid h w brush touch_v touch_s !! r = Some true);
        [|congruence].
      revert Hes. unfold pixel_possible_solid.
      apply dilate_jax_mono; [done|by apply length_f_or_n|].
      apply subfield_f_or_l. congruence.
    - destruct (lookup_field_cases (pixel_possible_void h w brush touch_v touch_s) r)
        as [Hpv|Hpv]; [by rewrite length_pixel_possible_void| |].
      + unfold pixel_possible_void in Hpv.
        apply dilate_jax_f_or in Hpv as [Hpv|Hpv]; [| |done..].
        { unfold pixel_existing_void in Hev. congruence. }
        destruct (dilate_jax_adjoint h w brush
                    (touch_valid_void h w brush touch_v touch_s)
                    (pixel_required_void h w brush touch_v touch_s))
          as (n & Hn & HDn); [done|done| |by exists r|].
        { unfold pixel_required_void. field_len. }
        apply (Hres n). apply elem_f_or; [congruence|]. right.
        unfold touch_resolving_void. by apply elem_f_and.
      + apply (Hnone r). unfold pixel_required_solid.
        apply elem_f_and. by rewrite !elem_f_not. }
  destruct Hone; auto.
Qed.

(** A resolving touch covers a required pixel. *)
Lemma resolving_solid_required touch_v touch_s p :
  length touch_v = h * w → length touch_s = h * w →
  touch_resolving_solid h w brush touch_v touch_s !! p = Some true →
  ¬ all_false (pixel_required_solid h w brush touch_v touch_s).
Proof.
  intros Hv Hs Hp Hnone. unfold touch_resolving_solid in Hp.
  apply elem_f_and in Hp as [Hp _]. revert Hp. apply dilate_all_false; [|done].
  unfold pixel_required_solid, pixel_existing_solid. field_len.
Qed.

Lemma resolving_void_required touch_v touch_s p :
  length touch_v = h * w → length touch_s = h * w →
  touch_resolving_void h w brush touch_v touch_s !! p = Some true →
  ¬ all_false (pixel_required_void h w brush touch_v touch_s).
Proof.
  intros Hv Hs Hp Hnone. unfold touch_resolving_void in Hp.
  apply elem_f_and in Hp as [Hp _]. revert Hp. apply dilate_all_false; [|done].
  unfold pixel_required_void, pixel_existing_void. field_len.
Qed.

(** An iteration that has a valid touch to commit keeps the required pixels
    on one side. *)
Lemma body_fn_keeps_one_sided arr touch_v touch_s :
  length arr = h * w → length touch_v = h * w → length touch_s = h * w →
  required_one_sided h w brush touch_v touch_s →
  valid_touch_exists h w brush touch_v touch_s = true →
  required_one_sided h w brush
    (body_fn h w brush arr (touch_v, touch_s)).1
    (body_fn h w brush arr (touch_v, touch_s)).2.
Proof using Hsym.
  intros Harr Hv Hs Hone Hvalid.
  destruct (free_touches_exist h w brush touch_v touch_s) eqn:Hfree.
  - rewrite body_fn_cases, Hfree. simpl. by apply free_touches_keep_one_sided.
  - destruct (body_fn_select_commits h w brush arr touch_v touch_s Harr Hv Hs
                Hfree Hvalid)
      as [(p & (Hp & _) & _ & ->)|(p & (Hp & _) & _ & ->)]; simpl.
    + right. apply solid_commit_keeps_required_void;
        [done|done|by apply candidates_solid_valid|].
      unfold candidates_solid in Hp.
      destruct (resolving_exists h w brush touch_v touch_s) eqn:Hres.
      * destruct Hone as [Hone|Hone]; [|done].
        by apply resolving_solid_required in Hp.
      * by destruct (no_resolving_no_required touch_v touch_s Hv Hs Hone Hres).
    + left. apply void_commit_keeps_required_solid;
        [done|done|by apply candidates_void_valid|].
      unfold candidates_void in Hp.
      destruct (resolving_exists h w brush touch_v touch_s) eqn:Hres.
      * destruct Hone as [Hone|Hone]; [done|].
        by apply resolving_void_required in Hp.
      * by destruct (no_resolving_no_required touch_v touch_s Hv Hs Hone Hres).
Qed.

Lemma jnp_all_false (a : field) : jnp_all a = false → ∃ i, a !! i = Some false.
Proof.
  unfold jnp_all. induction a as [|[] a IH]; simpl; [done| |].
  - intros (i & Hi)%IH. by exists (S i).
  - intros _. by exists 0.
Qed.

(** While some pixel is uncovered and pixels are required on one side at
    most, a valid touch exists. *)
Lemma one_sided_valid_touch touch_v touch_s :
  length touch_v = h * w → length touch_s = h * w →
  required_one_sided h w brush touch_v touch_s →
  cond_fn h w brush (touch_v, touch_s) = true →
  valid_touch_exists h w brush touch_v touch_s = true.
Proof using Hsym.
  intros Hv Hs Hone Hcond.
  destruct (free_touches_exist h w brush touch_v touch_s) eqn:Hfree;
    [by apply free_touch_valid|].
  destruct (resolving_exists h w brush touch_v touch_s) eqn:Hres;
    [by apply resolving_touch_valid|].
  destruct (no_resolving_no_required touch_v touch_s Hv Hs Hone Hres) as [_ Hnv].
  pose proof (length_touch_valid_solid h w brush touch_v touch_s Hs) as Hlvs.
  pose proof (length_touch_valid_void h w brush touch_v touch_s Hv) as Hlvv.
  unfold cond_fn in Hcond. simpl in Hcond.
  apply negb_true_iff, jnp_all_false in Hcond as (i & Hi).
  apply lookup_f_or_inv in Hi as (x & y & Hes & Hev & Hxy).
  symmetry in Hxy. apply orb_false_iff in Hxy as [-> ->].
  assert (i < h * w) as Hlt.
  { apply lookup_lt_Some in Hes. by rewrite length_dilate_jax in Hes. }
  destruct (lookup_field_cases (pixel_possible_solid h w brush touch_v touch_s) i)
    as [Hps|Hps]; [by rewrite length_pixel_possible_solid| |].
  - unfold pixel_possible_solid in Hps.
    apply dilate_jax_f_or in Hps as [Hps|Hps]; [congruence| |done..].
    apply dilate_jax_elem in Hps as (a & b & _ & _ & _ & Hpx); [|done].
    apply pixel_at_true in Hpx as (n & _ & _ & _ & Hn); [|done].
    unfold valid_touch_exists. apply jnp_any_true. exists n.
    apply elem_f_or; [congruence|by left].
  - destruct (Hnv i). unfold pixel_required_void, pixel_existing_void.
    apply elem_f_and. by rewrite !elem_f_not.
Qed.

(** Before the first iteration no pixel is required, provided the brush
    covers the position it is applied to. *)
Lemma init_val_one_sided arr :
  length arr = h * w → brush_centre brush = true →
  required_one_sided h w brush (init_val arr).1 (init_val arr).2.
Proof.
  intros Harr Hc. right. intros i Hi.
  destruct (init_val_length h w arr Harr) as [Hl1 Hl2].
  unfold pixel_required_void in Hi. apply elem_f_and in Hi as [_ Hp].
  apply elem_f_not in Hp.
  assert (i < h * w) as Hlt.
  { apply lookup_lt_Some in Hp. by rewrite length_pixel_possible_solid in Hp. }
  assert (pixel_possible_solid h w brush (init_val arr).1 (init_val arr).2 !! i
          = Some true); [|congruence].
  pose proof (length_touch_valid_solid h w brush (init_val arr).1 _ Hl2) as Hlvs.
  unfold pixel_possible_solid.
  apply dilate_jax_extensive; [done|by apply length_f_or_n|].
  apply elem_f_or; [congruence|]. right.
  unfold touch_valid_solid, touch_impossible_solid, pixel_existing_void.
  rewrite elem_f_and, !elem_f_not. split.
  - apply field_not_true; [by rewrite length_dilate_jax|].
    apply dilate_all_false; [apply length_dilate_jax|].
    apply dilate_all_false; [done|].
    intros n. apply init_val_all_false.
  - apply field_not_true; [lia|]. apply init_val_all_false.
Qed.
End symmetric_step.

(** *** The run with a symmetric brush whose centre cell is set *)

Section symmetric_run.
Variables (h w : nat) (brush : list (list bool)) (arr : list Qc).
Hypothesis Harr : length arr = h * w.
Hypothesis Hsym : brush_symmetric brush = true.
Hypothesis Hcentre : brush_centre brush = true.

Local Abbreviation state k := (Nat.iter k (body_fn h w brush arr) (init_val arr)).

Lemma state_one_sided k :
  (∀ j, j < k → cond_fn h w brush (state j) = true) →
  required_one_sided h w brush (state k).1 (state k).2.
Proof using Harr Hsym Hcentre.
  induction k as [|k IH]; intros Hcond; [by apply init_val_one_sided|].
  specialize (IH ltac:(intros j Hj; apply Hcond; lia)).
  specialize (Hcond k ltac:(lia)).
  pose proof (state_length h w brush arr Harr k) as [Hl1 Hl2].
  rewrite Nat.iter_succ. destruct (state k) as [tv ts].
  apply body_fn_keeps_one_sided; [done..|].
  by apply one_sided_valid_touch.
Qed.

(** Every state at which the loop continues has a valid touch. *)
Lemma state_valid_touch k :
  (∀ j, j ≤ k → cond_fn h w brush (state j) = true) →
  valid_touch_exists h w brush (state k).1 (state k).2 = true.
Proof using Harr Hsym Hcentre.
  intros Hcond.
  pose proof (state_one_sided k ltac:(intros j Hj; apply Hcond; lia)) as Hone.
  specialize (Hcond k ltac:(lia)).
  pose proof (state_length h w brush arr Harr k) as [Hl1 Hl2].
  destruct (state k) as [tv ts]. by apply one_sided_valid_touch.
Qed.

Lemma symmetric_run_terminates :
  ∃ k, k ≤ 2 * (h * w)
     ∧ cond_fn h w brush (state k) = false
     ∧ (∀ j, j < k → cond_fn h w brush (state j) = true)
     ∧ while_loop (S k) (cond_fn h w brush) (body_fn h w brush arr) (init_val arr)
       = Some (state k).
Proof using Harr Hsym Hcentre.
  apply run_terminates; [done|]. apply state_valid_touch.
Qed.
End symmetric_run.

(** ** Invariants of the committed fields *)

Lemma state_disjoint h w brush arr k :
  length arr = h * w → brush_centre brush = true →
  let state k := Nat.iter k (body_fn h w brush arr) (init_val arr) in
  (∀ j, j < k → valid_touch_exists h w brush (state j).1 (state j).2 = true) →
  disjoint_fields (state k).1 (state k).2.
Proof.
  intros Harr Hc state. induction k as [|k IH]; intros Hvalid.
  - intros i [Hi _]. by destruct (init_val_all_false arr i) as [Hn _].
  - specialize (IH ltac:(intros j Hj; apply Hvalid; lia)).
    specialize (Hvalid k ltac:(lia)).
    pose proof (state_length h w brush arr Harr k) as Hlen.
    change (Nat.iter k (body_fn h w brush arr) (init_val arr))
      with (state k) in Hlen.
    change (state (S k)) with (body_fn h w brush arr (state k)).
    destruct (state k) as [tv ts]. destruct Hlen as [Hl1 Hl2].
    by apply body_fn_disjoint.
Qed.

(** C4 (as amended).  The committed-void and committed-solid fields start
    all false; every iteration's output fields contain its input fields
    pointwise; the loop condition fails exactly when the dilations of the two
    fields together cover every pixel, and the loop returns the first state
    of the run at which this happens.  The two fields stay disjoint when the
    centre cell of the brush is set, through every iteration that still has a
    valid touch to commit.  For a brush that is symmetric about its centre
    cell, with the centre cell set, every iteration of the loop has one: the
    two fields are disjoint at every state the loop reaches, and so are
    their dilations. *)
Theorem committed_fields_invariant h w brush arr :
  length arr = h * w →
  let body := body_fn h w brush arr in
  let state k := Nat.iter k body (init_val arr) in
  (∀ i, (init_val arr).1 !! i ≠ Some true ∧ (init_val arr).2 !! i ≠ Some true)
  ∧ (∀ touch_v touch_s, length touch_v = h * w → length touch_s = h * w →
       subfield touch_v (body (touch_v, touch_s)).1
       ∧ subfield touch_s (body (touch_v, touch_s)).2)
  ∧ (brush_centre brush = true →
     (∀ touch_v touch_s, length touch_v = h * w → length touch_s = h * w →
        disjoint_fields touch_v touch_s →
        valid_touch_exists h w brush touch_v touch_s = true →
        disjoint_fields (body (touch_v, touch_s)).1 (body (touch_v, touch_s)).2)
     ∧ (∀ k, (∀ j, j < k →
                valid_touch_exists h w brush (state j).1 (state j).2 = true) →
             disjoint_fields (state k).1 (state k).2))
  ∧ (brush_symmetric brush = true → brush_centre brush = true →
     ∀ k, (∀ j, j < k → cond_fn h w brush (state j) = true) →
          disjoint_fields (state k).1 (state k).2
          ∧ disjoint_fields (dilate_jax h w (state k).2 brush)
                            (dilate_jax h w (state k).1 brush))
  ∧ (∀ touch_v touch_s,
       cond_fn h w brush (touch_v, touch_s) = false ↔
       ∀ i, i < h * w →
         dilate_jax h w touch_s brush !! i = Some true
         ∨ dilate_jax h w touch_v brush !! i = Some true)
  ∧ (∀ fuel st,
       while_loop fuel (cond_fn h w brush) body (init_val arr) = Some st →
       ∃ k, st = state k
          ∧ cond_fn h w brush (state k) = false
          ∧ ∀ j, j < k → cond_fn h w brush (state j) = true).
Proof.
  intros Harr body state. split_and!.
  - apply init_val_all_false.
  - intros touch_v touch_s Hv Hs. by apply body_fn_monotone.
  - intros Hc. split.
    + intros touch_v touch_s Hv Hs. by apply body_fn_disjoint.
    + intros k. by apply state_disjoint.
  - intros Hsym Hc k Hcond.
    assert (∀ j, j < k →
              valid_touch_exists h w brush (state j).1 (state j).2 = true)
      as Hvalid.
    { intros j Hj. apply state_valid_touch; [done..|].
      intros j' Hj'. apply Hcond. lia. }
    split; [by apply state_disjoint|by apply state_pixels_disjoint].
  - intros touch_v touch_s. apply cond_fn_false_iff.
  - intros fuel st Hrun.
    apply while_loop_inv in Hrun as (k & _ & -> & Hstop & Hbefore).
    by exists k.
Qed.

Lemma committed_fields_invariant_witness :
  let state k := Nat.iter k (body_fn 3 4 plus_brush plus_arr) (init_val plus_arr) in
  length plus_arr = 3 * 4
  ∧ brush_symmetric plus_brush = true
  ∧ brush_centre plus_brush = true
  ∧ (∀ j, j < 6 → cond_fn 3 4 plus_brush (state j) = true)
  ∧ state 6
    = ([false; false; false; true; false; false; false; true;
        false; false; false; true],
       [true; false; false; false; true; false; false; false;
        true; false; false; false])
  ∧ disjoint_fields (state 6).1 (state 6).2
  ∧ disjoint_fields (dilate_jax 3 4 (state 6).2 plus_brush)
                    (dilate_jax 3 4 (state 6).1 plus_brush).
Proof.
  intros state.
  assert (∀ j, j < 6 → cond_fn 3 4 plus_brush (state j) = true) as Hcond.
  { intros j Hj. destruct j as [|[|[|[|[|[|j]]]]]]; [vm_compute; reflexivity..|lia]. }
  split; [reflexivity|]. split; [vm_compute; reflexivity|].
  split; [vm_compute; reflexivity|]. split; [exact Hcond|].
  split; [vm_compute; reflexivity|].
  destruct (committed_fields_invariant 3 4 plus_brush plus_arr eq_refl)
    as (_ & _ & _ & Hsym & _).
  exact (Hsym eq_refl eq_refl 6 Hcond).
Defined.

(** C4, counterexample to the claim as stated.  With a symmetric brush
    whose centre cell is not set, the first iteration on a 1-by-1 slice finds
    the single position free for both sides and commits it to both.  With a
    brush whose centre cell is set but which is not symmetric, the run on
    [bent_arr] reaches, after three iterations, a state with an uncovered
    pixel and no valid touch; the fourth iteration marks position 0, which
    is committed solid, as void.  In both runs the two fields are not
    disjoint afterwards. *)
Lemma committed_fields_not_disjoint :
  (let new := body_fn 1 1 gap_brush one_pixel_arr (init_val one_pixel_arr) in
   brush_symmetric gap_brush = true
   ∧ brush_centre gap_brush = false
   ∧ cond_fn 1 1 gap_brush (init_val one_pixel_arr) = true
   ∧ new = ([true], [true])
   ∧ ¬ disjoint_fields new.1 new.2)
  ∧ (let state k :=
       Nat.iter k (body_fn 2 3 bent_brush bent_arr) (init_val bent_arr) in
     brush_centre bent_brush = true
     ∧ brush_symmetric bent_brush = false
     ∧ (∀ j, j ≤ 3 → cond_fn 2 3 bent_brush (state j) = true)
     ∧ valid_touch_exists 2 3 bent_brush (state 3).1 (state 3).2 = false
     ∧ state 4 = ([true; false; false; false; false; true],
                  [true; false; true; false; false; false])
     ∧ ¬ disjoint_fields (state 4).1 (state 4).2).
Proof.
  split.
  - split_and!; [vm_compute; reflexivity..|].
    intros Hdisj. by apply (Hdisj 0).
  - split_and!; [vm_compute; reflexivity..| |vm_compute; reflexivity
                |vm_compute; reflexivity|].
    + intros j Hj. destruct j as [|[|[|[|j]]]]; [vm_compute; reflexivity..|lia].
    + intros Hdisj. apply (Hdisj 0). split; vm_compute; reflexivity.
Qed.

(** ** Progress and termination *)

(** C5 (as amended).  Every iteration that takes case 1 or case 2, and every
    iteration that takes case 3 while a valid touch exists, commits at least
    one previously uncommitted touch position.  For a brush that is
    symmetric about its centre cell, with the centre cell set, every state
    at which the loop continues has a valid touch; so the loop stops after
    at most [2 * (h * w)] iterations, and with any larger fuel the solver
    returns the dilation of the committed-solid field of that state. *)
Theorem generator_progress_and_termination h w brush arr :
  length arr = h * w →
  let body := body_fn h w brush arr in
  let state k := Nat.iter k body (init_val arr) in
  (∀ touch_v touch_s, length touch_v = h * w → length touch_s = h * w →
     (free_touches_exist h w brush touch_v touch_s = true →
        commits_new_touch (touch_v, touch_s) (body (touch_v, touch_s)))
     ∧ (free_touches_exist h w brush touch_v touch_s = false →
        resolving_exists h w brush touch_v touch_s = true →
        commits_new_touch (touch_v, touch_s) (body (touch_v, touch_s)))
     ∧ (free_touches_exist h w brush touch_v touch_s = false →
        resolving_exists h w brush touch_v touch_s = false →
        valid_touch_exists h w brush touch_v touch_s = true →
        commits_new_touch (touch_v, touch_s) (body (touch_v, touch_s))))
  ∧ (brush_symmetric brush = true → brush_centre brush = true →
     (∀ k, (∀ j, j ≤ k → cond_fn h w brush (state j) = true) →
           valid_touch_exists h w brush (state k).1 (state k).2 = true)
     ∧ ∃ k, k ≤ 2 * (h * w)
          ∧ cond_fn h w brush (state k) = false
          ∧ (∀ j, j < k → cond_fn h w brush (state j) = true)
          ∧ ∀ fuel, k < fuel →
              _generator h w brush arr fuel
              = Some (dilate_jax h w (state k).2 brush)).
Proof.
  intros Harr body state. split.
  - intros touch_v touch_s Hv Hs. split_and!.
    + intros Hfree. apply body_fn_commits_new; [done..|].
      by apply free_touch_valid.
    + intros _ Hres. apply body_fn_commits_new; [done..|].
      by apply resolving_touch_valid.
    + intros _ _ Hvalid. by apply body_fn_commits_new.
  - intros Hsym Hc. split; [intros k; by apply state_valid_touch|].
    destruct (symmetric_run_terminates h w brush arr Harr Hsym Hc)
      as (k & Hk & Hstop & Hbefore & Hrun).
    exists k. split; [done|]. split; [done|]. split; [done|].
    intros fuel Hfuel. unfold _generator. fold (init_val arr).
    by rewrite (while_loop_fuel_mono _ _ (S k) fuel _ _ Hrun) by lia.
Qed.

Lemma generator_progress_and_termination_witness :
  let state k := Nat.iter k (body_fn 3 4 plus_brush plus_arr) (init_val plus_arr) in
  length plus_arr = 3 * 4
  ∧ brush_symmetric plus_brush = true
  ∧ brush_centre plus_brush = true
  ∧ ∃ k, k ≤ 2 * (3 * 4)
       ∧ _generator 3 4 plus_brush plus_arr 25
         = Some (dilate_jax 3 4 (state k).2 plus_brush)
       ∧ dilate_jax 3 4 (state k).2 plus_brush
         = [true; true; false; false; true; true; false; false;
            true; true; false; false].
Proof.
  intros state.
  split; [reflexivity|]. split; [vm_compute; reflexivity|].
  split; [vm_compute; reflexivity|].
  destruct (generator_progress_and_termination 3 4 plus_brush plus_arr eq_refl)
    as [_ Hterm].
  destruct (Hterm eq_refl eq_refl) as (_ & k & Hk & _ & _ & Hrun).
  exists k. split; [exact Hk|].
  pose proof (Hrun 25 ltac:(lia)) as Hrun25.
  split; [exact Hrun25|].
  assert (_generator 3 4 plus_brush plus_arr 25
          = Some [true; true; false; false; true; true; false; false;
                  true; true; false; false]) as Hval by (vm_compute; reflexivity).
  rewrite Hrun25 in Hval. exact (Some_inj _ _ Hval).
Defined.

(** C5, counterexample to the claim as stated.  With a non-empty symmetric
    brush whose centre cell is not set, no dilation ever covers the pixel of
    a 1-by-1 slice: after the first iteration the loop condition still
    holds, no valid touch is left, and the next iteration (case 3) returns
    the state unchanged.  With a brush whose centre cell is set but which is
    not symmetric, the run on [bent_arr] reaches, after three iterations, a
    state with an uncovered pixel and no valid touch, and from the next
    state on the iteration changes nothing.  In both cases the loop does not
    stop, whatever the fuel. *)
Lemma generator_never_terminates :
  (let body := body_fn 1 1 gap_brush one_pixel_arr in
   let st1 := body (init_val one_pixel_arr) in
   brush_symmetric gap_brush = true
   ∧ brush_centre gap_brush = false
   ∧ cond_fn 1 1 gap_brush st1 = true
   ∧ free_touches_exist 1 1 gap_brush st1.1 st1.2 = false
   ∧ resolving_exists 1 1 gap_brush st1.1 st1.2 = false
   ∧ valid_touch_exists 1 1 gap_brush st1.1 st1.2 = false
   ∧ body st1 = st1
   ∧ ¬ commits_new_touch st1 (body st1)
   ∧ ∀ fuel, _generator 1 1 gap_brush one_pixel_arr fuel = None)
  ∧ (let body := body_fn 2 3 bent_brush bent_arr in
     let state k := Nat.iter k body (init_val bent_arr) in
     brush_centre bent_brush = true
     ∧ brush_symmetric bent_brush = false
     ∧ cond_fn 2 3 bent_brush (state 3) = true
     ∧ valid_touch_exists 2 3 bent_brush (state 3).1 (state 3).2 = false
     ∧ cond_fn 2 3 bent_brush (state 4) = true
     ∧ body (state 4) = state 4
     ∧ ∀ fuel, _generator 2 3 bent_brush bent_arr fuel = None).
Proof.
  split.
  - split_and!; try (vm_compute; reflexivity).
    + intros (p & [[Hold Hnew] | [Hold Hnew]]); destruct p; done.
    + intros fuel. unfold _generator. fold (init_val one_pixel_arr).
      rewrite (while_loop_stuck _ _ _ 1); [done| |vm_compute; reflexivity].
      intros j Hj. destruct j as [|[|j]]; [vm_compute; reflexivity..|lia].
  - split_and!; try (vm_compute; reflexivity).
    intros fuel. unfold _generator. fold (init_val bent_arr).
    rewrite (while_loop_stuck _ _ _ 4); [done| |vm_compute; reflexivity].
    intros j Hj. destruct j as [|[|[|[|[|j]]]]]; [vm_compute; reflexivity..|lia].
Qed.

(** ** Floats, [jnp.argmin] and [ClosestIndex] *)

Lemma argmin_better_rank x y :
  argmin_better x y = true ↔ lex_lt (f32_rank x) (f32_rank y).
Proof.
  unfold argmin_better, f32_ltb, SpecFloat.SFltb, lex_lt.
  destruct x as [sx|sx| |sx mx ex], y as [sy|sy| |sy my ey]; simpl;
    try destruct sx; try destruct sy; simpl;
    try (split; [discriminate | lia]);
    try (split; [lia | done]);
    try (split; [done | lia]).
  all: change (PosDef.Pos.compare_cont Eq mx my) with (mx ?= my)%positive;
    destruct (Z.compare_spec ex ey), (Pos.compare_spec mx my); simpl;
    split; try discriminate; try done; try lia.
Qed.

Lemma f32_leb_rank x y :
  f32_is_nan x = false → f32_is_nan y = false →
  f32_leb x y = true ↔ ¬ lex_lt (f32_rank y) (f32_rank x).
Proof.
  unfold f32_leb, SpecFloat.SFleb, lex_lt.
  destruct x as [sx|sx| |sx mx ex], y as [sy|sy| |sy my ey]; simpl;
    try discriminate; intros _ _;
    try destruct sx; try destruct sy; simpl;
    try (split; [discriminate | lia]);
    try (split; [lia | done]);
    try (split; [done | lia]).
  all: change (PosDef.Pos.compare_cont Eq mx my) with (mx ?= my)%positive;
    destruct (Z.compare_spec ex ey), (Pos.compare_spec mx my); simpl;
    split; try discriminate; try done; try lia.
Qed.

Lemma f32_ltb_rank x y :
  f32_is_nan x = false →
  f32_ltb x y = true ↔ argmin_better x y = true.
Proof.
  unfold argmin_better. intros ->. simpl. by rewrite orb_false_r.
Qed.

Lemma lex_lt_irrefl a : ¬ lex_lt a a.
Proof. unfold lex_lt. lia. Qed.

Lemma lex_lt_trans a b c : lex_lt a b → lex_lt b c → lex_lt a c.
Proof. unfold lex_lt. lia. Qed.

Lemma lex_lt_neg_trans a b c : ¬ lex_lt a b → ¬ lex_lt b c → ¬ lex_lt a c.
Proof. unfold lex_lt. lia. Qed.

(** Rounding never produces NaN. *)
Lemma shr_1_nonneg mrs :
  (0 ≤ SpecFloat.shr_m mrs)%Z → (0 ≤ SpecFloat.shr_m (SpecFloat.shr_1 mrs))%Z.
Proof.
  destruct mrs as [m r s]. simpl. intros Hm.
  destruct m as [|[p|p|]|p]; simpl; lia.
Qed.

Lemma iter_pos_shr_1_nonneg n mrs :
  (0 ≤ SpecFloat.shr_m mrs)%Z →
  (0 ≤ SpecFloat.shr_m (SpecFloat.iter_pos SpecFloat.shr_1 n mrs))%Z.
Proof.
  revert mrs. induction n as [n IH|n IH|]; intros mrs Hm; simpl.
  - by apply IH, IH, shr_1_nonneg.
  - by apply IH, IH.
  - by apply shr_1_nonneg.
Qed.

Lemma shr_fexp_nonneg prec emax m e l :
  (0 ≤ m)%Z → (0 ≤ SpecFloat.shr_m (SpecFloat.shr_fexp prec emax m e l).1)%Z.
Proof.
  intros Hm. unfold SpecFloat.shr_fexp, SpecFloat.shr.
  assert (0 ≤ SpecFloat.shr_m (SpecFloat.shr_record_of_loc m l))%Z as H0.
  { by destruct l as [|[]]. }
  destruct (_ - e)%Z; simpl; [done| |done].
  by apply iter_pos_shr_1_nonneg.
Qed.

Lemma round_nearest_even_nonneg m l :
  (0 ≤ m)%Z → (0 ≤ SpecFloat.round_nearest_even m l)%Z.
Proof.
  intros Hm. destruct l as [|[]]; simpl; try lia.
  destruct (Z.even m); lia.
Qed.

Lemma binary_round_aux_not_nan prec emax s m e l :
  (0 ≤ m)%Z →
  f32_is_nan (SpecFloat.binary_round_aux prec emax s m e l) = false.
Proof.
  intros Hm. unfold SpecFloat.binary_round_aux.
  pose proof (shr_fexp_nonneg prec emax m e l Hm) as H1.
  destruct (SpecFloat.shr_fexp prec emax m e l) as [mrs' e']. simpl in H1.
  pose proof (shr_fexp_nonneg prec emax
                (SpecFloat.round_nearest_even (SpecFloat.shr_m mrs')
                   (SpecFloat.loc_of_shr_record mrs')) e' SpecFloat.loc_Exact
                (round_nearest_even_nonneg _ _ H1)) as H2.
  destruct (SpecFloat.shr_fexp prec emax _ e' _) as [mrs'' e'']. simpl in H2.
  destruct (SpecFloat.shr_m mrs''); [done| |lia].
  by destruct (_ <=? _)%Z.
Qed.

Lemma binary_normalize_not_nan prec emax m e s :
  f32_is_nan (SpecFloat.binary_normalize prec emax m e s) = false.
Proof.
  unfold SpecFloat.binary_normalize, SpecFloat.binary_round.
  destruct m as [|m|m]; [done|..];
    destruct (SpecFloat.shl_align _ _ _); by apply binary_round_aux_not_nan.
Qed.

Lemma SFdiv_core_binary_nonneg prec emax m1 e1 m2 e2 :
  (0 ≤ (SpecFloat.SFdiv_core_binary prec emax (Zpos m1) e1 (Zpos m2) e2).1.1)%Z.
Proof.
  unfold SpecFloat.SFdiv_core_binary.
  set (s := (e1 - e2 - _)%Z). clearbody s.
  set (m' := match s with Z0 => Zpos m1 | Zpos _ => Z.shiftl (Zpos m1) s | Zneg _ => 0%Z end).
  assert (0 ≤ m')%Z as Hm'.
  { unfold m'. destruct s; try lia. by apply Z.shiftl_nonneg. }
  clearbody m'.
  pose proof (Z.div_pos m' (Zpos m2) Hm' ltac:(lia)) as Hq.
  unfold Z.div in Hq. destruct (Z.div_eucl m' (Zpos m2)) as [q r]. done.
Qed.

Lemma f32_of_Qc_not_nan q : f32_is_nan (f32_of_Qc q) = false.
Proof.
  unfold f32_of_Qc. destruct (Qnum q) as [|n|n]; [done|..].
  - pose proof (SFdiv_core_binary_nonneg f32_prec f32_emax n 0 (Qden q) 0) as Hm.
    destruct (SpecFloat.SFdiv_core_binary _ _ _ _ _ _) as [[m e] l].
    by apply binary_round_aux_not_nan.
  - pose proof (SFdiv_core_binary_nonneg f32_prec f32_emax n 0 (Qden q) 0) as Hm.
    destruct (SpecFloat.SFdiv_core_binary _ _ _ _ _ _) as [[m e] l].
    by apply binary_round_aux_not_nan.
Qed.

Lemma f32_div_one_not_nan y :
  f32_is_nan y = false → f32_is_nan (f32_div (f32_of_Z 1) y) = false.
Proof.
  replace (f32_of_Z 1) with (SpecFloat.S754_finite false 8388608 (-23))
    by (vm_compute; reflexivity).
  unfold f32_div, SpecFloat.SFdiv.
  destruct y as [sy|sy| |sy my ey]; simpl; try done. intros _.
  pose proof (SFdiv_core_binary_nonneg f32_prec f32_emax 8388608 (-23) my ey) as Hm.
  destruct (SpecFloat.SFdiv_core_binary _ _ _ _ _ _) as [[m e] l].
  by apply binary_round_aux_not_nan.
Qed.

Lemma f32_sub_not_nan x y :
  f32_is_finite x = true → f32_is_nan y = false →
  f32_is_nan (f32_sub x y) = false.
Proof.
  unfold f32_sub, SpecFloat.SFsub.
  destruct x as [sx|sx| |sx mx ex], y as [sy|sy| |sy my ey]; simpl; try done.
  - intros _ _. by destruct sx, sy.
  - intros _ _. apply binary_normalize_not_nan.
Qed.

Lemma f32_abs_not_nan x : f32_is_nan x = false → f32_is_nan (f32_abs x) = false.
Proof. by destruct x. Qed.

(** The distance of a finite input to an allowed inverse permittivity is a
    number or an infinity. *)
Lemma closest_index_dist_not_nan x p :
  f32_is_finite x = true →
  f32_is_nan (f32_abs (f32_sub x (f32_div (f32_of_Z 1) (f32_of_Qc p)))) = false.
Proof.
  intros Hx. apply f32_abs_not_nan, f32_sub_not_nan; [done|].
  apply f32_div_one_not_nan, f32_of_Qc_not_nan.
Qed.

Lemma jnp_argmin_spec (l : list float32) :
  l ≠ [] →
  (∀ j y, l !! j = Some y → f32_is_nan y = false) →
  ∃ m, l !! jnp_argmin l = Some m
     ∧ (∀ j y, l !! j = Some y → f32_leb m y = true)
     ∧ (∀ j y, j < jnp_argmin l → l !! j = Some y → f32_ltb m y = true).
Proof.
  intros Hl Hnan. unfold jnp_argmin.
  destruct (first_best_spec argmin_better) with (l := l)
    as (m & Hm & Hlb & Hfirst); [| | |done|].
  - intros x. rewrite argmin_better_rank. apply lex_lt_irrefl.
  - intros x y z. rewrite !argmin_better_rank. apply lex_lt_trans.
  - intros x y z. rewrite !argmin_better_rank. apply lex_lt_neg_trans.
  - exists m. split; [done|].
    pose proof (Hnan _ _ Hm) as Hmn. split.
    + intros j y Hj. apply f32_leb_rank; [done|by eapply Hnan|].
      rewrite <-argmin_better_rank. by eapply Hlb.
    + intros j y Hlt Hj. apply f32_ltb_rank; [done|]. by eapply Hfirst.
Qed.

(** C6 (as amended).  On a single tensor (and a non-empty catalogue)
    [ClosestIndex] returns, at every position that holds a finite value, an
    index whose allowed inverse permittivity has the least distance to the
    input value there, the distance being the one the code computes: the
    absolute value of the float32 difference.  It is the lowest of the
    indices at that computed distance: every earlier index has a strictly
    larger one. *)
Theorem closest_index_nearest `{Materials} (self : ClosestIndex.t)
    (arr : ndarray float32) :
  let allowed_inv_perms :=
    (λ p, f32_div (f32_of_Z 1) (f32_of_Qc p))
      <$> compute_allowed_permittivities (ClosestIndex._material self) in
  let dist x a := f32_abs (f32_sub x a) in
  allowed_inv_perms ≠ [] →
  ∃ r, ClosestIndex.__call__ self (Single arr) = Ok r
     ∧ shape (forward r) = shape arr
     ∧ length (data (forward r)) = length (data arr)
     ∧ ∀ i x, data arr !! i = Some x → f32_is_finite x = true →
         ∃ k a_k, data (forward r) !! i = Some (Z.of_nat k)
           ∧ allowed_inv_perms !! k = Some a_k
           ∧ (∀ j a_j, allowed_inv_perms !! j = Some a_j →
                f32_leb (dist x a_k) (dist x a_j) = true)
           ∧ (∀ j a_j, j < k → allowed_inv_perms !! j = Some a_j →
                f32_ltb (dist x a_k) (dist x a_j) = true).
Proof.
  intros allowed dist Hne. unfold ClosestIndex.__call__. fold allowed.
  destruct allowed as [|a0 allowed'] eqn:Hallowed; [done|].
  rewrite <-Hallowed in *. clear Hallowed a0 allowed'.
  eexists. split; [reflexivity|].
  unfold straight_through_estimator. simpl. split; [done|].
  split; [by rewrite !length_fmap|].
  intros i x Hx Hfin.
  set (row := (λ a, f32_abs (f32_sub x a)) <$> allowed).
  assert (row ≠ []) as Hrow.
  { intros Hnil. apply fmap_nil_inv in Hnil. done. }
  assert (∀ j y, row !! j = Some y → f32_is_nan y = false) as Hnan.
  { intros j y Hj. apply list_lookup_fmap_Some in Hj as (a & -> & Ha).
    unfold allowed in Ha. apply list_lookup_fmap_Some in Ha as (p & -> & _).
    by apply closest_index_dist_not_nan. }
  destruct (jnp_argmin_spec row Hrow Hnan) as (m & Hm & Hmin & Hfirst).
  assert (∃ a_k, allowed !! jnp_argmin row = Some a_k ∧ m = dist x a_k)
    as (a_k & Hak & ->).
  { apply list_lookup_fmap_Some in Hm as (a & -> & Ha). eauto. }
  exists (jnp_argmin row), a_k. split_and!.
  - rewrite !list_lookup_fmap, Hx. done.
  - done.
  - intros j a_j Hj. apply (Hmin j). unfold row.
    by rewrite list_lookup_fmap, Hj.
  - intros j a_j Hlt Hj. apply (Hfirst j); [done|]. unfold row.
    by rewrite list_lookup_fmap, Hj.
Qed.

Section closest_index_example.
#[local] Existing Instance example_materials.

Lemma closest_index_nearest_witness :
  let self := {| ClosestIndex._material := air_polymer |} in
  let allowed_inv_perms :=
    (λ p, f32_div (f32_of_Z 1) (f32_of_Qc p))
      <$> compute_allowed_permittivities (ClosestIndex._material self) in
  let dist x a := f32_abs (f32_sub x a) in
  let x := f32_of_Qc (Q2Qc (3 # 4)) in
  let arr := NdArray [3] [f32_of_Z 1; f32_of_Z 0; x] in
  allowed_inv_perms ≠ []
  ∧ f32_is_finite x = true
  ∧ ∃ r, ClosestIndex.__call__ self (Single arr) = Ok r
       ∧ data (forward r) = [1; 0; 0]%Z
       ∧ ∃ k a_k, data (forward r) !! 2 = Some (Z.of_nat k)
           ∧ allowed_inv_perms !! k = Some a_k
           ∧ ∀ j a_j, allowed_inv_perms !! j = Some a_j →
               f32_leb (dist x a_k) (dist x a_j) = true.
Proof.
  intros self allowed dist x arr.
  assert (allowed ≠ []) as Hne by (vm_compute; discriminate).
  assert (f32_is_finite x = true) as Hfin by reflexivity.
  split; [exact Hne|]. split; [exact Hfin|].
  destruct (closest_index_nearest self arr Hne) as (r & Hr & _ & _ & Hpos).
  destruct (Hpos 2 x eq_refl Hfin) as (k & a_k & Hk & Hak & Hmin & _).
  exists r. split; [exact Hr|]. split.
  - vm_compute in Hr. injection Hr as <-. reflexivity.
  - exists k, a_k. split; [exact Hk|]. split; [exact Hak|exact Hmin].
Defined.

(** C6, counterexample to the claim as stated.  The allowed inverse
    permittivities of air and a material of permittivity 2 are 0.5 and 1.
    For the input value 1e10, a float32 number, both float32 differences
    round to 1e10: the computed distances are equal and index 0 is returned,
    although the value 1 at index 1 is strictly closer to the input than the
    value 0.5 at index 0. *)
Lemma closest_index_rounding_hides_nearest :
  let self := {| ClosestIndex._material := air_polymer |} in
  let x := f32_of_Z 10000000000 in
  let a0 := f32_of_Qc (Q2Qc (1 # 2)) in
  let a1 := f32_of_Z 1 in
  (λ p, f32_div (f32_of_Z 1) (f32_of_Qc p))
    <$> compute_allowed_permittivities (ClosestIndex._material self) = [a0; a1]
  ∧ (∃ r, ClosestIndex.__call__ self (Single (NdArray [1] [x])) = Ok r
        ∧ data (forward r) = [0%Z])
  ∧ f32_abs (f32_sub x a0) = x
  ∧ f32_abs (f32_sub x a1) = x
  ∧ ∃ vx v0 v1,
      f32_value x = Some vx ∧ f32_value a0 = Some v0 ∧ f32_value a1 = Some v1
      ∧ vx = Qc_of_Z 10000000000 ∧ v0 = Q2Qc (1 # 2) ∧ v1 = Qc_of_Z 1
      ∧ (Qcabs (vx - v1) < Qcabs (vx - v0))%Qc.
Proof.
  intros self x a0 a1. split_and!.
  - vm_compute. reflexivity.
  - eexists. split; [reflexivity|]. vm_compute. reflexivity.
  - vm_compute. reflexivity.
  - vm_compute. reflexivity.
  - eexists _, _, _.
    split_and!; [reflexivity..| | | |];
      [apply Qc_is_canon; vm_compute; reflexivity..|vm_compute; reflexivity].
Qed.
End closest_index_example.

(** ** [reset_array_container] *)

Lemma times_zero_spec a : multiplied_by_zero a (times_zero a).
Proof.
  unfold multiplied_by_zero, times_zero. simpl.
  split; [done|]. split; [by rewrite length_fmap|].
  intros i x Hx. rewrite list_lookup_fmap, Hx. simpl. f_equal.
  destruct x as [s|s| |s m e]; simpl; by rewrite ?xorb_false_r.
Qed.

Lemma reset_boundary_states_ok {St} (boundaries : list (SimulationObject St)) old acc :
  (∀ b, b ∈ boundaries → is_Some (old !! name b)) →
  ∃ m, reset_boundary_states boundaries old acc = Ok m.
Proof.
  revert acc. induction boundaries as [|b boundaries IH]; intros acc Hin; simpl.
  - by exists acc.
  - destruct (Hin b) as (state & Hstate); [by left|]. rewrite Hstate.
    apply IH. intros b' Hb'. apply Hin. by right.
Qed.

(** C10 (as amended).  Whenever every boundary object has an entry in
    [arrays.boundary_states], [reset_array_container] returns a container
    whose [E] and [H] are the input's multiplied by zero: of the same shape
    and size, zero wherever the input held a finite number and NaN wherever
    it held an infinity or NaN.  Its material arrays are those of the input,
    and its [detector_states] are the input's for either value of
    [reset_detector_states]: the zeroed copy is computed but never stored. *)
Theorem reset_array_container_frame {St} (arrays : ArrayContainer.t St)
    (objects : ObjectContainer.t St)
    (reset_detector_states reset_recording_state : bool) :
  (∀ b, b ∈ ObjectContainer.boundary_objects objects →
        is_Some (ArrayContainer.boundary_states arrays !! name b)) →
  ∃ arrays',
    reset_array_container arrays objects reset_detector_states reset_recording_state
    = Ok arrays'
    ∧ multiplied_by_zero (ArrayContainer.E arrays) (ArrayContainer.E arrays')
    ∧ multiplied_by_zero (ArrayContainer.H arrays) (ArrayContainer.H arrays')
    ∧ ArrayContainer.inv_permittivities arrays'
      = ArrayContainer.inv_permittivities arrays
    ∧ ArrayContainer.inv_permeabilities arrays'
      = ArrayContainer.inv_permeabilities arrays
    ∧ ArrayContainer.electric_conductivity arrays'
      = ArrayContainer.electric_conductivity arrays
    ∧ ArrayContainer.magnetic_conductivity arrays'
      = ArrayContainer.magnetic_conductivity arrays
    ∧ ArrayContainer.detector_states arrays'
      = ArrayContainer.detector_states arrays.
Proof.
  intros Hkeys. unfold reset_array_container. simpl.
  destruct (reset_boundary_states_ok (ObjectContainer.boundary_objects objects)
              (ArrayContainer.boundary_states arrays) ∅ Hkeys) as (m & ->).
  eexists. split; [reflexivity|]. simpl.
  split_and!; try done; apply times_zero_spec.
Qed.

Lemma reset_array_container_frame_witness :
  (∀ b, b ∈ ObjectContainer.boundary_objects example_objects →
        is_Some (ArrayContainer.boundary_states example_arrays !! name b))
  ∧ ∃ arrays',
      reset_array_container example_arrays example_objects true true = Ok arrays'
      ∧ data (ArrayContainer.E example_arrays) = [f32_of_Z 1; f32_of_Z (-2)]
      ∧ length (data (ArrayContainer.E arrays')) = 2
      ∧ data (ArrayContainer.E arrays') !! 0 = Some (SpecFloat.S754_zero false)
      ∧ data (ArrayContainer.E arrays') !! 1 = Some (SpecFloat.S754_zero true)
      ∧ ArrayContainer.inv_permittivities arrays'
        = NdArray [2] [f32_of_Z 1; f32_of_Z 1]
      ∧ ArrayContainer.detector_states arrays'
        = {[ "detector" := {[ "energy" := NdArray [1] [f32_of_Z 9] ]} ]}.
Proof.
  assert (∀ b, b ∈ ObjectContainer.boundary_objects example_objects →
               is_Some (ArrayContainer.boundary_states example_arrays !! name b))
    as Hkeys.
  { intros b Hb. vm_compute in Hb.
    apply list_elem_of_singleton in Hb as ->. by eexists. }
  split; [exact Hkeys|].
  destruct (reset_array_container_frame example_arrays example_objects true true Hkeys)
    as (arrays' & Hreset & (_ & HlenE & HE) & _ & Hperm & _ & _ & _ & Hdet).
  exists arrays'. split; [exact Hreset|]. split; [reflexivity|].
  split; [exact HlenE|].
  split; [exact (HE 0 (f32_of_Z 1) eq_refl)|].
  split; [exact (HE 1 (f32_of_Z (-2)) eq_refl)|].
  split; [exact Hperm|exact Hdet].
Defined.

(** C10, counterexample to the claim as stated.  A container with a
    boundary object that has no entry in [arrays.boundary_states] makes the
    call raise [KeyError] instead of returning a container; and an electric
    field that holds an infinity is returned with NaN, not zero, at that
    position. *)
Lemma reset_array_container_key_error_and_nan :
  reset_array_container example_arrays example_periodic_objects false false
  = Raise (KeyError "periodic")
  ∧ data (ArrayContainer.E example_unbounded_arrays)
    = [SpecFloat.S754_infinity false; f32_of_Z 1]
  ∧ ∃ arrays',
      reset_array_container example_unbounded_arrays example_objects false false
      = Ok arrays'
      ∧ data (ArrayContainer.E arrays')
        = [SpecFloat.S754_nan; SpecFloat.S754_zero false].
Proof.
  split; [vm_compute; reflexivity|]. split; [reflexivity|].
  eexists. split; [vm_compute; reflexivity|]. reflexivity.
Qed.

(** ** [BrushConstraint2D.__call__] *)

Lemma expand_take0_shape (input : ndarray Qc) axis (d : list Z) :
  length (shape input) = 3 → shape input !! axis = Some 1 →
  shape (jnp_expand_dims (NdArray (shape (jnp_take0 input axis)) d) axis)
  = shape input.
Proof.
  intros Hrank Haxis. unfold jnp_take0, jnp_expand_dims.
  destruct (shape input) as [|s0 [|s1 [|s2 [|]]]] eqn:Hshape; try done.
  destruct axis as [|[|[|axis]]]; simpl in *; by simplify_eq.
Qed.

(** The guards of [__call__], in the order in which they are checked. *)
Lemma brush_call_guards `{Materials} fuel (self : BrushConstraint2D.t) :
  (∀ entries,
     BrushConstraint2D.__call__ fuel self (Named entries)
     = Some (Raise (Exception
         "BrushConstraint2D cannot be used with latent parameters that contain multiple entries")))
  ∧ (∀ input, 2 < size (BrushConstraint2D._material self) →
       BrushConstraint2D.__call__ fuel self (Single input)
       = Some (Raise (Exception
           "BrushConstraint2D currently only implemented for single material and air")))
  ∧ (∀ input, size (BrushConstraint2D._material self) ≤ 2 →
       length (shape input) ≠ 3 →
       BrushConstraint2D.__call__ fuel self (Single input)
       = Some (Raise (Exception
           "BrushConstraint2D Generator can only work with 2D-Arrays")))
  ∧ (∀ input d, size (BrushConstraint2D._material self) ≤ 2 →
       length (shape input) = 3 →
       shape input !! BrushConstraint2D.axis self = Some d → d ≠ 1 →
       BrushConstraint2D.__call__ fuel self (Single input)
       = Some (Raise (Exception
           "BrushConstraint2D Generator needs array size 1 in axis"))).
Proof.
  split_and!.
  - done.
  - intros input Hsize. unfold BrushConstraint2D.__call__.
    by rewrite bool_decide_eq_true_2.
  - intros input Hsize Hrank. unfold BrushConstraint2D.__call__.
    rewrite bool_decide_eq_false_2 by lia. by rewrite bool_decide_eq_true_2.
  - intros input d Hsize Hrank Hd Hne. unfold BrushConstraint2D.__call__.
    rewrite bool_decide_eq_false_2 by lia.
    rewrite bool_decide_eq_false_2 by (intros Hn; by apply Hn).
    rewrite Hd. by rewrite bool_decide_eq_true_2.
Qed.

(** C2 (as amended).  Whenever [BrushConstraint2D.__call__] returns, the input
    is a rank-3 tensor of size 1 along the constraint axis, the result has
    the shape of the input, and its values are determined by the dilated
    committed-solid field as follows.  When air is at index 0, the positions
    covered by that field carry value 0 and all other positions carry value
    1; when air is not at index 0 the mask is inverted, so covered positions
    carry 1 and all others 0. *)
Theorem brush_call_mask_values `{Materials} fuel (self : BrushConstraint2D.t)
    (input : ndarray Qc) (r : ste_value) :
  BrushConstraint2D.__call__ fuel self (Single input) = Some (Ok r) →
  let arr_2d := jnp_take0 input (BrushConstraint2D.axis self) in
  let h := shape arr_2d !!! 0 in
  let w := shape arr_2d !!! 1 in
  let brush := BrushConstraint2D.brush self in
  ∃ air_name air_idx committed,
    length (shape input) = 3
    ∧ shape input !! BrushConstraint2D.axis self = Some 1
    ∧ get_air_name (BrushConstraint2D._material self) = Ok air_name
    ∧ list_index air_name (compute_ordered_names (BrushConstraint2D._material self))
      = Ok air_idx
    ∧ while_loop fuel (cond_fn h w brush) (body_fn h w brush (data arr_2d))
        (init_val (data arr_2d)) = Some committed
    ∧ shape (forward r) = shape input
    ∧ length (data (forward r)) = h * w
    ∧ ∀ p (covered : bool),
        dilate_jax h w committed.2 brush !! p = Some covered →
        data (forward r) !! p
        = Some (if covered
                then (if decide (air_idx = 0) then 0%Z else 1%Z)
                else (if decide (air_idx = 0) then 1%Z else 0%Z)).
Proof.
  intros Hcall arr_2d h w brush. unfold BrushConstraint2D.__call__ in Hcall.
  case_bool_decide as Hsize; [done|].
  case_bool_decide as Hrank; [done|].
  destruct (shape input !! BrushConstraint2D.axis self) as [d|] eqn:Haxis; [|done].
  case_bool_decide as Hd; [done|].
  fold arr_2d h w brush in Hcall.
  unfold _generator in Hcall. fold (init_val (data arr_2d)) in Hcall.
  destruct (while_loop fuel (cond_fn h w brush) (body_fn h w brush (data arr_2d))
              (init_val (data arr_2d))) as [committed|] eqn:Hloop; [|done].
  simpl in Hcall.
  destruct (get_air_name (BrushConstraint2D._material self)) as [air_name|]
    eqn:Hair; [|by simplify_eq].
  destruct (list_index air_name
              (compute_ordered_names (BrushConstraint2D._material self)))
    as [air_idx|] eqn:Hidx; [|by simplify_eq].
  injection Hcall as <-.
  assert (length (shape input) = 3) as Hrank'
    by (destruct (decide (length (shape input) = 3)); [done|by destruct Hrank]).
  assert (d = 1) as ->
    by (destruct (decide (d = 1)); [done|by destruct Hd]).
  exists air_name, air_idx, committed.
  split_and!; try done.
  - unfold straight_through_estimator. simpl forward.
    by apply expand_take0_shape.
  - unfold straight_through_estimator, jnp_expand_dims. simpl.
    case_bool_decide; by rewrite !length_fmap, length_dilate_jax.
  - intros p covered Hp.
    unfold straight_through_estimator, jnp_expand_dims. simpl.
    destruct (decide (air_idx = 0)) as [->|Hnz].
    + rewrite bool_decide_eq_false_2 by (intros Hn; by apply Hn).
      rewrite list_lookup_fmap, Hp. by destruct covered.
    + rewrite bool_decide_eq_true_2 by done.
      rewrite !list_lookup_fmap, Hp. by destruct covered.
Qed.

Section brush_call_examples.
#[local] Existing Instance example_materials.

Lemma brush_call_mask_values_witness :
  let self := {| BrushConstraint2D._material := glass_air;
                 BrushConstraint2D.brush := line_brush;
                 BrushConstraint2D.axis := 0 |} in
  ∃ r, BrushConstraint2D.__call__ 3 self (Single line_voxels) = Some (Ok r)
     ∧ list_index "air" (compute_ordered_names glass_air) = Ok 1
     ∧ dilate_jax 1 4 [true; false; false; false] line_brush
       = [true; true; false; false]
     ∧ shape (forward r) = [1; 1; 4]
     ∧ data (forward r) !! 0 = Some 1%Z
     ∧ data (forward r) !! 1 = Some 1%Z
     ∧ data (forward r) !! 2 = Some 0%Z
     ∧ data (forward r) !! 3 = Some 0%Z.
Proof.
  intros self.
  assert (∃ r, BrushConstraint2D.__call__ 3 self (Single line_voxels) = Some (Ok r))
    as (r & Hcall) by (eexists; vm_compute; reflexivity).
  exists r. split; [exact Hcall|].
  destruct (brush_call_mask_values 3 self line_voxels r Hcall)
    as (air_name & air_idx & committed & _ & _ & Hair & Hidx & Hloop & Hshape
        & _ & Hval).
  vm_compute in Hair. injection Hair as <-.
  vm_compute in Hidx. injection Hidx as <-.
  vm_compute in Hloop. injection Hloop as <-.
  split; [reflexivity|]. split; [reflexivity|]. split; [exact Hshape|].
  split; [exact (Hval 0 true eq_refl)|].
  split; [exact (Hval 1 true eq_refl)|].
  split; [exact (Hval 2 false eq_refl)|exact (Hval 3 false eq_refl)].
Defined.

(** C2, counterexample to the claim as stated.  In a catalogue of air and a
    material of permittivity 1/2, ordered by permittivity, air is at index
    0.  On a 1-by-1-by-4 input the solver commits the first position as
    solid, so the dilated committed-solid field covers the first two
    positions; the returned mask carries 0 there, not 1, and 1 at the two
    positions that are not covered. *)
Lemma covered_position_carries_zero_when_air_is_first :
  let self := {| BrushConstraint2D._material := air_foam;
                 BrushConstraint2D.brush := line_brush;
                 BrushConstraint2D.axis := 0 |} in
  size air_foam = 2
  ∧ get_air_name air_foam = Ok "air"
  ∧ compute_ordered_names air_foam = ["air"; "foam"]
  ∧ list_index "air" (compute_ordered_names air_foam) = Ok 0
  ∧ _generator 1 4 line_brush (data (jnp_take0 line_voxels 0)) 3
    = Some [true; true; false; false]
  ∧ ∃ r, BrushConstraint2D.__call__ 3 self (Single line_voxels) = Some (Ok r)
       ∧ forward r = NdArray [1; 1; 4] [0; 0; 1; 1]%Z.
Proof.
  intros self. split_and!; try (vm_compute; reflexivity).
  eexists. split; [vm_compute; reflexivity | reflexivity].
Qed.

(** C7, the code at the failing input.  With a catalogue of a single material
    the material-count guard ([len(self._material) > 2]) lets the call
    through: no error is raised and a mask is returned (here with the value 1,
    which is not an index of the one-entry catalogue), although the catalogue
    does not contain exactly two materials. *)
Theorem brush_call_single_material_returns :
  let self := {| BrushConstraint2D._material := air_only;
                 BrushConstraint2D.brush := unit_brush;
                 BrushConstraint2D.axis := 0 |} in
  size (BrushConstraint2D._material self) = 1
  ∧ ∃ r, BrushConstraint2D.__call__ 2 self (Single one_voxel_neg) = Some (Ok r)
       ∧ forward r = NdArray [1; 1; 1] [1%Z].
Proof.
  intros self. split; [vm_compute; reflexivity|].
  eexists. split; [vm_compute; reflexivity | reflexivity].
Qed.
End brush_call_examples.

(** ** [PillarDiscretization.__call__] *)

Lemma tabulate_eq_list {A} `{Inhabited A} n (f : nat → A) (l : list A) :
  length l = n → (∀ c, c < n → l !!! c = f c) → tabulate n f = l.
Proof.
  intros Hlen Hf. apply list_eq_same_length with n;
    [done | apply length_tabulate |].
  intros c x y Hc Hx Hy. rewrite lookup_tabulate in Hx by done.
  injection Hx as <-. apply list_lookup_total_correct in Hy.
  by rewrite <-Hy, Hf.
Qed.

Lemma lookup_total_mjoin_uniform {A} `{Inhabited A} (ls : list (list A)) l q c :
  (∀ x, x ∈ ls → length x = l) → q < length ls → c < l →
  mjoin ls !!! (q * l + c) = (ls !!! q) !!! c.
Proof.
  revert q. induction ls as [|x ls IH]; intros q Hlen Hq Hc; simpl in Hq; [lia|].
  assert (length x = l) as Hx by (apply Hlen; by left).
  simpl. destruct q as [|q].
  - simpl. by rewrite lookup_total_app_l by lia.
  - rewrite lookup_total_app_r by lia.
    replace (S q * l + c - length x) with (q * l + c) by lia.
    simpl. apply IH; [|lia|done]. intros y Hy. apply Hlen. by right.
Qed.

Lemma length_mjoin_uniform {A} (ls : list (list A)) l :
  (∀ x, x ∈ ls → length x = l) → length (mjoin ls) = length ls * l.
Proof.
  induction ls as [|x ls IH]; intros Hlen; [done|].
  simpl. rewrite length_app, IH by (intros y Hy; apply Hlen; by right).
  rewrite (Hlen x) by by left. lia.
Qed.

Section table.
Variables (table : ndarray Z) (n l : nat).
Hypothesis Hshape : shape table = [n; l].
Hypothesis Hdata : length (data table) = n * l.
Hypothesis Hn : 0 < n.

(** A selected row is one of the [n] rows of the table. *)
Lemma table_row_is_row i :
  table_row table i = take l (drop (Nat.min i (n - 1) * l) (data table))
  ∧ Nat.min i (n - 1) < n.
Proof using Hshape Hn.
  clear Hdata. unfold table_row. rewrite Hshape. split; [done|lia].
Qed.

Lemma length_table_row i : length (table_row table i) = l.
Proof using Hshape Hdata Hn.
  unfold table_row. rewrite Hshape, length_take, length_drop, Hdata.
  assert (Nat.min i (n - 1) * l + l ≤ n * l); [|lia].
  assert (S (Nat.min i (n - 1)) ≤ n) as Hle by lia.
  apply (Nat.mul_le_mono_r _ _ l) in Hle. lia.
Qed.

Lemma gather_rows_shape idx :
  shape (jnp_gather_rows table idx) = shape idx ++ [l].
Proof using Hshape. unfold jnp_gather_rows. simpl. by rewrite Hshape. Qed.

Lemma gather_rows_length idx :
  length (data (jnp_gather_rows table idx)) = length (data idx) * l.
Proof using Hshape Hdata Hn.
  unfold jnp_gather_rows. simpl.
  rewrite (length_mjoin_uniform _ l), length_fmap; [done|].
  intros x (i & -> & _)%list_elem_of_fmap. apply length_table_row.
Qed.

Lemma gather_rows_lookup idx q c :
  q < length (data idx) → c < l →
  data (jnp_gather_rows table idx) !!! (q * l + c)
  = table_row table (data idx !!! q) !!! c.
Proof using Hshape Hdata Hn.
  intros Hq Hc. unfold jnp_gather_rows. simpl.
  rewrite (lookup_total_mjoin_uniform _ l); [|  | by rewrite length_fmap | done].
  - by rewrite (list_lookup_total_fmap (table_row table) (data idx) q Hq).
  - intros x (i & -> & _)%list_elem_of_fmap. apply length_table_row.
Qed.
End table.

Lemma lookup_total_tabulate3 {A} `{Inhabited A} s0 s1 s2
    (f : nat → nat → nat → A) i j k :
  i < s0 → j < s1 → k < s2 →
  tabulate3 s0 s1 s2 f !!! ravel3 s1 s2 i j k = f i j k.
Proof.
  intros Hi Hj Hk. apply list_lookup_total_correct. by apply lookup_tabulate3.
Qed.

(** C8.  On a single rank-3 tensor and for each axis in [{0, 1, 2}], given
    that the search returns one row index per position of the two other axes
    (in their order) and that the table has one entry per layer of the
    constrained axis, the result has the shape of the input, and every column
    of it along the constrained axis is a row of the allowed-index table,
    namely the row the search selected for that column.  The transposition
    (none for axis 2, the last two axes for axis 1, a rotation of all three for
    axis 0) is what puts the layer axis back in its place. *)
Theorem pillar_call_columns `{Materials, NearestIndex}
    (self : PillarDiscretization.t) (input : ndarray Qc) (s0 s1 s2 n : nat) :
  let ax := PillarDiscretization.axis self in
  let table := PillarDiscretization._allowed_indices self in
  let allowed_inv_perms :=
    (λ p, 1 / p)%Qc
      <$> compute_allowed_permittivities (PillarDiscretization._material self) in
  let idx :=
    nearest_index input allowed_inv_perms ax
                  (PillarDiscretization.distance_metric self) table in
  let l := [s0; s1; s2] !!! ax in
  let d1 := delete ax [s0; s1; s2] !!! 0 in
  let d2 := delete ax [s0; s1; s2] !!! 1 in
  shape input = [s0; s1; s2] →
  ax < 3 →
  shape table = [n; l] → length (data table) = n * l → 0 < n →
  shape idx = [d1; d2] → length (data idx) = d1 * d2 →
  ∃ r, PillarDiscretization.__call__ self (Single input) = Ok r
     ∧ shape (forward r) = shape input
     ∧ length (data (forward r)) = s0 * s1 * s2
     ∧ ∀ c1 c2, c1 < d1 → c2 < d2 →
         column (forward r) ax c1 c2
         = table_row table (data idx !!! (c1 * d2 + c2))
         ∧ ∃ m, m < n
              ∧ table_row table (data idx !!! (c1 * d2 + c2))
                = take l (drop (m * l) (data table)).
Proof.
  intros ax table allowed_inv_perms idx l d1 d2 Hin Hax Htable Hdata Hn Hidx Hlen.
  unfold PillarDiscretization.__call__.
  fold ax table allowed_inv_perms. fold idx.
  pose proof (gather_rows_shape table n l Htable idx) as Hgs.
  pose proof (gather_rows_length table n l Htable Hdata Hn idx) as Hgl.
  pose proof (gather_rows_lookup table n l Htable Hdata Hn idx) as Hg.
  pose proof (length_table_row table n l Htable Hdata Hn) as Hrow.
  assert (∀ i, ∃ m, m < n
            ∧ table_row table i = take l (drop (m * l) (data table))) as Hisrow.
  { intros i. exists (Nat.min i (n - 1)).
    destruct (table_row_is_row table n l Htable Hn i). done. }
  rewrite Hidx, Hlen in *. rewrite Hin.
  destruct ax as [|[|[|ax]]]; [| | |lia];
    simpl in l, d1, d2; subst l d1 d2; eexists; (split; [reflexivity|]);
    unfold straight_through_estimator; simpl forward.
  - (* axis 0: the gathered array has shape (s1, s2, s0) *)
    unfold jnp_transpose. rewrite Hgs. simpl.
    split; [done|]. split; [by rewrite length_tabulate3|].
    intros c1 c2 Hc1 Hc2. split; [|apply Hisrow].
    apply tabulate_eq_list; [apply Hrow|].
    intros c Hc. cbn [data]. rewrite lookup_total_tabulate3 by done.
    unfold ravel3. symmetry. apply Hg; [|done]. by apply ravel2_lt.
  - (* axis 1: the gathered array has shape (s0, s2, s1) *)
    unfold jnp_transpose. rewrite Hgs. simpl.
    split; [done|]. split; [by rewrite length_tabulate3|].
    intros c1 c2 Hc1 Hc2. split; [|apply Hisrow].
    apply tabulate_eq_list; [apply Hrow|].
    intros c Hc. cbn [data]. rewrite lookup_total_tabulate3 by done.
    unfold ravel3. symmetry. apply Hg; [|done]. by apply ravel2_lt.
  - (* axis 2: the gathered array already has shape (s0, s1, s2) *)
    split; [by rewrite Hgs|]. split; [exact Hgl|].
    intros c1 c2 Hc1 Hc2. split; [|apply Hisrow].
    unfold column. rewrite Hgs. simpl.
    apply tabulate_eq_list; [apply Hrow|].
    intros c Hc. unfold ravel3. symmetry. apply Hg; [|done]. by apply ravel2_lt.
Qed.

Section pillar_call_example.
#[local] Existing Instance example_materials.
#[local] Existing Instance example_nearest_index.

Lemma pillar_call_columns_witness :
  let table := PillarDiscretization._allowed_indices example_pillar in
  let idx :=
    nearest_index example_pillar_input
      ((λ p, 1 / p)%Qc <$> compute_allowed_permittivities air_polymer)
      0 euclidean table in
  shape example_pillar_input = [2; 1; 2]
  ∧ PillarDiscretization.axis example_pillar < 3
  ∧ shape table = [2; 2]
  ∧ length (data table) = 2 * 2
  ∧ 0 < 2
  ∧ shape idx = [1; 2]
  ∧ length (data idx) = 1 * 2
  ∧ ∃ r, PillarDiscretization.__call__ example_pillar (Single example_pillar_input)
         = Ok r
       ∧ shape (forward r) = [2; 1; 2]
       ∧ column (forward r) 0 0 1 = [1; 1]%Z.
Proof.
  intros table idx.
  assert (shape idx = [1; 2]) as Hidx by (vm_compute; reflexivity).
  assert (length (data idx) = 1 * 2) as Hlen by (vm_compute; reflexivity).
  split; [reflexivity|]. split; [vm_compute; lia|].
  do 2 (split; [reflexivity|]).
  split; [lia|]. split; [exact Hidx|]. split; [exact Hlen|].
  destruct (pillar_call_columns example_pillar example_pillar_input 2 1 2 2
              eq_refl ltac:(vm_compute; lia) eq_refl eq_refl ltac:(lia) Hidx Hlen)
    as (r & Hr & Hshape & _ & Hcol).
  exists r. split; [exact Hr|]. split; [exact Hshape|].
  destruct (Hcol 0 1 ltac:(vm_compute; lia) ltac:(vm_compute; lia)) as [Hc _].
  etrans; [exact Hc|]. vm_compute. reflexivity.
Defined.
End pillar_call_example.

(** ** The gradient bridge *)


Section straight_through_example.
#[local] Existing Instance example_materials.
#[local] Existing Instance example_nearest_index.

End straight_through_example.

(* ===================================================================== *)
(** * Part III: further properties of the sources                         *)
(* ===================================================================== *)

(** ** [ObjectContainer.__getitem__] *)

Section object_container.
Context {St M : Type}.
Implicit Types (self : ObjectContainer.t St) (o : SimulationObject St).

Lemma getitem_loop_Ok (objects : list (SimulationObject St)) key o :
  ObjectContainerMethods.getitem_loop objects key = Ok o ↔
  ∃ i, objects !! i = Some o ∧ name o = key
     ∧ ∀ j o', j < i → objects !! j = Some o' → name o' ≠ key.
Proof.
  induction objects as [|x objects IH]; simpl.
  - split; [done|]. by intros (i & Hi & _).
  - case_decide as Hx.
    + split.
      * intros [= <-]. exists 0. split_and!; [done..|]. intros j o' Hj. lia.
      * intros ([|i] & Hi & Hname & Hfirst); simpl in Hi; [by simplify_eq|].
        by destruct (Hfirst 0 x ltac:(lia) eq_refl).
    + rewrite IH. split.
      * intros (i & Hi & Hname & Hfirst). exists (S i). split_and!; [done..|].
        intros [|j] o' Hj Ho'; simpl in Ho'; [by simplify_eq|].
        apply (Hfirst j); [lia|done].
      * intros ([|i] & Hi & Hname & Hfirst); simpl in Hi; [by simplify_eq|].
        exists i. split_and!; [done..|].
        intros j o' Hj Ho'. apply (Hfirst (S j)); [lia|done].
Qed.

Lemma getitem_loop_Raise (objects : list (SimulationObject St)) key e :
  ObjectContainerMethods.getitem_loop objects key = Raise e ↔
  e = ValueError ∧ ∀ o, o ∈ objects → name o ≠ key.
Proof.
  induction objects as [|x objects IH]; simpl.
  - split; [intros [= <-]; split; [done|]; by intros o ?%elem_of_nil
           |by intros [-> _]].
  - case_decide as Hx.
    + split; [done|]. intros [_ Hnone]. destruct (Hnone x); [by left|done].
    + rewrite IH. split; intros [-> Hnone]; split; try done.
      * intros o [->|Ho]%elem_of_cons; [done|by apply Hnone].
      * intros o Ho. apply Hnone. by right.
Qed.

(** X1.  Looking an object up by name returns the first object of that name in
    the list, and raises [ValueError] exactly when no object has that name. *)
Theorem getitem_first_of_name self key :
  (∀ o, ObjectContainerMethods.__getitem__ self key = Ok o ↔
        ∃ i, ObjectContainer.object_list self !! i = Some o ∧ name o = key
           ∧ ∀ j o', j < i → ObjectContainer.object_list self !! j = Some o' →
                     name o' ≠ key)
  ∧ (∀ e, ObjectContainerMethods.__getitem__ self key = Raise e ↔
          e = ValueError
          ∧ ∀ o, o ∈ ObjectContainer.object_list self → name o ≠ key).
Proof.
  split; intros ?; [apply getitem_loop_Ok | apply getitem_loop_Raise].
Qed.

(** ** The filtered views *)

Lemma filter_length_partition {A} (P Q : A → Prop)
    `{∀ x, Decision (P x), ∀ x, Decision (Q x)} (l : list A) :
  (∀ x, x ∈ l → ¬ (P x ∧ Q x)) →
  length (filter (λ x, P x ∨ Q x) l) = length (filter P l) + length (filter Q l).
Proof.
  induction l as [|x l IH]; intros Hex; [done|].
  assert (∀ x, x ∈ l → ¬ (P x ∧ Q x)) as Hex' by (intros y Hy; apply Hex; by right).
  specialize (Hex x ltac:(by left)).
  rewrite !filter_cons.
  destruct (decide (P x)), (decide (Q x)), (decide (P x ∨ Q x)); simpl;
    rewrite ?IH by done; tauto || lia.
Qed.

Lemma filter_length_bool_split {A} (f : A → bool) (l : list A) :
  length l = length (filter (λ x, f x = false) l) + length (filter (λ x, f x = true) l).
Proof.
  induction l as [|x l IH]; [done|].
  rewrite !filter_cons.
  destruct (decide (f x = false)), (decide (f x = true)); simpl;
    [congruence|lia|lia|by destruct (f x)].
Qed.

(** X2.  The boundary objects are the PML objects together with the periodic
    objects: no object is in both views, every boundary object is in one of
    them, and the view keeps the order of the object list.  Likewise the
    detectors split into forward and backward detectors. *)
Theorem boundary_and_detector_views (inverse : SimulationObject St → bool) self :
  (∀ o, o ∈ ObjectContainer.boundary_objects self ↔
        o ∈ ObjectContainerMethods.pml_objects self
        ∨ o ∈ ObjectContainerMethods.periodic_objects self)
  ∧ (∀ o, ¬ (o ∈ ObjectContainerMethods.pml_objects self
             ∧ o ∈ ObjectContainerMethods.periodic_objects self))
  ∧ length (ObjectContainer.boundary_objects self)
    = length (ObjectContainerMethods.pml_objects self)
      + length (ObjectContainerMethods.periodic_objects self)
  ∧ ObjectContainer.boundary_objects self `sublist_of` ObjectContainer.object_list self
  ∧ (∀ o, o ∈ ObjectContainerMethods.detectors self ↔
          o ∈ ObjectContainerMethods.forward_detectors inverse self
          ∨ o ∈ ObjectContainerMethods.backward_detectors inverse self)
  ∧ (∀ o, ¬ (o ∈ ObjectContainerMethods.forward_detectors inverse self
             ∧ o ∈ ObjectContainerMethods.backward_detectors inverse self))
  ∧ length (ObjectContainerMethods.detectors self)
    = length (ObjectContainerMethods.forward_detectors inverse self)
      + length (ObjectContainerMethods.backward_detectors inverse self).
Proof.
  unfold ObjectContainer.boundary_objects, ObjectContainerMethods.pml_objects,
    ObjectContainerMethods.periodic_objects, ObjectContainerMethods.forward_detectors,
    ObjectContainerMethods.backward_detectors, ObjectContainer.objects.
  split_and!.
  - intros o. rewrite !list_elem_of_filter. tauto.
  - intros o. rewrite !list_elem_of_filter. intros [[Hp _] [Hq _]]. congruence.
  - apply filter_length_partition. intros o _ [Hp Hq]. congruence.
  - apply sublist_filter.
  - intros o. rewrite !list_elem_of_filter. destruct (inverse o); intuition congruence.
  - intros o. rewrite !list_elem_of_filter. intros [[Hp _] [Hq _]]. congruence.
  - apply filter_length_bool_split.
Qed.

(** ** [ObjectContainer._is_material_fn_true_for_all] *)

Section material_fn.
Variable material : SimulationObject St → object_material M.

Lemma material_fn_holds_spec fn o :
  ObjectContainerMethods.material_fn_holds material fn o = true ↔
  (class o = StaticMaterialObject ∨ class o = DiscreteDevice
   ∨ class o = ContinuousDevice → material_accepted fn (material o)).
Proof.
  unfold ObjectContainerMethods.material_fn_holds, is_base_device.
  destruct (decide (class o = StaticMaterialObject ∨ class o = DiscreteDevice
                    ∨ class o = ContinuousDevice)) as [Hc|Hc].
  - assert (negb (bool_decide (class o = StaticMaterialObject))
            && negb (bool_decide (class o = DiscreteDevice
                                  ∨ class o = ContinuousDevice)) = false) as ->.
    { apply andb_false_iff. rewrite !negb_false_iff, !bool_decide_eq_true. tauto. }
    transitivity (material_accepted fn (material o)); [|tauto].
    destruct (material o) as [m|d|ms me]; simpl; [done| |].
    + rewrite forallb_forall. split.
      * intros Hall k v Hkv. apply Hall, list_elem_of_In, list_elem_of_fmap.
        exists (k, v). split; [done|by apply elem_of_map_to_list].
      * intros Hall v Hv%list_elem_of_In%list_elem_of_fmap.
        destruct Hv as ([k v'] & -> & Hkv%elem_of_map_to_list). by eapply Hall.
    + destruct (fn ms), (fn me); intuition congruence.
  - assert (negb (bool_decide (class o = StaticMaterialObject))
            && negb (bool_decide (class o = DiscreteDevice
                                  ∨ class o = ContinuousDevice)) = true) as ->.
    { apply andb_true_iff. rewrite !negb_true_iff, !bool_decide_eq_false. tauto. }
    tauto.
Qed.

Lemma material_fn_loop_spec (fn : M → bool) (l : list (SimulationObject St)) :
  ObjectContainerMethods.material_fn_loop material fn l = true ↔
  ∀ o, o ∈ l →
       class o = StaticMaterialObject ∨ class o = DiscreteDevice
       ∨ class o = ContinuousDevice →
       material_accepted fn (material o).
Proof.
  induction l as [|x l IH]; simpl.
  - split; [|done]. by intros _ o ?%elem_of_nil.
  - destruct (ObjectContainerMethods.material_fn_holds material fn x) eqn:Hx.
    + rewrite IH. pose proof (proj1 (material_fn_holds_spec fn x) Hx) as Hx'.
      split.
      * intros Hl o [->|Ho]%elem_of_cons; [exact Hx'|by apply Hl].
      * intros Hl o Ho Hc. apply Hl; [by right|done].
    + split; [done|]. intros Hl.
      assert (ObjectContainerMethods.material_fn_holds material fn x = true)
        as Hx'; [|congruence].
      apply material_fn_holds_spec. intros Hc. apply Hl; [by left|done].
Qed.

(** X3.  [_is_material_fn_true_for_all] returns [True] exactly when every static
    material object and every device passes the check on its material: a
    single material satisfies [fn], every material of a dictionary satisfies
    [fn], and of a continuous material range neither [start_material] nor
    [end_material] satisfies [fn] (the range branch tests [fn] where the
    other two branches test [not fn]).  Objects of other classes are
    skipped. *)
Theorem is_material_fn_true_for_all_spec self (fn : M → bool) :
  ObjectContainerMethods._is_material_fn_true_for_all material self fn = true ↔
  ∀ o, o ∈ ObjectContainer.object_list self →
       class o = StaticMaterialObject ∨ class o = DiscreteDevice
       ∨ class o = ContinuousDevice →
       material_accepted fn (material o).
Proof.
  apply material_fn_loop_spec.
Qed.

(** X4.  A container holding a static material object or a device whose material
    is a continuous range with a non-magnetic start or end material is
    reported as not being non-magnetic. *)
Theorem non_magnetic_range_reported_magnetic self (is_magnetic : M → bool)
    o ms me :
  o ∈ ObjectContainer.object_list self →
  class o = StaticMaterialObject ∨ class o = DiscreteDevice
  ∨ class o = ContinuousDevice →
  material o = MaterialRange ms me →
  is_magnetic ms = false ∨ is_magnetic me = false →
  ObjectContainerMethods.all_objects_non_magnetic material is_magnetic self = false.
Proof.
  intros Ho Hc Hm Hms. unfold ObjectContainerMethods.all_objects_non_magnetic.
  apply not_true_is_false. intros Hall.
  pose proof (proj1 (material_fn_loop_spec _ _) Hall o Ho Hc) as Hacc.
  rewrite Hm in Hacc. destruct Hacc as [Hs He].
  destruct Hms as [Hms|Hms]; [rewrite Hms in Hs|rewrite Hms in He]; done.
Qed.
End material_fn.

(** ** [ObjectContainer.replace_sources] *)

Lemma filter_ext_in {A} (P Q : A → Prop)
    `{∀ x, Decision (P x), ∀ x, Decision (Q x)} (l : list A) :
  (∀ x, x ∈ l → P x ↔ Q x) → filter P l = filter Q l.
Proof.
  induction l as [|x l IH]; intros Hl; [done|]. rewrite !filter_cons.
  rewrite IH by (intros y Hy; apply Hl; by right).
  pose proof (Hl x ltac:(by left)).
  destruct (decide (P x)), (decide (Q x)); tauto.
Qed.

Lemma filter_all {A} (P : A → Prop) `{∀ x, Decision (P x)} (l : list A) :
  (∀ x, x ∈ l → P x) → filter P l = l.
Proof.
  induction l as [|x l IH]; intros Hl; [done|]. rewrite filter_cons.
  rewrite IH by (intros y Hy; apply Hl; by right).
  pose proof (Hl x ltac:(by left)). by destruct (decide (P x)).
Qed.

Lemma filter_none {A} (P : A → Prop) `{∀ x, Decision (P x)} (l : list A) :
  (∀ x, x ∈ l → ¬ P x) → filter P l = [].
Proof.
  induction l as [|x l IH]; intros Hl; [done|]. rewrite filter_cons.
  rewrite IH by (intros y Hy; apply Hl; by right).
  pose proof (Hl x ltac:(by left)). by destruct (decide (P x)).
Qed.

Lemma filter_filter_implied {A} (P Q : A → Prop)
    `{∀ x, Decision (P x), ∀ x, Decision (Q x)} (l : list A) :
  (∀ x, P x → Q x) → filter P (filter Q l) = filter P l.
Proof.
  intros HPQ. induction l as [|x l IH]; [done|]. rewrite !filter_cons.
  destruct (decide (Q x)) as [HQ|HQ]; [rewrite filter_cons|];
    destruct (decide (P x)); rewrite ?IH; try done.
  destruct HQ. auto.
Qed.

Lemma filter_length_compl {A} (P : A → Prop) `{∀ x, Decision (P x)} (l : list A) :
  length (filter P l) + length (filter (λ x, ¬ P x) l) = length l.
Proof.
  induction l as [|x l IH]; [done|]. rewrite !filter_cons.
  destruct (decide (P x)), (decide (¬ P x)); simpl; try tauto; lia.
Qed.

Section replace_sources.
Variable obj_eqb : SimulationObject St → SimulationObject St → bool.
(** [SimulationObject.__eq__] compares the names of the two objects. *)
Hypothesis obj_eqb_name : ∀ x o, obj_eqb x o = true ↔ name x = name o.

Lemma py_in_sources self o :
  ObjectContainerMethods.py_in obj_eqb o (ObjectContainerMethods.sources self) = false
  ↔ name o ∉ name <$> ObjectContainerMethods.sources self.
Proof using obj_eqb_name.
  unfold ObjectContainerMethods.py_in.
  rewrite <-not_true_iff_false, existsb_exists, list_elem_of_fmap. split.
  - intros Hnone (x & Hname & Hx). apply Hnone. exists x.
    split; [by apply list_elem_of_In|]. by apply obj_eqb_name.
  - intros Hnone (x & Hx%list_elem_of_In & Heq). apply Hnone. exists x.
    split; [|done]. symmetry. by apply obj_eqb_name.
Qed.

Lemma replace_sources_objects self new_sources :
  ObjectContainer.object_list
    (ObjectContainerMethods.replace_sources obj_eqb self new_sources)
  = filter (λ o, name o ∉ name <$> ObjectContainerMethods.sources self)
      (ObjectContainer.object_list self)
    ++ new_sources.
Proof using obj_eqb_name.
  unfold ObjectContainerMethods.replace_sources, ObjectContainer.objects. simpl.
  f_equal. apply filter_ext_in. intros o Ho. by apply py_in_sources.
Qed.

(** When only sources carry the names of sources, the objects that
    [replace_sources] removes are the sources. *)
Lemma replace_sources_removes_sources self new_sources :
  (∀ o, o ∈ ObjectContainer.object_list self →
        name o ∈ name <$> ObjectContainerMethods.sources self → class o = Source) →
  ObjectContainer.object_list
    (ObjectContainerMethods.replace_sources obj_eqb self new_sources)
  = filter (λ o, class o ≠ Source) (ObjectContainer.object_list self) ++ new_sources.
Proof using obj_eqb_name.
  intros Hnames. rewrite replace_sources_objects. f_equal.
  apply filter_ext_in. intros o Ho. split.
  - intros Hout Hc. apply Hout. apply list_elem_of_fmap. exists o.
    split; [done|]. unfold ObjectContainerMethods.sources, ObjectContainer.objects.
    by apply list_elem_of_filter.
  - intros Hc Hin. by apply Hc, Hnames.
Qed.

(** X5.  After [replace_sources] the objects are the old ones, in their old
    order, without those that carry the name of an old source, followed by
    the new sources; [volume_idx] is the old index.  When only sources carry
    the names of sources and the new objects are sources, the sources of the
    container are exactly the new sources and the objects of every other
    class are the old ones in their old order. *)
Theorem replace_sources_views self new_sources :
  let self' := ObjectContainerMethods.replace_sources obj_eqb self new_sources in
  let source_names := name <$> ObjectContainerMethods.sources self in
  ObjectContainer.object_list self'
  = filter (λ o, name o ∉ source_names) (ObjectContainer.object_list self)
    ++ new_sources
  ∧ ObjectContainer.volume_idx self' = ObjectContainer.volume_idx self
  ∧ ((∀ o, o ∈ ObjectContainer.object_list self →
           name o ∈ source_names → class o = Source) →
     (∀ o, o ∈ new_sources → class o = Source) →
     ObjectContainerMethods.sources self' = new_sources
     ∧ (∀ c, c ≠ Source →
             filter (λ o, class o = c) (ObjectContainer.objects self')
             = filter (λ o, class o = c) (ObjectContainer.objects self))
     ∧ ObjectContainer.boundary_objects self'
       = ObjectContainer.boundary_objects self).
Proof using obj_eqb_name.
  intros self' source_names. split; [apply replace_sources_objects|].
  split; [done|]. intros Hnames Hnew.
  unfold ObjectContainerMethods.sources, ObjectContainer.boundary_objects,
    ObjectContainer.objects, self'.
  rewrite replace_sources_removes_sources by done. split_and!.
  - rewrite filter_app, filter_none, filter_all; [done|done|].
    intros o [Hc _]%list_elem_of_filter. done.
  - intros c Hc. rewrite filter_app, filter_filter_implied by congruence.
    rewrite (filter_none _ new_sources), app_nil_r; [done|].
    intros o Ho%Hnew. congruence.
  - rewrite filter_app, filter_filter_implied by (intros o [?|?]; congruence).
    rewrite (filter_none _ new_sources), app_nil_r; [done|].
    intros o Ho%Hnew [?|?]; congruence.
Qed.

(** X6.  [replace_sources] keeps [volume_idx] although it removes the old sources
    from the list: when only sources carry the names of sources, the old
    volume object is found [k] places before [volume_idx], where [k] is the
    number of sources that preceded it.  So the [volume] property still
    returns the volume object when no source precedes it. *)
Theorem replace_sources_volume self new_sources v :
  ObjectContainerMethods.volume self = Ok v →
  class v ≠ Source →
  (∀ o, o ∈ ObjectContainer.object_list self →
        name o ∈ name <$> ObjectContainerMethods.sources self → class o = Source) →
  let self' := ObjectContainerMethods.replace_sources obj_eqb self new_sources in
  let k := length (filter (λ o, class o = Source)
                     (take (ObjectContainer.volume_idx self)
                           (ObjectContainer.object_list self))) in
  ObjectContainer.object_list self' !! (ObjectContainer.volume_idx self - k) = Some v
  ∧ (k = 0 → ObjectContainerMethods.volume self' = Ok v).
Proof using obj_eqb_name.
  intros Hv Hc Hnames self' k.
  unfold ObjectContainerMethods.volume in Hv.
  destruct (ObjectContainer.object_list self !! ObjectContainer.volume_idx self)
    as [v'|] eqn:Hlook; [|done]. injection Hv as ->.
  assert (ObjectContainer.object_list self' !! (ObjectContainer.volume_idx self - k)
          = Some v) as Hmoved.
  { unfold self'. rewrite replace_sources_removes_sources by done.
    rewrite <-(take_drop (ObjectContainer.volume_idx self)
                 (ObjectContainer.object_list self)) at 1.
    rewrite (drop_S _ _ _ Hlook), filter_app, filter_cons.
    rewrite decide_True by done.
    pose proof (filter_length_compl (λ o, class o = Source)
                  (take (ObjectContainer.volume_idx self)
                     (ObjectContainer.object_list self))) as Hlen.
    rewrite length_take_le in Hlen by (apply lookup_lt_Some in Hlook; lia).
    fold k in Hlen. rewrite <-app_assoc.
    rewrite lookup_app_r by lia.
    replace (_ - _ - _) with 0 by lia. done. }
  split; [done|]. intros Hk. unfold ObjectContainerMethods.volume.
  replace (ObjectContainer.volume_idx self')
    with (ObjectContainer.volume_idx self - k) by (rewrite Hk; simpl; lia).
  by rewrite Hmoved.
Qed.

End replace_sources.

End object_container.

Lemma non_magnetic_range_reported_magnetic_witness :
  let o := {| name := "device"; class := ContinuousDevice; reset_state := id |} in
  example_material o = MaterialRange (Qc_of_Z 1) (Qc_of_Z 1)
  ∧ example_is_magnetic (Qc_of_Z 1) = false
  ∧ ObjectContainerMethods.all_objects_non_magnetic example_material
      example_is_magnetic example_source_objects = false.
Proof.
  intros o. split; [reflexivity|]. split; [vm_compute; reflexivity|].
  apply (non_magnetic_range_reported_magnetic example_material
           example_source_objects example_is_magnetic o (Qc_of_Z 1) (Qc_of_Z 1)).
  - vm_compute. do 3 right. left.
  - by do 2 right.
  - reflexivity.
  - left. vm_compute. reflexivity.
Defined.

Lemma example_obj_eqb_name x o : example_obj_eqb x o = true ↔ name x = name o.
Proof. unfold example_obj_eqb. apply bool_decide_eq_true. Qed.

Lemma example_source_names o :
  o ∈ ObjectContainer.object_list example_source_objects →
  name o ∈ name <$> ObjectContainerMethods.sources example_source_objects →
  class o = Source.
Proof.
  intros Ho Hname. vm_compute in Hname.
  apply list_elem_of_singleton in Hname.
  unfold example_source_objects in Ho. simpl in Ho.
  repeat (apply elem_of_cons in Ho as [->|Ho]; [done|]).
  by apply elem_of_nil in Ho.
Qed.

Lemma replace_sources_views_witness :
  let self' := ObjectContainerMethods.replace_sources example_obj_eqb
                 example_source_objects example_new_sources in
  (∀ x o, example_obj_eqb x o = true ↔ name x = name o)
  ∧ (∀ o, o ∈ example_new_sources → class o = Source)
  ∧ ObjectContainerMethods.sources self' = example_new_sources
  ∧ name <$> ObjectContainer.object_list self'
    = ["volume"; "pml"; "device"; "source_a"; "source_b"].
Proof.
  intros self'.
  assert (∀ o, o ∈ example_new_sources → class o = Source) as Hnew.
  { intros o Ho. unfold example_new_sources in Ho.
    apply elem_of_cons in Ho as [->|Ho]; [done|].
    apply list_elem_of_singleton in Ho as ->. done. }
  split; [exact example_obj_eqb_name|]. split; [exact Hnew|].
  destruct (replace_sources_views example_obj_eqb example_obj_eqb_name
              example_source_objects example_new_sources)
    as (Hobjects & _ & Hviews).
  destruct (Hviews example_source_names Hnew) as (Hsources & _).
  split; [exact Hsources|].
  etrans; [exact (f_equal (fmap name) Hobjects)|]. vm_compute. reflexivity.
Defined.

Lemma replace_sources_volume_witness :
  let self' := ObjectContainerMethods.replace_sources example_obj_eqb
                 example_source_objects example_new_sources in
  let v := {| name := "volume"; class := PlainObject; reset_state := id |} in
  (∀ x o, example_obj_eqb x o = true ↔ name x = name o)
  ∧ ObjectContainerMethods.volume example_source_objects = Ok v
  ∧ class v ≠ Source
  ∧ ObjectContainer.object_list self' !! 0 = Some v
  ∧ ∃ v', ObjectContainerMethods.volume self' = Ok v' ∧ name v' = "pml".
Proof.
  intros self' v.
  assert (ObjectContainerMethods.volume example_source_objects = Ok v) as Hv
    by reflexivity.
  assert (class v ≠ Source) as Hc by done.
  split; [exact example_obj_eqb_name|]. split; [exact Hv|]. split; [exact Hc|].
  destruct (replace_sources_volume example_obj_eqb example_obj_eqb_name
              example_source_objects example_new_sources v Hv Hc
              example_source_names)
    as (Hmoved & _).
  split; [exact Hmoved|]. eexists. split; reflexivity.
Defined.

(** ** [reset_array_container]: boundary states, errors, recording state *)

Lemma reset_boundary_states_lookup {St} (boundaries : list (SimulationObject St))
    old acc m :
  reset_boundary_states boundaries old acc = Ok m →
  (∀ key, is_Some (m !! key) ↔
          is_Some (acc !! key) ∨ ∃ b, b ∈ boundaries ∧ name b = key)
  ∧ (∀ l1 b l2, boundaries = l1 ++ b :: l2 →
        (∀ b', b' ∈ l2 → name b' ≠ name b) →
        ∃ state, old !! name b = Some state
                 ∧ m !! name b = Some (reset_state b state))
  ∧ (∀ key, (∀ b, b ∈ boundaries → name b ≠ key) → m !! key = acc !! key).
Proof.
  revert acc. induction boundaries as [|x l IH]; intros acc Hm; simpl in Hm.
  - injection Hm as <-. split_and!.
    + intros key. split; [by left|]. intros [?|(b & ?%elem_of_nil & _)]; done.
    + intros [|??] ???; done.
    + done.
  - destruct (old !! name x) as [state|] eqn:Hstate; [|done].
    destruct (IH _ Hm) as (Hdom & Hval & Hframe). split_and!.
    + intros key. rewrite Hdom, lookup_insert_is_Some. split.
      * intros [[<-|[_ Hacc]]|(b & Hb & Hkey)].
        -- right. exists x. split; [by left|done].
        -- by left.
        -- right. exists b. split; [by right|done].
      * intros [Hacc|(b & [->|Hb]%elem_of_cons & Hkey)].
        -- left. destruct (decide (name x = key)); [by left|by right].
        -- left. by left.
        -- right. by exists b.
    + intros [|y l1] b l2 Hsplit Hlast; simpl in Hsplit; simplify_eq.
      * exists state. split; [done|].
        rewrite Hframe by done. by rewrite lookup_insert_eq.
      * by eapply Hval.
    + intros key Hnone. rewrite Hframe by (intros b Hb; apply Hnone; by right).
      apply lookup_insert_ne. apply Hnone. by left.
Qed.

Lemma reset_boundary_states_Raise {St} (boundaries : list (SimulationObject St))
    old acc e :
  reset_boundary_states boundaries old acc = Raise e ↔
  ∃ l1 b l2, boundaries = l1 ++ b :: l2
    ∧ (∀ b', b' ∈ l1 → is_Some (old !! name b'))
    ∧ old !! name b = None
    ∧ e = KeyError (name b).
Proof.
  revert acc. induction boundaries as [|x l IH]; intros acc; simpl.
  - split; [done|]. by intros ([|??] & ? & ? & ? & _).
  - destruct (old !! name x) as [state|] eqn:Hstate.
    + rewrite IH. split.
      * intros (l1 & b & l2 & -> & Hl1 & Hb & ->).
        exists (x :: l1), b, l2. split_and!; try done.
        intros b' [->|Hb']%elem_of_cons; [by rewrite Hstate|by apply Hl1].
      * intros ([|y l1] & b & l2 & Hsplit & Hl1 & Hb & ->);
          simpl in Hsplit; simplify_eq.
        exists l1, b, l2. split_and!; try done.
        intros b' Hb'. apply Hl1. by right.
    + split.
      * intros [= <-]. exists [], x, l. split_and!; try done.
        by intros b' ?%elem_of_nil.
      * intros ([|y l1] & b & l2 & Hsplit & Hl1 & Hb & ->);
          simpl in Hsplit; simplify_eq; [done|].
        destruct (Hl1 y) as [? Hy]; [by left|]. congruence.
Qed.

(** X7.  The [boundary_states] of the container that [reset_array_container]
    returns hold exactly the names of the boundary objects: each name maps
    to the old state of that name, reset by the last boundary object of
    that name, and entries of the old dictionary under other names are not
    carried over. *)
Theorem reset_array_container_boundary_states {St} (arrays : ArrayContainer.t St)
    (objects : ObjectContainer.t St) (rd rr : bool) arrays' :
  reset_array_container arrays objects rd rr = Ok arrays' →
  (∀ key, is_Some (ArrayContainer.boundary_states arrays' !! key) ↔
          ∃ b, b ∈ ObjectContainer.boundary_objects objects ∧ name b = key)
  ∧ (∀ l1 b l2, ObjectContainer.boundary_objects objects = l1 ++ b :: l2 →
        (∀ b', b' ∈ l2 → name b' ≠ name b) →
        ∃ state, ArrayContainer.boundary_states arrays !! name b = Some state
                 ∧ ArrayContainer.boundary_states arrays' !! name b
                   = Some (reset_state b state)).
Proof.
  unfold reset_array_container. simpl.
  destruct (reset_boundary_states _ _ _) as [m|e] eqn:Hm; [|done].
  intros [= <-]. simpl.
  destruct (reset_boundary_states_lookup _ _ _ _ Hm) as (Hdom & Hval & _).
  split; [|done]. intros key. rewrite Hdom, lookup_empty, is_Some_alt. tauto.
Qed.

(** X8.  [reset_array_container] raises exactly when some boundary object has no
    entry in [arrays.boundary_states]; the exception is the [KeyError] of
    the first such boundary object, whatever the two flags are. *)
Theorem reset_array_container_raises {St} (arrays : ArrayContainer.t St)
    (objects : ObjectContainer.t St) (rd rr : bool) e :
  reset_array_container arrays objects rd rr = Raise e ↔
  ∃ l1 b l2, ObjectContainer.boundary_objects objects = l1 ++ b :: l2
    ∧ (∀ b', b' ∈ l1 → is_Some (ArrayContainer.boundary_states arrays !! name b'))
    ∧ ArrayContainer.boundary_states arrays !! name b = None
    ∧ e = KeyError (name b).
Proof.
  rewrite <-reset_boundary_states_Raise with (acc := ∅).
  unfold reset_array_container. simpl.
  destruct (reset_boundary_states _ _ _) as [m|e']; [done|]. split; congruence.
Qed.

(** X9.  The recording state that [reset_array_container] returns: absent when
    it was absent, the old one when [reset_recording_state] is false, and
    otherwise a recording state with the same keys whose arrays are the old
    ones multiplied by zero: of the same shape and size, zero wherever the
    old array held a finite number and NaN wherever it held an infinity or
    NaN. *)
Theorem reset_array_container_recording_state {St} (arrays : ArrayContainer.t St)
    (objects : ObjectContainer.t St) (rd rr : bool) arrays' :
  reset_array_container arrays objects rd rr = Ok arrays' →
  match ArrayContainer.recording_state arrays, rr with
  | None, _ => ArrayContainer.recording_state arrays' = None
  | Some rs, false => ArrayContainer.recording_state arrays' = Some rs
  | Some rs, true =>
      ∃ rs', ArrayContainer.recording_state arrays' = Some rs'
        ∧ (∀ k, RecordingState.data rs' !! k = None ↔ RecordingState.data rs !! k = None)
        ∧ (∀ k, RecordingState.state rs' !! k = None ↔ RecordingState.state rs !! k = None)
        ∧ (∀ k a a', (RecordingState.data rs !! k = Some a
                      ∧ RecordingState.data rs' !! k = Some a')
                     ∨ (RecordingState.state rs !! k = Some a
                        ∧ RecordingState.state rs' !! k = Some a') →
                     multiplied_by_zero a a')
  end.
Proof.
  unfold reset_array_container. simpl.
  destruct (reset_boundary_states _ _ _) as [m|e] eqn:Hm; [|done].
  intros [= <-]. simpl.
  destruct (ArrayContainer.recording_state arrays) as [rs|], rr; try done.
  eexists. split; [done|]. simpl. split_and!.
  - intros k. by rewrite lookup_fmap, fmap_None.
  - intros k. by rewrite lookup_fmap, fmap_None.
  - intros k a a'. rewrite !lookup_fmap.
    intros [[-> [= <-]]|[-> [= <-]]]; apply times_zero_spec.
Qed.

Lemma reset_array_container_boundary_states_witness :
  ∃ arrays',
    reset_array_container example_recording_arrays example_source_objects false true
    = Ok arrays'
    ∧ ArrayContainer.boundary_states arrays' !! "pml"
      = Some (NdArray [1] [SpecFloat.S754_zero false])
    ∧ ArrayContainer.boundary_states arrays' !! "stale" = None.
Proof.
  destruct (reset_array_container example_recording_arrays example_source_objects
              false true) as [arrays'|e] eqn:Hreset; [|by vm_compute in Hreset].
  destruct (reset_array_container_boundary_states _ _ _ _ _ Hreset) as (Hdom & Hval).
  exists arrays'. split; [done|]. split.
  - destruct (Hval [] {| name := "pml"; class := PerfectlyMatchedLayer;
                         reset_state := times_zero |} [])
      as (state & Hold & Hnew); [reflexivity|by intros b' ?%elem_of_nil|].
    vm_compute in Hold. injection Hold as <-. simpl in Hnew. rewrite Hnew.
    f_equal.
  - apply eq_None_not_Some. rewrite Hdom. intros (b & Hb & Hname).
    vm_compute in Hb. apply list_elem_of_singleton in Hb as ->. done.
Defined.

Lemma reset_array_container_recording_state_witness :
  ∃ arrays' rs',
    reset_array_container example_recording_arrays example_source_objects false true
    = Ok arrays'
    ∧ ArrayContainer.recording_state arrays' = Some rs'
    ∧ ∀ a', RecordingState.data rs' !! "field" = Some a' →
            shape a' = [2] ∧ length (data a') = 2
            ∧ data a' !! 0 = Some (SpecFloat.S754_zero false)
            ∧ data a' !! 1 = Some SpecFloat.S754_nan.
Proof.
  destruct (reset_array_container example_recording_arrays example_source_objects
              false true) as [arrays'|e] eqn:Hreset; [|by vm_compute in Hreset].
  pose proof (reset_array_container_recording_state _ _ _ _ _ Hreset) as Hrec.
  simpl in Hrec. destruct Hrec as (rs' & Hrs' & _ & _ & Hzero).
  exists arrays', rs'. split; [done|]. split; [done|].
  intros a' Ha'.
  destruct (Hzero "field" (NdArray [2] [f32_of_Z 5; SpecFloat.S754_infinity false]) a')
    as (Hshape & Hlen & Hdata); [left; split; [reflexivity|done]|].
  split; [exact Hshape|]. split; [exact Hlen|].
  split; [exact (Hdata 0 _ eq_refl)|exact (Hdata 1 _ eq_refl)].
Defined.

(** ** [latent.py]: [StandardToInversePermittivityRange.transform] *)

Section inverse_permittivity.
Context {M : Type}.
Variable permittivity : M → Qc.

Local Abbreviation bounds_step := StandardToInversePermittivityRange.bounds_step.
Local Abbreviation dict_bounds :=
  (StandardToInversePermittivityRange.dict_bounds permittivity).
Local Abbreviation transform :=
  (StandardToInversePermittivityRange.transform permittivity).

Lemma bounds_fold_finite (ps : list Qc) (h l : Qc) :
  ∃ h' l',
    fold_left bounds_step (Finite <$> ps) (Finite h, Finite l) = (Finite h', Finite l')
    ∧ h' ∈ h :: ps ∧ l' ∈ l :: ps
    ∧ (h ≤ h')%Qc ∧ (l' ≤ l)%Qc
    ∧ ∀ p, p ∈ ps → (l' ≤ p ≤ h')%Qc.
Proof.
  revert h l. induction ps as [|p ps IH]; intros h l; simpl.
  - exists h, l. split_and!; try done; try by left.
    by intros p ?%elem_of_nil.
  - unfold StandardToInversePermittivityRange.bounds_step at 2. simpl.
    unfold pf_lt. simpl.
    set (h1 := if bool_decide (h < p)%Qc then Finite p else Finite h).
    set (l1 := if bool_decide (p < l)%Qc then Finite p else Finite l).
    assert (∃ h2, h1 = Finite h2 ∧ h2 ∈ [h; p] ∧ (h ≤ h2)%Qc ∧ (p ≤ h2)%Qc)
      as (h2 & -> & Hh2 & Hhh & Hph).
    { unfold h1. case_bool_decide as Hc.
      - exists p. split_and!; [done|by right; left|by apply Qclt_le_weak|done].
      - exists h. split_and!; [done|by left|done|by apply Qcnot_lt_le]. }
    assert (∃ l2, l1 = Finite l2 ∧ l2 ∈ [l; p] ∧ (l2 ≤ l)%Qc ∧ (l2 ≤ p)%Qc)
      as (l2 & -> & Hl2 & Hll & Hlp).
    { unfold l1. case_bool_decide as Hc.
      - exists p. split_and!; [done|by right; left|by apply Qclt_le_weak|done].
      - exists l. split_and!; [done|by left|done|by apply Qcnot_lt_le]. }
    destruct (IH h2 l2) as (h' & l' & Hfold & Hh' & Hl' & Hge & Hle & Hall).
    assert (∀ z z2 z0, z ∈ z2 :: ps → z2 ∈ [z0; p] → z ∈ z0 :: p :: ps) as Hmem.
    { intros z z2 z0 [->|Hz]%elem_of_cons Hz2; [|by do 2 right].
      apply elem_of_cons in Hz2 as [->|Hz2]; [by left|right].
      apply list_elem_of_singleton in Hz2 as ->. by left. }
    exists h', l'. split_and!; [done| | | | |].
    + by eapply Hmem.
    + by eapply Hmem.
    + by etrans.
    + by etrans.
    + intros q [->|Hq]%elem_of_cons; [|by apply Hall].
      split; by etrans.
Qed.

Lemma bounds_fold_first (ps : list Qc) (p : Qc) :
  ∃ h' l',
    fold_left bounds_step (Finite <$> (p :: ps)) (MinusInf, PlusInf)
    = (Finite h', Finite l')
    ∧ h' ∈ p :: ps ∧ l' ∈ p :: ps
    ∧ ∀ q, q ∈ p :: ps → (l' ≤ q ≤ h')%Qc.
Proof.
  simpl. unfold StandardToInversePermittivityRange.bounds_step at 2. simpl.
  destruct (bounds_fold_finite ps p p) as (h' & l' & Hfold & Hh' & Hl' & Hge & Hle & Hall).
  exists h', l'. split_and!; try done.
  intros q [->|Hq]%elem_of_cons; [done|by apply Hall].
Qed.

Lemma dict_bounds_fold (items : list (string * M)) acc :
  (∀ kv, kv ∈ items → permittivity kv.2 ≠ 0%Qc) →
  dict_bounds items acc
  = Ok (fold_left bounds_step
          (Finite <$> ((λ kv, 1 / permittivity kv.2)%Qc <$> items)) acc).
Proof.
  revert acc. induction items as [|[k v] items IH]; intros acc Hnz; simpl; [done|].
  rewrite decide_False by (apply (Hnz (k, v)); by left).
  apply IH. intros kv Hkv. apply Hnz. by right.
Qed.

Lemma dict_bounds_zero (items : list (string * M)) acc :
  (∃ kv, kv ∈ items ∧ permittivity kv.2 = 0%Qc) ↔
  dict_bounds items acc = Raise (Exception "float division by zero").
Proof.
  revert acc. induction items as [|[k v] items IH]; intros acc; simpl.
  - split; [by intros (kv & ?%elem_of_nil & _)|done].
  - destruct (decide (permittivity v = 0%Qc)) as [Hz|Hz].
    + split; [done|]. intros _. exists (k, v). split; [by left|done].
    + rewrite <-IH. split.
      * intros (kv & [->|Hkv]%elem_of_cons & Hzero); [done|by exists kv].
      * intros (kv & Hkv & Hzero). exists kv. split; [by right|done].
Qed.

Lemma dict_bounds_Raise (items : list (string * M)) acc e :
  dict_bounds items acc = Raise e → e = Exception "float division by zero".
Proof.
  revert acc. induction items as [|[k v] items IH]; intros acc; simpl; [done|].
  destruct (decide (permittivity v = 0%Qc)); [congruence|apply IH].
Qed.

Lemma mapped_finite (hi lo : Qc) (a : ndarray Qc) :
  StandardToInversePermittivityRange.mapped (Finite hi) (Finite lo) a
  = finite_array (StandardToCustomRange.mapped
      {| StandardToCustomRange.min_value := lo;
         StandardToCustomRange.max_value := hi |} a).
Proof.
  unfold StandardToInversePermittivityRange.mapped, finite_array,
    StandardToCustomRange.mapped. simpl. f_equal.
  rewrite <-list_fmap_compose. done.
Qed.

Lemma transform_finite_bounds (self : StandardToInversePermittivityRange.t) hi lo input :
  StandardToInversePermittivityRange.bounds permittivity self = Ok (Finite hi, Finite lo) →
  transform self input
  = Ok (finite_latent (StandardToCustomRange.transform
      {| StandardToCustomRange.min_value := lo;
         StandardToCustomRange.max_value := hi |} input)).
Proof.
  intros Hb. unfold StandardToInversePermittivityRange.transform. rewrite Hb.
  f_equal. destruct input as [arr|entries]; simpl.
  - f_equal. apply mapped_finite.
  - f_equal. rewrite <-map_fmap_compose. apply map_fmap_ext.
    intros k a _. apply mapped_finite.
Qed.

(** X12.  With a dictionary of materials, none of permittivity zero and at least
    one, [StandardToInversePermittivityRange.transform] is the custom-range
    transformation whose [min_value] and [max_value] are the smallest and
    the largest inverse permittivity of the dictionary. *)
Theorem inverse_permittivity_dict (self : StandardToInversePermittivityRange.t)
    (d : gmap string M) input :
  StandardToInversePermittivityRange._material self = MaterialDict d →
  d ≠ ∅ →
  (∀ k m, d !! k = Some m → permittivity m ≠ 0%Qc) →
  ∃ lo hi,
    (∃ k m, d !! k = Some m ∧ lo = (1 / permittivity m)%Qc)
    ∧ (∃ k m, d !! k = Some m ∧ hi = (1 / permittivity m)%Qc)
    ∧ (∀ k m, d !! k = Some m → (lo ≤ 1 / permittivity m ≤ hi)%Qc)
    ∧ transform self input
      = Ok (finite_latent (StandardToCustomRange.transform
          {| StandardToCustomRange.min_value := lo;
             StandardToCustomRange.max_value := hi |} input)).
Proof.
  intros Hmat Hne Hnz.
  assert (∀ kv, kv ∈ map_to_list d → permittivity kv.2 ≠ 0%Qc) as Hnz'.
  { intros [k m] Hkm%elem_of_map_to_list. by eapply Hnz. }
  destruct (map_to_list d) as [|kv0 items] eqn:Hitems.
  { by apply map_to_list_empty_iff in Hitems. }
  destruct (bounds_fold_first ((λ kv, 1 / permittivity kv.2)%Qc <$> items)
              (1 / permittivity kv0.2)%Qc)
    as (hi & lo & Hfold & Hhi & Hlo & Hall).
  change (?p :: (?f <$> items)) with (f <$> (kv0 :: items)) in Hfold, Hhi, Hlo, Hall.
  rewrite <-Hitems in Hfold, Hhi, Hlo, Hall.
  assert (∀ q, q ∈ (λ kv, 1 / permittivity kv.2)%Qc <$> map_to_list d ↔
               ∃ k m, d !! k = Some m ∧ q = (1 / permittivity m)%Qc) as Hmem.
  { intros q. rewrite list_elem_of_fmap. split.
    - intros ([k m] & -> & Hkm%elem_of_map_to_list). by exists k, m.
    - intros (k & m & Hkm & ->). exists (k, m). split; [done|].
      by apply elem_of_map_to_list. }
  exists lo, hi. split_and!.
  - by apply Hmem.
  - by apply Hmem.
  - intros k m Hkm. apply Hall, Hmem. by exists k, m.
  - apply transform_finite_bounds.
    unfold StandardToInversePermittivityRange.bounds. rewrite Hmat.
    rewrite dict_bounds_fold by (rewrite Hitems; exact Hnz').
    by rewrite Hfold.
Qed.

(** X13.  With a continuous material range the bounds are the smaller and the
    larger of the two {e permittivities} (no inverse is taken in this
    branch): the transformation is the custom-range transformation onto the
    interval between [start_material.permittivity] and
    [end_material.permittivity]. *)
Theorem inverse_permittivity_range (self : StandardToInversePermittivityRange.t)
    (start_material end_material : M) input :
  StandardToInversePermittivityRange._material self
  = MaterialRange start_material end_material →
  ∃ lo hi,
    (lo ≤ hi)%Qc
    ∧ ((lo = permittivity start_material ∧ hi = permittivity end_material)
       ∨ (lo = permittivity end_material ∧ hi = permittivity start_material))
    ∧ transform self input
      = Ok (finite_latent (StandardToCustomRange.transform
          {| StandardToCustomRange.min_value := lo;
             StandardToCustomRange.max_value := hi |} input)).
Proof.
  intros Hmat.
  set (s := permittivity start_material). set (e := permittivity end_material).
  destruct (Qclt_le_dec s e) as [Hlt|Hle].
  - exists s, e. split; [by apply Qclt_le_weak|]. split; [by left|].
    apply transform_finite_bounds.
    unfold StandardToInversePermittivityRange.bounds. rewrite Hmat.
    unfold py_max, py_min, pf_lt. simpl. fold s e.
    rewrite bool_decide_eq_true_2 by done.
    rewrite bool_decide_eq_false_2 by (by apply Qcle_not_lt, Qclt_le_weak).
    done.
  - destruct (decide (e = s)) as [Heq|Hne].
    + exists s, e. split; [by rewrite Heq|]. split; [by left|].
      apply transform_finite_bounds.
      unfold StandardToInversePermittivityRange.bounds. rewrite Hmat.
      unfold py_max, py_min, pf_lt. simpl. fold s e. rewrite Heq.
      rewrite bool_decide_eq_false_2 by (intros Hss; by destruct (Qclt_not_eq s s)).
      done.
    + assert (e < s)%Qc as Hlt.
      { destruct (Qcle_lt_or_eq _ _ Hle); [done|congruence]. }
      exists e, s. split; [done|]. split; [by right|].
      apply transform_finite_bounds.
      unfold StandardToInversePermittivityRange.bounds. rewrite Hmat.
      unfold py_max, py_min, pf_lt. simpl. fold s e.
      rewrite bool_decide_eq_false_2 by (by apply Qcle_not_lt).
      rewrite bool_decide_eq_true_2 by done.
      done.
Qed.

(** X14.  The transformation raises exactly when the material is a dictionary
    that holds a material of permittivity zero, and then it is the division
    that fails. *)
Theorem inverse_permittivity_raises (self : StandardToInversePermittivityRange.t)
    input e :
  transform self input = Raise e ↔
  e = Exception "float division by zero"
  ∧ ∃ d k m, StandardToInversePermittivityRange._material self = MaterialDict d
             ∧ d !! k = Some m ∧ permittivity m = 0%Qc.
Proof.
  unfold StandardToInversePermittivityRange.transform,
    StandardToInversePermittivityRange.bounds.
  destruct (StandardToInversePermittivityRange._material self) as [m|d|ms me].
  - split; [done|]. by intros (_ & d & k & m' & ? & _).
  - destruct (dict_bounds _ _) as [[hi lo]|e'] eqn:Hb.
    + split; [done|]. intros (_ & d' & k & m & [= <-] & Hkm & Hz).
      assert (dict_bounds (map_to_list d) (MinusInf, PlusInf)
              = Raise (Exception "float division by zero")) as Hr; [|congruence].
      apply dict_bounds_zero. exists (k, m). split; [|done].
      by apply elem_of_map_to_list.
    + pose proof (dict_bounds_Raise _ _ _ Hb) as ->. split.
      * intros [= <-]. split; [done|].
        apply dict_bounds_zero in Hb as ([k m] & Hkm%elem_of_map_to_list & Hz).
        by exists d, k, m.
      * by intros [-> _].
  - split; [done|]. by intros (_ & d & k & m' & ? & _).
Qed.

(** X15.  With an empty dictionary of materials, or a material that is neither a
    dictionary nor a range, the bounds stay at the two infinities and no
    entry of the output is a number: a negative input entry gives
    [math.inf], every other one not-a-number. *)
Theorem inverse_permittivity_no_material (self : StandardToInversePermittivityRange.t)
    input key a i x :
  (StandardToInversePermittivityRange._material self = MaterialDict ∅
   ∨ ∃ m, StandardToInversePermittivityRange._material self = OneMaterial m) →
  latent_lookup input key = Some a →
  data a !! i = Some x →
  ∃ out a',
    transform self input = Ok out
    ∧ float_latent_lookup out key = Some a'
    ∧ data a' !! i = Some (if bool_decide (x < 0)%Qc then PlusInf else NaN).
Proof.
  intros Hmat Ha Hx.
  assert (StandardToInversePermittivityRange.bounds permittivity self
          = Ok (MinusInf, PlusInf)) as Hb.
  { unfold StandardToInversePermittivityRange.bounds.
    destruct Hmat as [->|[m ->]]; [by rewrite map_to_list_empty|done]. }
  unfold StandardToInversePermittivityRange.transform. rewrite Hb.
  eexists _, (StandardToInversePermittivityRange.mapped MinusInf PlusInf a).
  split; [reflexivity|]. split.
  - destruct input as [arr|entries], key as [k|]; simpl in *; try done.
    + congruence.
    + by rewrite lookup_fmap, Ha.
  - unfold StandardToInversePermittivityRange.mapped. simpl.
    rewrite list_lookup_fmap, Hx. simpl. f_equal.
    unfold pf_signed_inf.
    destruct (Qc_dec 0 x) as [[Hpos|Hneg]|<-].
    + rewrite bool_decide_eq_true_2 by done.
      rewrite (bool_decide_eq_false_2 (x < 0)%Qc)
        by (by apply Qcle_not_lt, Qclt_le_weak). done.
    + rewrite bool_decide_eq_false_2 by (by apply Qcle_not_lt, Qclt_le_weak).
      rewrite bool_decide_eq_true_2 by done. done.
    + rewrite !bool_decide_eq_false_2
        by (intros H0; by destruct (Qclt_not_eq 0 0)). done.
Qed.
End inverse_permittivity.

Lemma inverse_permittivity_dict_witness :
  let d : gmap string Qc := {[ "air" := Qc_of_Z 1; "polymer" := Qc_of_Z 4 ]} in
  StandardToInversePermittivityRange._material example_inverse_dict = MaterialDict d
  ∧ d ≠ ∅
  ∧ (∀ k m, d !! k = Some m → m ≠ 0%Qc)
  ∧ ∃ lo hi,
      (lo ≤ hi)%Qc
      ∧ StandardToInversePermittivityRange.transform id example_inverse_dict
          (Single example_latent_array)
        = Ok (finite_latent (StandardToCustomRange.transform
            {| StandardToCustomRange.min_value := lo;
               StandardToCustomRange.max_value := hi |} (Single example_latent_array))).
Proof.
  intros d.
  assert (d ≠ ∅) as Hne.
  { intros Hd. apply (f_equal (λ m : gmap string Qc, m !! "air")) in Hd.
    vm_compute in Hd. discriminate. }
  assert (∀ k m, d !! k = Some m → id m ≠ 0%Qc) as Hnz.
  { intros k m Hkm%elem_of_map_to_list. vm_compute in Hkm.
    apply elem_of_cons in Hkm as [[= _ ->]|Hkm]; [done|].
    apply list_elem_of_singleton in Hkm as [= _ ->]. done. }
  split; [reflexivity|]. split; [exact Hne|]. split; [exact Hnz|].
  destruct (inverse_permittivity_dict id example_inverse_dict d
              (Single example_latent_array) eq_refl Hne Hnz)
    as (lo & hi & (k & m & Hkm & ->) & _ & Hall & Htransform).
  exists (1 / id m)%Qc, hi. split; [|exact Htransform].
  by destruct (Hall k m Hkm).
Defined.

Lemma inverse_permittivity_range_witness :
  StandardToInversePermittivityRange._material example_inverse_range
  = MaterialRange (Qc_of_Z 4) (Qc_of_Z 1)
  ∧ ∃ lo hi,
      (lo ≤ hi)%Qc
      ∧ StandardToInversePermittivityRange.transform id example_inverse_range
          (Single example_latent_array)
        = Ok (finite_latent (StandardToCustomRange.transform
            {| StandardToCustomRange.min_value := lo;
               StandardToCustomRange.max_value := hi |} (Single example_latent_array))).
Proof.
  split; [reflexivity|].
  destruct (inverse_permittivity_range id example_inverse_range _ _
              (Single example_latent_array) eq_refl)
    as (lo & hi & Hle & _ & Htransform).
  exists lo, hi. split; [exact Hle|exact Htransform].
Defined.

Lemma inverse_permittivity_no_material_witness :
  (StandardToInversePermittivityRange._material example_inverse_none = MaterialDict ∅
   ∨ ∃ m, StandardToInversePermittivityRange._material example_inverse_none
          = OneMaterial m)
  ∧ latent_lookup (Single example_latent_array) None = Some example_latent_array
  ∧ data example_latent_array !! 1 = Some (Q2Qc (1 # 2))
  ∧ ∃ out a',
      StandardToInversePermittivityRange.transform id example_inverse_none
        (Single example_latent_array) = Ok out
      ∧ float_latent_lookup out None = Some a'
      ∧ data a' !! 1 = Some NaN.
Proof.
  assert (StandardToInversePermittivityRange._material example_inverse_none
          = MaterialDict ∅
          ∨ ∃ m, StandardToInversePermittivityRange._material example_inverse_none
                 = OneMaterial m) as Hmat by (by left).
  split; [exact Hmat|]. split; [reflexivity|]. split; [reflexivity|].
  destruct (inverse_permittivity_no_material id example_inverse_none
              (Single example_latent_array) None example_latent_array 1 _
              Hmat eq_refl eq_refl)
    as (out & a' & Hout & Ha' & Hy).
  exists out, a'. split; [exact Hout|]. split; [exact Ha'|]. exact Hy.
Defined.

(** ** [check_shape_dtype] *)

Lemma check_items_Ok items expected :
  check_items items expected = Ok tt ↔ Forall (array_as_expected expected) items.
Proof.
  induction items as [|[k arr] items IH]; simpl.
  - split; [by constructor|done].
  - rewrite Forall_cons, <-IH. unfold array_as_expected at 1. simpl.
    destruct (expected !! k) as [exp|] eqn:Hexp.
    + destruct (decide (JaxArray.dtype arr ≠ ShapeDtypeStruct.dtype exp)) as [Hd|Hd].
      { split; [done|]. intros [(exp' & [= <-] & Hd' & _) _]. done. }
      apply dec_stable in Hd.
      destruct (decide (shape (JaxArray.values arr) ≠ ShapeDtypeStruct.shape exp))
        as [Hs|Hs].
      { split; [done|]. intros [(exp' & [= <-] & _ & Hs') _]. done. }
      apply dec_stable in Hs. split; [|tauto].
      intros Hrest. split; [by exists exp|done].
    + split; [done|]. by intros [(exp' & ? & _) _].
Qed.

Lemma check_items_Raise items expected e :
  check_items items expected = Raise e ↔
  ∃ l1 k arr l2,
    items = l1 ++ (k, arr) :: l2
    ∧ Forall (array_as_expected expected) l1
    ∧ match expected !! k with
      | None => e = KeyError k
      | Some exp_shape_dtype =>
          if decide (JaxArray.dtype arr = ShapeDtypeStruct.dtype exp_shape_dtype)
          then shape (JaxArray.values arr) ≠ ShapeDtypeStruct.shape exp_shape_dtype
               ∧ e = Exception "Wrong shape"
          else e = Exception "Wrong dtype"
      end.
Proof.
  induction items as [|[k arr] items IH]; simpl.
  - split; [done|]. by intros ([|??] & ? & ? & ? & ? & _).
  - assert (∀ P : string → JaxArray.t → Prop,
      (∃ l1 k' arr' l2, (k, arr) :: items = l1 ++ (k', arr') :: l2
         ∧ Forall (array_as_expected expected) l1 ∧ P k' arr') ↔
      P k arr ∨ (array_as_expected expected (k, arr)
                 ∧ ∃ l1 k' arr' l2, items = l1 ++ (k', arr') :: l2
                     ∧ Forall (array_as_expected expected) l1 ∧ P k' arr'))
      as Hsplit.
    { intros P. split.
      - intros ([|x l1] & k' & arr' & l2 & Heq & Hall & HP); simpl in Heq;
          simplify_eq; [by left|right].
        apply Forall_cons in Hall as [Hx Hall]. split; [done|].
        by exists l1, k', arr', l2.
      - intros [HP|(Hx & l1 & k' & arr' & l2 & -> & Hall & HP)].
        + exists [], k, arr, items. split_and!; [done|by constructor|done].
        + exists ((k, arr) :: l1), k', arr', l2.
          split_and!; [done|by constructor|done]. }
    rewrite (Hsplit (λ k arr,
      match expected !! k with
      | None => e = KeyError k
      | Some exp =>
          if decide (JaxArray.dtype arr = ShapeDtypeStruct.dtype exp)
          then shape (JaxArray.values arr) ≠ ShapeDtypeStruct.shape exp
               ∧ e = Exception "Wrong shape"
          else e = Exception "Wrong dtype"
      end)).
    rewrite <-IH. unfold array_as_expected. simpl.
    destruct (expected !! k) as [exp|] eqn:Hexp.
    + destruct (decide (JaxArray.dtype arr ≠ ShapeDtypeStruct.dtype exp)) as [Hd|Hd].
      { destruct (decide (JaxArray.dtype arr = ShapeDtypeStruct.dtype exp)); [done|].
        split; [intros [= <-]; by left|].
        intros [->|[(exp' & [= <-] & Hd' & _) _]]; done. }
      apply dec_stable in Hd.
      destruct (decide (JaxArray.dtype arr = ShapeDtypeStruct.dtype exp)); [|done].
      destruct (decide (shape (JaxArray.values arr) ≠ ShapeDtypeStruct.shape exp))
        as [Hs|Hs].
      { split; [intros [= <-]; by left|].
        intros [[_ ->]|[(exp' & [= <-] & _ & Hs') _]]; done. }
      apply dec_stable in Hs. split.
      * intros Hrest. right. split; [by exists exp|done].
      * intros [[Hs' _]|[_ Hrest]]; done.
    + split; [intros [= <-]; by left|].
      intros [->|[(exp' & ? & _) _]]; done.
Qed.

(** X16.  [check_shape_dtype] returns without raising exactly when the two
    arguments have the same structure, every array has an expected entry
    under its key with the same dtype and shape, and, for the method
    "exact", there are as many arrays as expected entries.  Any other method
    string behaves as "arrays_only": expected entries without an array are
    not looked at. *)
Theorem check_shape_dtype_returns arrays expected method :
  check_shape_dtype arrays expected method = Ok tt ↔
  same_structure arrays expected
  ∧ (method = "exact" → length (arrays_items arrays) = size (expected_dict expected))
  ∧ Forall (array_as_expected (expected_dict expected)) (arrays_items arrays).
Proof.
  unfold check_shape_dtype.
  destruct arrays as [arr|items], expected as [s|d]; cbn [same_structure];
    try (rewrite bool_decide_eq_true_2 by done; split; [done|tauto]).
  all: rewrite bool_decide_eq_false_2 by done.
  all: rewrite <-check_items_Ok.
  all: destruct (decide (method = "exact")) as [->|Hm];
    [rewrite bool_decide_eq_true_2 by done
    |rewrite (bool_decide_eq_false_2 (method = "exact")) by done]; cbn [andb];
    try tauto.
  all: case_bool_decide as Hlen;
    [split; [done|]; intros (_ & Hl & _); destruct Hlen; by apply Hl
    |tauto].
Qed.

(** X17.  When the check with method "exact" passes for a dictionary of arrays
    (whose keys are distinct, as those of a dictionary are), the expected
    dictionary has exactly the keys of the arrays: no expected entry is
    left without an array. *)
Theorem check_shape_dtype_exact_keys items d :
  NoDup items.*1 →
  check_shape_dtype (ArrayDict items) (StructDict d) "exact" = Ok tt →
  ∀ k, is_Some (d !! k) ↔ k ∈ items.*1.
Proof.
  intros Hnodup Hok k. unfold check_shape_dtype in Hok.
  rewrite bool_decide_eq_false_2, bool_decide_eq_true_2 in Hok by done.
  cbn [andb arrays_items expected_dict] in Hok.
  case_bool_decide as Hlen; [done|].
  apply check_items_Ok in Hok.
  assert (list_to_set items.*1 ⊆ dom d) as Hsub.
  { intros k' Hk'%elem_of_list_to_set%list_elem_of_fmap.
    destruct Hk' as ([k'' arr] & -> & Hin).
    rewrite Forall_forall in Hok. destruct (Hok _ Hin) as (exp & Hexp & _).
    by apply elem_of_dom. }
  assert (list_to_set items.*1 ≡@{gset string} dom d) as Heq.
  { apply set_subseteq_size_equiv; [done|].
    rewrite size_dom, size_list_to_set by done.
    rewrite length_fmap. lia. }
  rewrite <-elem_of_dom, <-(Heq k). apply elem_of_list_to_set.
Qed.

Lemma check_shape_dtype_exact_keys_witness :
  let items := [("b", example_float_array); ("a", example_float_array)] in
  NoDup items.*1
  ∧ check_shape_dtype (ArrayDict items) (StructDict example_expected) "exact" = Ok tt
  ∧ (is_Some (example_expected !! "a") ↔ "a" ∈ items.*1).
Proof.
  intros items.
  assert (NoDup items.*1) as Hnodup by (apply (bool_decide_unpack _); by vm_compute).
  assert (check_shape_dtype (ArrayDict items) (StructDict example_expected) "exact"
          = Ok tt) as Hok by (vm_compute; reflexivity).
  split; [exact Hnodup|]. split; [exact Hok|].
  apply (check_shape_dtype_exact_keys items example_expected Hnodup Hok "a").
Defined.

(** X18.  When the arguments have the same structure and the length test does not
    fire, [check_shape_dtype] raises for the first array, in iteration order,
    that does not agree with its expected entry: [KeyError] when there is no
    entry under its key, "Wrong dtype" when the dtypes differ, "Wrong shape"
    when only the shapes differ. *)
Theorem check_shape_dtype_first_offender items d method e :
  (method = "exact" → length items = size d) →
  (check_shape_dtype (ArrayDict items) (StructDict d) method = Raise e ↔
   ∃ l1 k arr l2,
     items = l1 ++ (k, arr) :: l2
     ∧ Forall (array_as_expected d) l1
     ∧ match d !! k with
       | None => e = KeyError k
       | Some exp_shape_dtype =>
           if decide (JaxArray.dtype arr = ShapeDtypeStruct.dtype exp_shape_dtype)
           then shape (JaxArray.values arr) ≠ ShapeDtypeStruct.shape exp_shape_dtype
                ∧ e = Exception "Wrong shape"
           else e = Exception "Wrong dtype"
       end).
Proof.
  intros Hlen. rewrite <-check_items_Raise. unfold check_shape_dtype.
  rewrite bool_decide_eq_false_2 by done. cbn [arrays_items expected_dict].
  destruct (decide (method = "exact")) as [Hm|Hm].
  - rewrite (bool_decide_eq_true_2 _ Hm). cbn [andb].
    by rewrite bool_decide_eq_false_2 by (intros Hne; by apply Hne, Hlen).
  - by rewrite (bool_decide_eq_false_2 _ Hm).
Qed.

Lemma check_shape_dtype_first_offender_witness :
  let items := [("a", example_float_array); ("c", example_float_array)] in
  ("arrays_only" = "exact" → length items = size example_expected)
  ∧ check_shape_dtype (ArrayDict items) (StructDict example_expected) "arrays_only"
    = Raise (KeyError "c").
Proof.
  intros items.
  assert ("arrays_only" = "exact" → length items = size example_expected) as Hlen
    by done.
  split; [exact Hlen|].
  apply (check_shape_dtype_first_offender items example_expected "arrays_only"
           (KeyError "c") Hlen).
  exists [("a", example_float_array)], "c", example_float_array, [].
  split; [reflexivity|]. split; [|reflexivity].
  constructor; [|constructor]. eexists. split; [reflexivity|]. by split.
Defined.

(** ** [circular_brush] *)

Lemma lookup_total_tabulate {A} `{Inhabited A} n (f : nat → A) i :
  i < n → tabulate n f !!! i = f i.
Proof. intros Hi. apply list_lookup_total_correct. by apply lookup_tabulate. Qed.

Lemma circular_brush_default_size (diameter : Qc) :
  (0 ≤ diameter)%Qc →
  let s := Qceiling diameter in
  let size := if decide (s mod 2 = 0)%Z then (s + 1)%Z else s in
  (0 < size)%Z ∧ (size mod 2 = 1)%Z
  ∧ (diameter ≤ Qc_of_Z size)%Qc ∧ (Qc_of_Z size < diameter + 2)%Qc.
Proof.
  intros Hd s size.
  assert (0 ≤ s)%Z as Hs.
  { change 0%Z with (Qceiling 0). apply Qceiling_resp_le. exact Hd. }
  assert (diameter ≤ Qc_of_Z s)%Qc as Hle.
  { unfold Qcle. simpl. apply Qle_ceiling. }
  assert (Qc_of_Z s < diameter + 1)%Qc as Hlt.
  { apply (Qcplus_lt_mono_r _ _ (-1)).
    replace (diameter + 1 + -1)%Qc with diameter by ring.
    assert (Qc_of_Z s + -1 = Qc_of_Z (s - 1))%Qc as ->.
    { by rewrite Z2Qc_inj_sub, Z2Qc_inj_1. }
    unfold Qclt. simpl. apply Qceiling_lt. }
  unfold size. destruct (decide (s mod 2 = 0)%Z) as [Heven|Hodd].
  - split_and!.
    + lia.
    + rewrite Z.add_mod, Heven by lia. done.
    + etrans; [exact Hle|]. apply (proj1 (Z2Qc_inj_le _ _)). lia.
    + rewrite Z2Qc_inj_add, Z2Qc_inj_1.
      replace (diameter + 2)%Qc with (diameter + 1 + 1)%Qc by ring.
      by apply Qcplus_lt_mono_r.
  - assert (s mod 2 = 1)%Z as Hone.
    { pose proof (Z.mod_pos_bound s 2 ltac:(lia)). lia. }
    split_and!.
    + destruct (decide (s = 0%Z)) as [Hz|Hnz]; [|lia].
      rewrite Hz in Hodd. by destruct Hodd.
    + done.
    + done.
    + etrans; [exact Hlt|]. apply Qcplus_lt_mono_l.
      by vm_compute.
Qed.

Lemma circular_brush_cell (diameter : Qc) (z : Z) i j :
  i < Z.to_nat z → j < Z.to_nat z →
  let coord (i : nat) := (Qc_of_Z (Z.of_nat i) - (Qc_of_Z z / 2 - 1 / 2))%Qc in
  brush_at (circular_brush diameter (Some z)) i j
  = bool_decide (0 ≤ diameter / 2
                 ∧ coord j * coord j + coord i * coord i
                   ≤ (diameter / 2) * (diameter / 2))%Qc.
Proof.
  intros Hi Hj coord. unfold brush_at, circular_brush.
  rewrite lookup_total_tabulate by done.
  by rewrite lookup_total_tabulate by done.
Qed.

Lemma circular_brush_coord_mirror (z : Z) i :
  i < Z.to_nat z →
  (Qc_of_Z (Z.of_nat (Z.to_nat z - 1 - i)) - (Qc_of_Z z / 2 - 1 / 2)
   = - (Qc_of_Z (Z.of_nat i) - (Qc_of_Z z / 2 - 1 / 2)))%Qc.
Proof.
  intros Hi.
  replace (Z.of_nat (Z.to_nat z - 1 - i)) with (z - 1 - Z.of_nat i)%Z by lia.
  rewrite !Z2Qc_inj_sub, Z2Qc_inj_1. field. discriminate.
Qed.

(** X19.  The mask of [circular_brush] is square, with the given [size] when one
    is given, and symmetric: it is unchanged by transposition and by
    mirroring the rows or the columns. *)
Theorem circular_brush_symmetric (diameter : Qc) (size : option Z) :
  let b := circular_brush diameter size in
  let n := length b in
  (∀ z, size = Some z → n = Z.to_nat z)
  ∧ (∀ i, i < n → length (b !!! i) = n)
  ∧ (∀ i j, i < n → j < n →
       brush_at b i j = brush_at b j i
       ∧ brush_at b i j = brush_at b (n - 1 - i) j
       ∧ brush_at b i j = brush_at b i (n - 1 - j)).
Proof.
  assert (∃ z, circular_brush diameter size = circular_brush diameter (Some z)
               ∧ ∀ z', size = Some z' → z = z') as (z & -> & Hz).
  { destruct size as [z|]; [by exists z; split; [|intros ? [= ->]]|].
    eexists. split; [reflexivity|done]. }
  intros b n.
  assert (n = Z.to_nat z) as Hn by apply length_tabulate.
  split_and!.
  - intros z' Hz'. by rewrite <-(Hz z' Hz').
  - intros i Hi. unfold b, circular_brush.
    rewrite lookup_total_tabulate by lia. by rewrite length_tabulate.
  - intros i j Hi Hj. unfold b.
    rewrite !circular_brush_cell by lia.
    rewrite Hn, !circular_brush_coord_mirror by lia.
    assert (∀ x : Qc, (- x * - x = x * x)%Qc) as Hsq by (intros x; ring).
    rewrite !Hsq.
    split_and!; apply bool_decide_ext; [|done..].
    match goal with
    | |- (_ ∧ ?a + ?b ≤ _)%Qc ↔ _ => by rewrite (Qcplus_comm a b)
    end.
Qed.

Lemma circular_brush_point_mirror (diameter : Qc) (z : Z) i j :
  i < Z.to_nat z → j < Z.to_nat z →
  brush_at (circular_brush diameter (Some z)) (Z.to_nat z - 1 - i) (Z.to_nat z - 1 - j)
  = brush_at (circular_brush diameter (Some z)) i j.
Proof.
  intros Hi Hj. rewrite !circular_brush_cell by lia.
  rewrite !circular_brush_coord_mirror by lia.
  assert (∀ x : Qc, (- x * - x = x * x)%Qc) as Hsq by (intros x; ring).
  by rewrite !Hsq.
Qed.

(** X20.  Called without a size and with a diameter that is not negative,
    [circular_brush] returns a mask of odd size, the least odd number of
    cells that is not below the diameter; the centre cell of the mask is
    set and the mask is a symmetric brush. *)
Theorem circular_brush_default (diameter : Qc) :
  (0 ≤ diameter)%Qc →
  let b := circular_brush diameter None in
  let n := length b in
  n mod 2 = 1
  ∧ (diameter ≤ Qc_of_Z (Z.of_nat n))%Qc
  ∧ (Qc_of_Z (Z.of_nat n) < diameter + 2)%Qc
  ∧ brush_centre b = true
  ∧ brush_symmetric b = true.
Proof.
  intros Hd b n.
  destruct (circular_brush_default_size diameter Hd) as (Hpos & Hodd & Hle & Hlt).
  set (z := if decide (Qceiling diameter mod 2 = 0)%Z
            then (Qceiling diameter + 1)%Z else Qceiling diameter) in *.
  assert (b = circular_brush diameter (Some z)) as Hb by reflexivity.
  assert (n = Z.to_nat z) as Hn by apply length_tabulate.
  assert (Z.of_nat n = z) as Hnz by lia.
  assert (n mod 2 = 1) as Hnodd.
  { apply Nat2Z.inj. rewrite Nat2Z.inj_mod, Hnz. done. }
  assert (length (b !!! 0) = n) as Hrow.
  { unfold b, circular_brush. fold z.
    rewrite lookup_total_tabulate by lia. by rewrite length_tabulate. }
  rewrite Hnz. split_and!; [done|done|done| |].
  - unfold brush_centre. rewrite Hrow.
    rewrite bool_decide_eq_true_2 by lia. cbn [andb].
    assert (length b = n) as -> by done.
    rewrite Hb, circular_brush_cell by (rewrite <-Hn; apply Nat.div_lt; lia).
    apply bool_decide_eq_true_2.
    assert (Qc_of_Z (Z.of_nat (n / 2)) - (Qc_of_Z z / 2 - 1 / 2) = 0)%Qc as ->.
    { assert (z = 2 * Z.of_nat (n / 2) + 1)%Z as Hz2.
      { rewrite <-Hnz at 1. rewrite Nat2Z.inj_div.
        pose proof (Z.div_mod (Z.of_nat n) 2 ltac:(lia)) as Hdm.
        rewrite Hnz in Hdm at 3. rewrite Hnz, Hodd in Hdm.
        rewrite Hnz. simpl. lia. }
      replace (Qc_of_Z z) with (Qc_of_Z (2 * Z.of_nat (n / 2) + 1))
        by (by rewrite <-Hz2).
      rewrite Z2Qc_inj_add, Z2Qc_inj_mul, Z2Qc_inj_1, Z2Qc_inj_2.
      field. discriminate. }
    assert (0 ≤ diameter / 2)%Qc as Hr.
    { replace 0%Qc with (0 * / 2)%Qc by ring. unfold Qcdiv.
      by apply Qcmult_le_mono_nonneg_r. }
    split; [done|].
    replace (0 * 0 + 0 * 0)%Qc with (0 * (diameter / 2))%Qc by ring.
    by apply Qcmult_le_mono_nonneg_r.
  - unfold brush_symmetric. rewrite Hrow. fold n.
    assert (2 * (n / 2) = n - 1) as ->.
    { pose proof (Nat.div_mod_eq n 2). lia. }
    apply forallb_forall. intros i Hi%in_seq.
    apply forallb_forall. intros j Hj%in_seq.
    destruct (brush_at b i j) eqn:Hcell; [|done]. cbn [implb].
    rewrite bool_decide_eq_true_2 by lia. cbn [andb].
    rewrite Hb, Hn, circular_brush_point_mirror by lia. by rewrite <-Hb.
Qed.

Lemma circular_brush_default_witness :
  (0 ≤ Q2Qc (5 # 2))%Qc
  ∧ length (circular_brush (Q2Qc (5 # 2)) None) = 3
  ∧ brush_centre (circular_brush (Q2Qc (5 # 2)) None) = true.
Proof.
  assert (0 ≤ Q2Qc (5 # 2))%Qc as Hd by (by vm_compute).
  split; [exact Hd|]. split; [by vm_compute|].
  by destruct (circular_brush_default (Q2Qc (5 # 2)) Hd) as (_ & _ & _ & Hc & _).
Defined.


(** ** The slice taken by [BrushConstraint2D.__call__] *)

(** X22.  Taking the slice at index 0 along an axis of size 1, as [__call__] does
    for the solver, and putting the axis back with [jnp.expand_dims], as it
    does for the result, gives the array back: the slice holds every entry
    of the input, in the input's order. *)
Theorem take0_expand_dims_round_trip (input : ndarray Qc) axis s0 s1 s2 :
  shape input = [s0; s1; s2] →
  length (data input) = s0 * s1 * s2 →
  [s0; s1; s2] !! axis = Some 1 →
  jnp_expand_dims (jnp_take0 input axis) axis = input
  ∧ data (jnp_take0 input axis) = data input.
Proof.
  destruct input as [sh d]. simpl. intros -> Hlen Haxis.
  assert (∀ c s, s ≠ 0 → c / s * s + c mod s = c) as Hdm.
  { intros c s Hs. pose proof (Nat.div_mod c s Hs). lia. }
  unfold jnp_expand_dims, jnp_take0. simpl.
  destruct axis as [|[|[|axis]]]; simpl in Haxis; [| | |done];
    injection Haxis as ->; simpl.
  - assert (tabulate2 s1 s2 (λ j k, d !!! ravel3 s1 s2 0 j k) = d) as ->; [|done].
    apply tabulate_eq_list; [lia|]. intros c Hc. f_equal. unfold ravel3.
    symmetry. apply Hdm. lia.
  - assert (tabulate2 s0 s2 (λ i k, d !!! ravel3 1 s2 i 0 k) = d) as ->; [|done].
    apply tabulate_eq_list; [lia|]. intros c Hc. f_equal. unfold ravel3.
    rewrite Nat.mul_1_r, Nat.add_0_r. symmetry. apply Hdm. lia.
  - assert (tabulate2 s0 s1 (λ i j, d !!! ravel3 s1 1 i j 0) = d) as ->; [|done].
    apply tabulate_eq_list; [lia|]. intros c Hc. f_equal. unfold ravel3.
    rewrite Nat.mul_1_r, Nat.add_0_r. symmetry. apply Hdm. lia.
Qed.

Lemma take0_expand_dims_round_trip_witness :
  shape example_pillar_input = [2; 1; 2]
  ∧ length (data example_pillar_input) = 2 * 1 * 2
  ∧ [2; 1; 2] !! 1 = Some 1
  ∧ jnp_expand_dims (jnp_take0 example_pillar_input 1) 1 = example_pillar_input.
Proof.
  split; [reflexivity|]. split; [reflexivity|]. split; [reflexivity|].
  by destruct (take0_expand_dims_round_trip example_pillar_input 1 2 1 2
                 eq_refl eq_refl eq_refl).
Defined.

(** ** Symmetric brushes: the mask and the void region *)

Section symmetric_brush_partition.
Variables (h w : nat) (brush : list (list bool)) (arr : list Qc).
Hypothesis Harr : length arr = h * w.
Hypothesis Hsym : brush_symmetric brush = true.

Local Abbreviation dilate f := (dilate_jax h w f brush).
Local Abbreviation state k := (Nat.iter k (body_fn h w brush arr) (init_val arr)).

End symmetric_brush_partition.


(** ** The one-cell brush: the solver thresholds the design *)

Lemma dilate_jax_unit h w (X : field) :
  length X = h * w → dilate_jax h w X unit_brush = X.
Proof.
  intros HX.
  assert (∀ i, dilate_jax h w X unit_brush !! i = Some true ↔ X !! i = Some true)
    as Htrue.
  { intros i. destruct (decide (i < h * w)) as [Hi|Hi].
    - rewrite dilate_jax_elem by done. split.
      + intros ([|a] & [|b] & Ha & Hb & _ & Hpx); simpl in *; try lia.
        apply pixel_at_true in Hpx as (n & Hn & Hy & Hx & HXn); [|done].
        replace i with n; [done|].
        pose proof (Nat.div_mod_eq n w). pose proof (Nat.div_mod_eq i w). nia.
      + intros HXi. exists 0, 0. simpl. split_and!; [lia|lia|done|].
        apply pixel_at_true; [done|]. exists i. split_and!; [done|lia|lia|done].
    - split; intros Hl%lookup_lt_Some; [rewrite length_dilate_jax in Hl|]; lia. }
  apply list_eq_same_length with (h * w); [done|apply length_dilate_jax|].
  intros i x y Hi Hx Hy.
  destruct x, y; try done.
  - apply Htrue in Hx. congruence.
  - apply Htrue in Hy. congruence.
Qed.

Lemma qc_pos_of_opp_lt (x : Qc) : (- x < x)%Qc → (0 < x)%Qc.
Proof.
  intros Hlt. destruct (Qclt_le_dec 0 x) as [|Hle]; [done|].
  exfalso. apply (Qclt_not_le _ _ Hlt).
  apply Qcle_trans with 0%Qc; [done|].
  replace 0%Qc with (- 0)%Qc by ring. by apply Qcopp_le_compat.
Qed.

Lemma qc_nonpos_of_le_opp (x : Qc) : (x ≤ - x)%Qc → (x ≤ 0)%Qc.
Proof.
  intros Hle. destruct (Qclt_le_dec 0 x) as [Hpos|]; [|done].
  exfalso. apply (Qcle_not_lt _ _ Hle).
  apply Qcle_lt_trans with 0%Qc; [|done].
  replace 0%Qc with (- 0)%Qc by ring. by apply Qcopp_le_compat, Qclt_le_weak.
Qed.

(** When both sides have the same candidates, the comparison of the two
    maxima commits a solid touch at a positive entry or a void touch at an
    entry that is not positive. *)
Lemma select_best_by_sign arr touch_v touch_s mask_s mask_v :
  length mask_s = length arr → length mask_v = length arr →
  (∀ i, mask_s !! i = Some true ↔ mask_v !! i = Some true) →
  (∃ i, mask_s !! i = Some true) →
  ∃ p x, mask_s !! p = Some true ∧ arr !! p = Some x
    ∧ (((0 < x)%Qc
        ∧ select_best arr touch_v touch_s mask_s mask_v
          = (touch_v, <[p := true]> touch_s))
       ∨ ((x ≤ 0)%Qc
          ∧ select_best arr touch_v touch_s mask_s mask_v
            = (<[p := true]> touch_v, touch_s))).
Proof.
  intros Hls Hlv Hsame Hex.
  assert (length mask_v = length (Qcopp <$> arr)) as Hlv' by by rewrite length_fmap.
  assert (∃ i, mask_v !! i = Some true) as Hex'.
  { destruct Hex as (i & Hi). exists i. by apply Hsame. }
  destruct (argmax_best_candidate mask_s arr Hls Hex)
    as ((Hps & xs & Hxs & _) & ms & Hms).
  destruct (argmax_best_candidate mask_v (Qcopp <$> arr) Hlv' Hex')
    as ((Hpv & yv & Hyv & _) & mv & Hmv).
  set (values_solid := where_neg_inf mask_s arr) in *.
  set (values_void := where_neg_inf mask_v (Qcopp <$> arr)) in *.
  assert (values_solid ≠ []) as Hnes by (intros Hnil; by rewrite Hnil in Hms).
  assert (values_void ≠ []) as Hnev by (intros Hnil; by rewrite Hnil in Hmv).
  pose proof (proj1 (jnp_argmax_spec values_solid Hnes)) as Hats.
  pose proof (proj1 (jnp_argmax_spec values_void Hnev)) as Hatv.
  assert (values_solid !! jnp_argmax values_solid = Some (Fin xs)) as Hvs
    by (by apply (lookup_where_neg_inf _ _ _ true)).
  assert (values_void !! jnp_argmax values_void = Some (Fin yv)) as Hvv
    by (by apply (lookup_where_neg_inf _ _ _ true)).
  rewrite Hvs in Hats. rewrite Hvv in Hatv.
  injection Hats as Hats. injection Hatv as Hatv.
  unfold select_best. fold values_solid values_void.
  case_bool_decide as Hcmp.
  - exists (jnp_argmax values_solid), xs. split_and!; [done|done|]. left.
    split; [|done]. apply qc_pos_of_opp_lt.
    assert (ext_le (Fin (- xs)) (jnp_max values_void)) as Hub.
    { apply (jnp_max_ub _ (jnp_argmax values_solid)).
      apply (lookup_where_neg_inf _ _ _ true); [by apply Hsame|].
      by rewrite list_lookup_fmap, Hxs. }
    pose proof (ext_le_lt_trans _ _ _ Hub Hcmp) as Hlt.
    by rewrite <-Hats in Hlt.
  - apply list_lookup_fmap_Some in Hyv as (xv & -> & Hxv).
    exists (jnp_argmax values_void), xv. split_and!; [by apply Hsame|done|]. right.
    split; [|done]. apply qc_nonpos_of_le_opp.
    assert (ext_le (Fin xv) (jnp_max values_solid)) as Hub.
    { apply (jnp_max_ub _ (jnp_argmax values_void)).
      apply (lookup_where_neg_inf _ _ _ true); [by apply Hsame|done]. }
    apply ext_le_ngt in Hcmp.
    pose proof (ext_le_trans _ _ _ Hub Hcmp) as Hle.
    by rewrite <-Hatv in Hle.
Qed.

Section unit_brush.
Variables (h w : nat) (arr : list Qc).
Hypothesis Harr : length arr = h * w.

Local Abbreviation state k := (Nat.iter k (body_fn h w unit_brush arr) (init_val arr)).

Lemma unit_touch_valid_solid touch_v touch_s i :
  length touch_v = h * w → length touch_s = h * w →
  touch_valid_solid h w unit_brush touch_v touch_s !! i = Some true ↔
  touch_v !! i = Some false ∧ touch_s !! i = Some false.
Proof.
  intros Hv Hs. unfold touch_valid_solid, touch_impossible_solid, pixel_existing_void.
  rewrite (dilate_jax_unit h w touch_v) by done.
  rewrite (dilate_jax_unit h w touch_v) by done.
  by rewrite elem_f_and, !elem_f_not.
Qed.

Lemma unit_touch_valid_void touch_v touch_s i :
  length touch_v = h * w → length touch_s = h * w →
  touch_valid_void h w unit_brush touch_v touch_s !! i = Some true ↔
  touch_s !! i = Some false ∧ touch_v !! i = Some false.
Proof.
  intros Hv Hs. unfold touch_valid_void, touch_impossible_void, pixel_existing_solid.
  rewrite (dilate_jax_unit h w touch_s) by done.
  rewrite (dilate_jax_unit h w touch_s) by done.
  by rewrite elem_f_and, !elem_f_not.
Qed.

Lemma unit_no_free_touch touch_v touch_s :
  length touch_v = h * w → length touch_s = h * w →
  free_touches_exist h w unit_brush touch_v touch_s = false.
Proof.
  intros Hv Hs. unfold free_touches_exist. apply jnp_any_false. intros i Hi.
  pose proof (length_touch_valid_solid h w unit_brush touch_v touch_s Hs) as Hlvs.
  pose proof (length_touch_valid_void h w unit_brush touch_v touch_s Hv) as Hlvv.
  apply elem_f_or in Hi as [Hi|Hi];
    [| |by rewrite length_touch_free_solid, length_touch_free_void].
  - unfold touch_free_solid in Hi. apply elem_f_and in Hi as [Hcover Hvalid].
    apply elem_f_not in Hcover.
    unfold pixel_possible_void, pixel_existing_void in Hcover.
    rewrite (dilate_jax_unit h w touch_v) in Hcover by done.
    rewrite (dilate_jax_unit h w (f_or touch_v _)) in Hcover
      by (by apply length_f_or_n).
    rewrite dilate_jax_unit in Hcover
      by (apply length_f_or_n; [by apply length_f_or_n|done]).
    assert (f_or (f_or touch_v (touch_valid_void h w unit_brush touch_v touch_s))
              touch_v !! i = Some true) as Htrue; [|congruence].
    apply elem_f_or; [rewrite length_f_or; congruence|]. left.
    apply elem_f_or; [congruence|]. right.
    apply unit_touch_valid_void; [done..|].
    apply unit_touch_valid_solid in Hvalid; [tauto|done..].
  - unfold touch_free_void in Hi. apply elem_f_and in Hi as [Hcover Hvalid].
    apply elem_f_not in Hcover.
    unfold pixel_possible_solid, pixel_existing_solid in Hcover.
    rewrite (dilate_jax_unit h w touch_s) in Hcover by done.
    rewrite (dilate_jax_unit h w (f_or touch_s _)) in Hcover
      by (by apply length_f_or_n).
    rewrite dilate_jax_unit in Hcover
      by (apply length_f_or_n; [by apply length_f_or_n|done]).
    assert (f_or (f_or touch_s (touch_valid_solid h w unit_brush touch_v touch_s))
              touch_s !! i = Some true) as Htrue; [|congruence].
    apply elem_f_or; [rewrite length_f_or; congruence|]. left.
    apply elem_f_or; [congruence|]. right.
    apply unit_touch_valid_solid; [done..|].
    apply unit_touch_valid_void in Hvalid; [tauto|done..].
Qed.

Lemma unit_no_resolving_touch touch_v touch_s :
  length touch_v = h * w → length touch_s = h * w →
  resolving_exists h w unit_brush touch_v touch_s = false.
Proof.
  intros Hv Hs. unfold resolving_exists. apply jnp_any_false. intros i Hi.
  pose proof (length_touch_valid_solid h w unit_brush touch_v touch_s Hs) as Hlvs.
  pose proof (length_touch_valid_void h w unit_brush touch_v touch_s Hv) as Hlvv.
  apply elem_f_or in Hi as [Hi|Hi];
    [| |by rewrite length_touch_resolving_solid, length_touch_resolving_void].
  - unfold touch_resolving_solid in Hi. apply elem_f_and in Hi as [Hreq Hvalid].
    unfold pixel_required_solid, pixel_possible_void, pixel_existing_solid in Hreq.
    rewrite (dilate_jax_unit h w touch_s) in Hreq by done.
    rewrite (dilate_jax_unit h w (f_or touch_v _)) in Hreq
      by (by apply length_f_or_n).
    rewrite dilate_jax_unit in Hreq
      by (apply length_f_and_n; apply length_f_not_n;
          [done|by apply length_f_or_n]).
    apply elem_f_and in Hreq as [_ Hnot]. apply elem_f_not in Hnot.
    assert (f_or touch_v (touch_valid_void h w unit_brush touch_v touch_s) !! i
            = Some true) as Htrue; [|congruence].
    apply elem_f_or; [congruence|]. right.
    apply unit_touch_valid_void; [done..|].
    apply unit_touch_valid_solid in Hvalid; [tauto|done..].
  - unfold touch_resolving_void in Hi. apply elem_f_and in Hi as [Hreq Hvalid].
    unfold pixel_required_void, pixel_possible_solid, pixel_existing_void in Hreq.
    rewrite (dilate_jax_unit h w touch_v) in Hreq by done.
    rewrite (dilate_jax_unit h w (f_or touch_s _)) in Hreq
      by (by apply length_f_or_n).
    rewrite dilate_jax_unit in Hreq
      by (apply length_f_and_n; apply length_f_not_n;
          [done|by apply length_f_or_n]).
    apply elem_f_and in Hreq as [_ Hnot]. apply elem_f_not in Hnot.
    assert (f_or touch_s (touch_valid_solid h w unit_brush touch_v touch_s) !! i
            = Some true) as Htrue; [|congruence].
    apply elem_f_or; [congruence|]. right.
    apply unit_touch_valid_solid; [done..|].
    apply unit_touch_valid_void in Hvalid; [tauto|done..].
Qed.

Lemma unit_uncovered touch_v touch_s :
  length touch_v = h * w → length touch_s = h * w →
  cond_fn h w unit_brush (touch_v, touch_s) = true →
  ∃ i, touch_v !! i = Some false ∧ touch_s !! i = Some false.
Proof.
  intros Hv Hs Hcond.
  pose proof (cond_fn_nonempty _ _ _ _ Hcond) as Hpos.
  destruct (false_or_all_true
              (λ i, (touch_s !!! i) || (touch_v !!! i)) (h * w - 1))
    as [(i & Hi & Hf)|Hall].
  - apply orb_false_iff in Hf as [Hfs Hfv]. exists i. split.
    + rewrite <-Hfv. apply list_lookup_lookup_total_lt. lia.
    + rewrite <-Hfs. apply list_lookup_lookup_total_lt. lia.
  - exfalso. revert Hcond. apply not_true_iff_false.
    apply cond_fn_false_iff. intros j Hj. rewrite !dilate_jax_unit by done.
    specialize (Hall j ltac:(lia)). apply orb_true_iff in Hall as [Hsj|Hvj].
    + left. rewrite <-Hsj. apply list_lookup_lookup_total_lt. lia.
    + right. rewrite <-Hvj. apply list_lookup_lookup_total_lt. lia.
Qed.
Lemma unit_valid_touch_exists touch_v touch_s :
  length touch_v = h * w → length touch_s = h * w →
  cond_fn h w unit_brush (touch_v, touch_s) = true →
  valid_touch_exists h w unit_brush touch_v touch_s = true.
Proof.
  intros Hv Hs Hcond.
  destruct (unit_uncovered touch_v touch_s Hv Hs Hcond) as (i & Hvi & Hsi).
  unfold valid_touch_exists. apply jnp_any_true. exists i.
  apply elem_f_or; [by rewrite length_touch_valid_solid, length_touch_valid_void|].
  left. by apply unit_touch_valid_solid.
Qed.

Lemma unit_body_follows_sign touch_v touch_s :
  length touch_v = h * w → length touch_s = h * w →
  touches_follow_sign arr touch_v touch_s →
  cond_fn h w unit_brush (touch_v, touch_s) = true →
  touches_follow_sign arr (body_fn h w unit_brush arr (touch_v, touch_s)).1
                          (body_fn h w unit_brush arr (touch_v, touch_s)).2.
Proof using Harr.
  intros Hv Hs [Hsolid Hvoid] Hcond.
  rewrite body_fn_cases, unit_no_free_touch by done.
  unfold candidates_solid, candidates_void.
  rewrite unit_no_resolving_touch by done.
  destruct (select_best_by_sign arr touch_v touch_s
              (touch_valid_solid h w unit_brush touch_v touch_s)
              (touch_valid_void h w unit_brush touch_v touch_s))
    as (p & x & Hp & Hx & [[Hpos ->]|[Hneg ->]]).
  - rewrite length_touch_valid_solid; congruence.
  - rewrite length_touch_valid_void; congruence.
  - intros i. rewrite unit_touch_valid_solid, unit_touch_valid_void by done. tauto.
  - destruct (unit_uncovered touch_v touch_s Hv Hs Hcond) as (i & Hvi & Hsi).
    exists i. by apply unit_touch_valid_solid.
  - split; [|done]. simpl. intros i Hi.
    destruct (decide (p = i)) as [<-|Hne]; [by exists x|].
    rewrite list_lookup_insert_ne in Hi by done. by apply Hsolid.
  - split; [done|]. simpl. intros i Hi.
    destruct (decide (p = i)) as [<-|Hne]; [by exists x|].
    rewrite list_lookup_insert_ne in Hi by done. by apply Hvoid.
Qed.

Lemma unit_state_follows_sign k :
  (∀ j, j < k → cond_fn h w unit_brush (state j) = true) →
  touches_follow_sign arr (state k).1 (state k).2.
Proof using Harr.
  induction k as [|k IH]; intros Hcond.
  - split; intros i Hi; by destruct (init_val_all_false arr i).
  - specialize (IH ltac:(intros j Hj; apply Hcond; lia)).
    specialize (Hcond k ltac:(lia)).
    pose proof (state_length h w unit_brush arr Harr k) as [Hl1 Hl2].
    rewrite Nat.iter_succ. destruct (state k) as [tv ts].
    by apply unit_body_follows_sign.
Qed.

(** X25.  With the brush of a single cell the solver imposes nothing: it stops
    within [2 * h * w] iterations, and the mask it returns is the design
    thresholded at zero, solid exactly where the entry is positive. *)
Theorem unit_brush_thresholds fuel :
  2 * (h * w) < fuel →
  _generator h w unit_brush arr fuel
  = Some ((λ x, bool_decide (0 < x)%Qc) <$> arr).
Proof using Harr.
  intros Hfuel.
  destruct (run_terminates h w unit_brush arr Harr) as (k & Hk & _ & _ & Hrun).
  { intros k Hcond.
    pose proof (state_length h w unit_brush arr Harr k) as [Hl1 Hl2].
    specialize (Hcond k ltac:(lia)). destruct (state k) as [tv ts].
    by apply unit_valid_touch_exists. }
  pose proof (while_loop_inv _ _ _ _ _ Hrun) as (k' & _ & Hst & Hstop & Hbefore).
  apply while_loop_fuel_mono with (fuel' := fuel) in Hrun; [|lia].
  unfold _generator. fold (init_val arr). rewrite Hrun. simpl. f_equal.
  pose proof (unit_state_follows_sign k' Hbefore) as Hsign.
  rewrite <-Hst in Hsign.
  pose proof (state_length h w unit_brush arr Harr k) as [Hl1 Hl2].
  destruct (state k) as [touch_v touch_s]. simpl in *.
  destruct Hsign as [Hsolid Hvoid].
  rewrite dilate_jax_unit by done.
  apply list_eq_same_length with (h * w); [by rewrite length_fmap|done|].
  intros i b b' Hi Hb Hb'.
  apply list_lookup_fmap_Some in Hb' as (x & -> & Hx).
  destruct b.
  - destruct (Hsolid i Hb) as (x' & Hx' & Hpos). simplify_eq.
    by rewrite bool_decide_eq_true_2.
  - pose proof (proj1 (cond_fn_false_iff h w unit_brush touch_v touch_s) Hstop i Hi)
      as Hcover.
    rewrite !dilate_jax_unit in Hcover by done.
    destruct Hcover as [?|Hvi]; [congruence|].
    destruct (Hvoid i Hvi) as (x' & Hx' & Hneg). simplify_eq.
    by rewrite bool_decide_eq_false_2 by (by apply Qcle_not_lt).
Qed.
End unit_brush.

Lemma unit_brush_thresholds_witness :
  length line_arr = 1 * 4
  ∧ 2 * (1 * 4) < 9
  ∧ _generator 1 4 unit_brush line_arr 9 = Some [true; true; false; false].
Proof.
  split; [reflexivity|]. split; [lia|].
  rewrite (unit_brush_thresholds 1 4 line_arr eq_refl 9) by lia.
  by vm_compute.
Defined.

